(** * A shallow embedding of the portfolio site's scripts

    The site is three scripts: [utils.js] (helpers: debounce, storage,
    fetchData, isValidEmail), [theme.js] (the [ThemeManager] class) and
    [render.js] (the [ComponentRenderer], [NavigationManager] and
    [ContactFormManager] classes).  Each class becomes a module, each method
    a function on an explicit state, and every [try]/[catch] is written out
    over a completion type, so that a method that never throws is a
    statement about it and not an accident of its type. *)

From stdpp Require Import gmap strings list fin_maps pretty.
From Stdlib Require Import ZArith NArith Lia Ascii.

Open Scope string_scope.
Set Warnings "-register-all".

(** ** JavaScript values

    Parsed JSON and the values the scripts pass around.  Numbers are the
    integral ones; objects are property lists in property order. *)

Inductive value : Type :=
  | VUndefined
  | VNull
  | VBool (b : bool)
  | VNum (z : Z)
  | VStr (s : string)
  | VArr (items : list value)
  | VObj (props : list (string * value)).

(** ToBoolean: what [if (x)], [!x] and [x || y] test. *)
Definition truthy (v : value) : bool :=
  match v with
  | VUndefined | VNull => false
  | VBool b => b
  | VNum z => negb (z =? 0)%Z
  | VStr s => negb (String.eqb s "")
  | VArr _ | VObj _ => true
  end.

(** [a || b] on values. *)
Definition js_or (a b : value) : value := if truthy a then a else b.

(** ** Completions: a result or a thrown error *)

Inductive error : Type :=
  | SyntaxError
  | QuotaExceededError
  | NetworkError
  | HttpError (status : nat).

Inductive outcome (A : Type) : Type :=
  | Ok (a : A)
  | Raise (e : error).
Arguments Ok {A} a.
Arguments Raise {A} e.

#[export] Instance outcome_ret : MRet outcome := fun _ a => Ok a.
#[export] Instance outcome_bind : MBind outcome := fun _ _ k c =>
  match c with
  | Ok a => k a
  | Raise e => Raise e
  end.

(** [try { body } catch (e) { handler }] *)
Definition try_catch {A} (body : outcome A) (handler : error → outcome A) : outcome A :=
  match body with
  | Ok a => Ok a
  | Raise e => handler e
  end.

(** ** The host

    What the browser supplies and the scripts only call: the JSON codec,
    the ToString conversion that [setAttribute] and [setItem] apply to their
    argument, and whether [localStorage] takes a write (it throws when the
    quota is exceeded or storage is disabled). *)

Class Host := {
  JSON_stringify : value → option string;
  JSON_parse : string → outcome value;
  ToString : value → string;
  storage_accepts : gmap string string → string → string → bool
}.

(** A value survives the trip through [JSON.stringify] and [JSON.parse]. *)
Definition json_serializable `{Host} (v : value) : Prop :=
  ∃ s, JSON_stringify v = Some s ∧ JSON_parse s = Ok v.

(** An HTTP response as [fetchData] looks at it. *)
Record response := { ok : bool; status : nat; body : string }.

(** The network at the time of a request: a response, or a rejected fetch. *)
Definition network := string → outcome response.

Module Utils.
Section WithHost.
Context `{Host}.

Definition localStorage_getItem (ls : gmap string string) (key : string) : option string :=
  ls !! key.

Definition localStorage_setItem (ls : gmap string string) (key s : string)
  : outcome (gmap string string) :=
  if storage_accepts ls key s then Ok (<[key:=s]> ls) else Raise QuotaExceededError.

(** [JSON.parse(x)] where [x] may be [null]: the argument is converted to a
    string first, and [null] converts to the text null. *)
Definition parse_item (x : option string) : outcome value :=
  JSON_parse (default "null" x).

(** [JSON.stringify(v)] handed to [setItem]: an [undefined] result is
    converted to the text undefined. *)
Definition stringify_item (v : value) : string :=
  default "undefined" (JSON_stringify v).

(** storage.get *)
Definition storage_get (ls : gmap string string) (key : string) : outcome value :=
  try_catch (parse_item (localStorage_getItem ls key)) (λ _, Ok VNull).

(** storage.set: the flag it returns and the store it leaves. *)
Definition storage_set (ls : gmap string string) (key : string) (v : value)
  : outcome (bool * gmap string string) :=
  try_catch
    (ls' ← localStorage_setItem ls key (stringify_item v); mret (true, ls'))
    (λ _, Ok (false, ls)).

(** storage.remove *)
Definition storage_remove (ls : gmap string string) (key : string) : gmap string string :=
  delete key ls.

(** response.json() *)
Definition response_json (r : response) : outcome value := JSON_parse (body r).

(** fetchData *)
Definition fetchData (net : network) (url : string) : outcome value :=
  try_catch
    (r ← net url;
     if negb (ok r) then Raise (HttpError (status r)) else response_json r)
    (λ _, Ok VNull).
End WithHost.

(** *** Text as UTF-16 code units

    [trim] and the regular expression look at single code units, so a form
    value is the list of its code units. *)

Definition text := list N.

(** White space and line terminators: the code units that [trim] strips
    and that the class [\s] matches. *)
Definition is_space (c : N) : bool :=
  ((c =? 9) || (c =? 10) || (c =? 11) || (c =? 12) || (c =? 13) || (c =? 32)
   || (c =? 160) || (c =? 5760) || ((8192 <=? c) && (c <=? 8202))
   || (c =? 8232) || (c =? 8233) || (c =? 8239) || (c =? 8287)
   || (c =? 12288) || (c =? 65279))%N.

Fixpoint trimStart (s : text) : text :=
  match s with
  | c :: s' => if is_space c then trimStart s' else s
  | [] => []
  end.

(** String.prototype.trim *)
Definition trim (s : text) : text := rev (trimStart (rev (trimStart s))).

(** *** Regular expressions, matched by derivatives *)

Inductive regex : Type :=
  | RNone
  | REps
  | RClass (p : N → bool)
  | RSeq (r1 r2 : regex)
  | RAlt (r1 r2 : regex)
  | RStar (r : regex).

Definition RPlus (r : regex) : regex := RSeq r (RStar r).

Fixpoint nullable (r : regex) : bool :=
  match r with
  | RNone => false
  | REps => true
  | RClass _ => false
  | RSeq r1 r2 => nullable r1 && nullable r2
  | RAlt r1 r2 => nullable r1 || nullable r2
  | RStar _ => true
  end.

Fixpoint deriv (c : N) (r : regex) : regex :=
  match r with
  | RNone => RNone
  | REps => RNone
  | RClass p => if p c then REps else RNone
  | RSeq r1 r2 =>
      if nullable r1 then RAlt (RSeq (deriv c r1) r2) (deriv c r2)
      else RSeq (deriv c r1) r2
  | RAlt r1 r2 => RAlt (deriv c r1) (deriv c r2)
  | RStar r1 => RSeq (deriv c r1) (RStar r1)
  end.

(** [/^r$/.test(s)]: the whole of [s] is in the language of [r]. *)
Fixpoint regex_test (r : regex) (s : text) : bool :=
  match s with
  | [] => nullable r
  | c :: s' => regex_test (deriv c r) s'
  end.

(** The class [[^\s@]]. *)
Definition not_space_at (c : N) : bool := negb (is_space c || (c =? 64)%N).

(** [/^[^\s@]+@[^\s@]+\.[^\s@]+$/] *)
Definition emailRegex : regex :=
  RSeq (RPlus (RClass not_space_at))
    (RSeq (RClass (N.eqb 64))
       (RSeq (RPlus (RClass not_space_at))
          (RSeq (RClass (N.eqb 46)) (RPlus (RClass not_space_at))))).

(** isValidEmail *)
Definition isValidEmail (email : text) : bool := regex_test emailRegex email.

(** The language of a regular expression. *)
Inductive matches : regex → text → Prop :=
  | matches_eps : matches REps []
  | matches_class p c : p c = true → matches (RClass p) [c]
  | matches_seq r1 r2 s1 s2 :
      matches r1 s1 → matches r2 s2 → matches (RSeq r1 r2) (s1 ++ s2)%list
  | matches_alt_l r1 r2 s : matches r1 s → matches (RAlt r1 r2) s
  | matches_alt_r r1 r2 s : matches r2 s → matches (RAlt r1 r2) s
  | matches_star_nil r : matches (RStar r) []
  | matches_star_cons r s1 s2 :
      matches r s1 → matches (RStar r) s2 → matches (RStar r) (s1 ++ s2)%list.

(** A non-empty run of code units that are neither white space nor the at
    sign. *)
Definition email_part (s : text) : Prop :=
  s ≠ [] ∧ Forall (λ c, not_space_at c = true) s.

(** local@domain.tld, where the domain may itself hold dots. *)
Definition email_shaped (s : text) : Prop :=
  ∃ local domain tld,
    s = (local ++ 64%N :: domain ++ 46%N :: tld)%list
    ∧ email_part local ∧ email_part domain ∧ email_part tld.

(** *** debounce

    The closure returned by [debounce(func, wait)] owns one variable,
    [timeout].  It lives next to the browser's timer table; a timer holds
    its deadline and the arguments its [later] callback closed over. *)
Section Debounce.
Context {A : Type}.
Variable wait : N.

Record debounced := {
  now : N;                      (* the clock, in milliseconds *)
  timers : gmap nat (N * A);    (* the active timers, by handle *)
  nextId : nat;                 (* the handle setTimeout hands out next *)
  timeout : option nat;         (* the closure's variable; None is undefined *)
  invoked : list (N * A)        (* the calls of func so far: when, with what *)
}.

(** The closure as [debounce(func, wait)] returns it: nothing scheduled,
    nothing invoked. *)
Definition debounce : debounced :=
  {| now := 0; timers := ∅; nextId := 0; timeout := None; invoked := [] |}.

(** clearTimeout; clearing [undefined] or a timer that already ran does
    nothing. *)
Definition clearTimeout (h : option nat) (tm : gmap nat (N * A)) : gmap nat (N * A) :=
  match h with
  | Some id => delete id tm
  | None => tm
  end.

(** executedFunction(...args) *)
Definition executedFunction (args : A) (d : debounced) : debounced :=
  let tm := clearTimeout (timeout d) (timers d) in
  {| now := now d;
     timers := <[nextId d := ((now d + wait)%N, args)]> tm;
     nextId := S (nextId d);
     timeout := Some (nextId d);
     invoked := invoked d |}.

(** The event loop runs timer [id]: nothing happens unless the timer is
    still active and due; otherwise it leaves the table and its [later]
    runs, which clears [timeout] and calls [func(...args)]. *)
Definition fire (id : nat) (d : debounced) : debounced :=
  match timers d !! id with
  | Some (deadline, args) =>
      if (deadline <=? now d)%N then
        {| now := now d;
           timers := clearTimeout (timeout d) (delete id (timers d));
           nextId := nextId d;
           timeout := timeout d;
           invoked := (invoked d ++ [(now d, args)])%list |}
      else d
  | None => d
  end.

Definition elapse (dt : N) (d : debounced) : debounced :=
  {| now := (now d + dt)%N; timers := timers d; nextId := nextId d;
     timeout := timeout d; invoked := invoked d |}.

Inductive event : Type :=
  | Call (args : A)
  | Elapse (dt : N)
  | Fire (id : nat).

Definition step (d : debounced) (e : event) : debounced :=
  match e with
  | Call args => executedFunction args d
  | Elapse dt => elapse dt d
  | Fire id => fire id d
  end.

Definition run (tr : list event) : debounced := foldl step debounce tr.

Definition is_call (e : event) : bool :=
  match e with Call _ => true | _ => false end.

(** The trace holds no call of the debounced function. *)
Definition no_calls (tr : list event) : Prop := Forall (λ e, is_call e = false) tr.

(** The timer table holds at most the timer that [timeout] names. *)
Definition single_timer (d : debounced) : Prop :=
  ∀ id x, timers d !! id = Some x → timeout d = Some id.

(** A pending timer was set by the last call: nothing was called or invoked
    since, and its deadline is [wait] after that call. *)
Definition set_by_last_call (tr : list event) (deadline : N) (args : A) : Prop :=
  ∃ tr1 tr2,
    tr = (tr1 ++ Call args :: tr2)%list
    ∧ no_calls tr2
    ∧ deadline = (now (run tr1) + wait)%N
    ∧ invoked (run tr) = invoked (run tr1).
End Debounce.

(** *** throttle

    The closure returned by [throttle(func, limit)] owns the flag
    [inThrottle]; its timers only lower the flag, so a timer is just its
    deadline. *)
Section Throttle.
Context {A : Type}.
Variable limit : N.

Record throttled := {
  t_now : N;                    (* the clock, in milliseconds *)
  t_timers : gmap nat N;        (* the active timers: handle and deadline *)
  t_nextId : nat;
  inThrottle : bool;            (* undefined counts as false *)
  t_invoked : list (N * A)      (* the calls of func so far: when, with what *)
}.

(** [func] is whatever function the caller passed: applied to arguments it
    may do anything to this world, also call the returned function again or
    let time pass, and it returns ([None]) or throws. *)
Variable func : A → throttled → throttled * option error.

(** The closure as [throttle(func, limit)] returns it. *)
Definition throttle : throttled :=
  {| t_now := 0; t_timers := ∅; t_nextId := 0; inThrottle := false; t_invoked := [] |}.

(** [func.apply(context, args)] begins: the call is on record. *)
Definition applied (args : A) (d : throttled) : throttled :=
  {| t_now := t_now d; t_timers := t_timers d; t_nextId := t_nextId d;
     inThrottle := inThrottle d;
     t_invoked := (t_invoked d ++ [(t_now d, args)])%list |}.

(** A call of the returned function: [func] is applied first; the flag is
    raised and the timer set only once [func] has returned, so an exception
    of [func] leaves the closure without them and goes on to the caller. *)
Definition throttledFunction (args : A) (d : throttled) : throttled * option error :=
  if negb (inThrottle d) then
    let r := func args (applied args d) in
    match r.2 with
    | Some e => (r.1, Some e)
    | None =>
        ({| t_now := t_now r.1;
            t_timers := <[t_nextId r.1 := (t_now r.1 + limit)%N]> (t_timers r.1);
            t_nextId := S (t_nextId r.1);
            inThrottle := true;
            t_invoked := t_invoked r.1 |}, None)
    end
  else (d, None).

(** The event loop runs timer [id], if it is active and due: the flag is
    lowered. *)
Definition t_fire (id : nat) (d : throttled) : throttled :=
  match t_timers d !! id with
  | Some deadline =>
      if (deadline <=? t_now d)%N then
        {| t_now := t_now d; t_timers := delete id (t_timers d); t_nextId := t_nextId d;
           inThrottle := false; t_invoked := t_invoked d |}
      else d
  | None => d
  end.

Definition t_elapse (dt : N) (d : throttled) : throttled :=
  {| t_now := (t_now d + dt)%N; t_timers := t_timers d; t_nextId := t_nextId d;
     inThrottle := inThrottle d; t_invoked := t_invoked d |}.

(** One event; an exception of a call ends that call and nothing else. *)
Definition t_step (d : throttled) (e : @event A) : throttled :=
  match e with
  | Call args => (throttledFunction args d).1
  | Elapse dt => t_elapse dt d
  | Fire id => t_fire id d
  end.

Definition t_run (tr : list (@event A)) : throttled := foldl t_step throttle tr.

(** [func] returns, and while it runs it neither calls the returned
    function again nor lets the clock or the timers move. *)
Definition returns_quietly : Prop := ∀ args d, func args d = (d, None).

(** [func] throws on [args], leaving this world as it found it. *)
Definition throws_on (args : A) (e : error) : Prop := ∀ d, func args d = (d, Some e).

(** Successive entries of a log are at least [limit] apart. *)
Fixpoint spaced (log : list (N * A)) : Prop :=
  match log with
  | x :: (y :: _) as rest => (x.1 + limit ≤ y.1)%N ∧ spaced rest
  | _ => True
  end.

(** What the closure keeps true: the log is spaced; while the flag is up
    exactly one timer is pending, due [limit] after the last invocation;
    while it is down no timer is pending and the last invocation is at
    least [limit] old. *)
Definition throttle_invariant (d : throttled) : Prop :=
  spaced (t_invoked d)
  ∧ (inThrottle d = true →
     ∃ id t args, last (t_invoked d) = Some (t, args)
                  ∧ t_timers d = {[ id := (t + limit)%N ]} ∧ (t ≤ t_now d)%N)
  ∧ (inThrottle d = false →
     t_timers d = ∅
     ∧ ∀ t args, last (t_invoked d) = Some (t, args) → (t + limit ≤ t_now d)%N).
End Throttle.

(** *** debounce under a burst *)

(** A burst: each call is followed by a pause, and by the event loop trying
    the timers in [probes]. *)
Definition burst {A : Type} (calls : list (A * N * list nat)) : list (@event A) :=
  calls ≫= (λ c, Call c.1.1 :: Elapse c.1.2 :: (Fire <$> c.2)).

(** The time a burst takes. *)
Definition burst_length {A : Type} (calls : list (A * N * list nat)) : N :=
  foldr (λ c acc, (c.1.2 + acc)%N) 0%N calls.

End Utils.

(** [v === 'text'] for a string literal. *)
Definition is_str (v : value) (s : string) : bool :=
  match v with
  | VStr s' => String.eqb s' s
  | _ => false
  end.

(** ** theme.js *)

Module ThemeManager.
Section WithHost.
Context `{Host}.

(** What the manager reads and writes: its own [currentTheme], the
    [data-theme] attribute of the root element, [localStorage], and the
    answer of the [(prefers-color-scheme: dark)] media query.  The meta
    theme colour, the toggle button's label and animation, the
    [themechange] event and the console are written but never read back
    by the methods below, and are left out. *)
Record state := {
  currentTheme : value;
  data_theme : option string;
  localStorage : gmap string string;
  prefers_dark : bool
}.

Definition themeKey : string := "portfolio-theme".

Definition getStoredTheme (st : state) : outcome value :=
  Utils.storage_get (localStorage st) themeKey.

Definition getSystemTheme (st : state) : value :=
  if prefers_dark st then VStr "dark" else VStr "light".

Definition applyTheme (theme : value) (st : state) : outcome state :=
  let attr := Some (ToString theme) in
  r ← Utils.storage_set (localStorage st) themeKey theme;
  mret {| currentTheme := theme;
          data_theme := attr;
          localStorage := r.2;
          prefers_dark := prefers_dark st |}.

Definition toggleTheme (st : state) : outcome state :=
  let newTheme := if is_str (currentTheme st) "light" then VStr "dark" else VStr "light" in
  applyTheme newTheme st.

(** [['light', 'dark'].includes(theme)] *)
Definition is_theme (theme : value) : bool :=
  is_str theme "light" || is_str theme "dark".

Definition setTheme (theme : value) (st : state) : outcome state :=
  if is_theme theme then applyTheme theme st else Ok st.

(** The listener bound to the media query's [change] event; [e.matches]
    is the new answer of the query. *)
Definition onSystemThemeChange (matches : bool) (st : state) : outcome state :=
  let st := {| currentTheme := currentTheme st; data_theme := data_theme st;
               localStorage := localStorage st; prefers_dark := matches |} in
  stored ← getStoredTheme st;
  if negb (truthy stored) then applyTheme (if matches then VStr "dark" else VStr "light") st
  else Ok st.

(** [new ThemeManager()] on a page whose root attribute, storage and
    system preference are as given: the constructor, then [init]. *)
Definition construct (attr : option string) (ls : gmap string string) (dark : bool)
  : outcome state :=
  let st0 := {| currentTheme := VUndefined; data_theme := attr;
                localStorage := ls; prefers_dark := dark |} in
  stored ← getStoredTheme st0;
  let theme := js_or stored (getSystemTheme st0) in
  applyTheme theme st0.

(** The calls a page can make on a constructed manager. *)
Inductive op : Type :=
  | ApplyTheme (theme : value)
  | ToggleTheme
  | SetTheme (theme : value)
  | SystemThemeChange (matches : bool).

Definition perform (o : op) (st : state) : outcome state :=
  match o with
  | ApplyTheme theme => applyTheme theme st
  | ToggleTheme => toggleTheme st
  | SetTheme theme => setTheme theme st
  | SystemThemeChange matches => onSystemThemeChange matches st
  end.

Fixpoint perform_all (ops : list op) (st : state) : outcome state :=
  match ops with
  | [] => Ok st
  | o :: ops' => st' ← perform o st; perform_all ops' st'
  end.

(** One of the two themes of the site. *)
Definition light_or_dark (v : value) : Prop := v = VStr "light" ∨ v = VStr "dark".

(** What is stored under the key is the current theme, and that is one of
    the two themes. *)
Definition theme_stored (st : state) : Prop :=
  getStoredTheme st = Ok (currentTheme st) ∧ light_or_dark (currentTheme st).

(** A call whose argument, if it is a direct [applyTheme], is a theme. *)
Definition in_range (o : op) : Prop :=
  match o with
  | ApplyTheme theme => light_or_dark theme
  | _ => True
  end.

Definition with_prefers_dark (matches : bool) (st : state) : state :=
  {| currentTheme := currentTheme st; data_theme := data_theme st;
     localStorage := localStorage st; prefers_dark := matches |}.
End WithHost.
End ThemeManager.

(** ** render.js: the data files

    The records the templates read, and how a parsed payload is read as
    one.  A payload of another shape is outside the model: the readers
    answer [None] for it, and so do the render functions. *)

Record Project := {
  project_title : string;
  project_company : string;
  project_image : option string;
  project_demo : option string
}.

Record Experience := {
  exp_position : string;
  exp_company : string;
  exp_period : string;
  exp_description : string;
  exp_achievements : list string
}.

Record Skill := { skill_icon : string; skill_name : string }.

Record SkillCategory := {
  category_icon : string;
  category_title : string;
  category_skills : list Skill
}.

Record Certification := {
  cert_icon : string;
  cert_title : string;
  cert_issuer : string;
  cert_date : string;
  cert_link : option string
}.

Record Contact := {
  contact_title : string;
  contact_link : string;
  contact_icon : string
}.

(** [v.k] on a parsed payload: the property if [v] is an object that has
    it, [undefined] otherwise. *)
Definition prop (v : value) (k : string) : value :=
  match v with
  | VObj props => default VUndefined (snd <$> List.find (λ p, String.eqb p.1 k) props)
  | _ => VUndefined
  end.

Definition as_string (v : value) : option string :=
  match v with VStr s => Some s | _ => None end.

(** A field tested with [x ? ... : ''] before it is used as text. *)
Definition as_optional_string (v : value) : option (option string) :=
  if truthy v then Some <$> as_string v else Some None.

Definition as_array (v : value) : option (list value) :=
  match v with VArr items => Some items | _ => None end.

Definition as_strings (v : value) : option (list string) :=
  as_array v ≫= mapM as_string.

Definition as_list {A} (item : value → option A) (v : value) : option (list A) :=
  as_array v ≫= mapM item.

Definition read_project (v : value) : option Project :=
  title ← as_string (prop v "title");
  company ← as_string (prop v "company");
  image ← as_optional_string (prop v "image");
  demo ← as_optional_string (prop v "demo");
  Some {| project_title := title; project_company := company;
          project_image := image; project_demo := demo |}.

(** [achievements] is shown under [x && x.length > 0]. *)
Definition read_experience (v : value) : option Experience :=
  position ← as_string (prop v "position");
  company ← as_string (prop v "company");
  period ← as_string (prop v "period");
  description ← as_string (prop v "description");
  achievements ← (if truthy (prop v "achievements")
                   then as_strings (prop v "achievements") else Some []);
  Some {| exp_position := position; exp_company := company; exp_period := period;
          exp_description := description; exp_achievements := achievements |}.

Definition read_skill (v : value) : option Skill :=
  icon ← as_string (prop v "icon");
  name ← as_string (prop v "name");
  Some {| skill_icon := icon; skill_name := name |}.

Definition read_category (v : value) : option SkillCategory :=
  icon ← as_string (prop v "icon");
  title ← as_string (prop v "title");
  skills ← as_list read_skill (prop v "skills");
  Some {| category_icon := icon; category_title := title; category_skills := skills |}.

Definition read_certification (v : value) : option Certification :=
  icon ← as_string (prop v "icon");
  title ← as_string (prop v "title");
  issuer ← as_string (prop v "issuer");
  date ← as_string (prop v "date");
  link ← as_optional_string (prop v "link");
  Some {| cert_icon := icon; cert_title := title; cert_issuer := issuer;
          cert_date := date; cert_link := link |}.

Definition read_contact (v : value) : option Contact :=
  title ← as_string (prop v "title");
  link ← as_string (prop v "link");
  icon ← as_string (prop v "icon");
  Some {| contact_title := title; contact_link := link; contact_icon := icon |}.

(** ** render.js: the page

    An element written through [innerHTML] is recorded by what its template
    interpolates, together with the classes and styles the scripts change
    later.  A container is [None] when the page has no such element. *)

Record filter_btn := {
  btn_active : bool;          (* class filter-btn--active *)
  btn_filter : string;        (* data-filter *)
  btn_text : string
}.

Record project_card := {
  card_company : string;      (* data-company *)
  card_project : Project;
  card_display : option string;   (* style.display, None while unset *)
  card_no_image : bool        (* class project-card__image--no-image *)
}.

Record contact_card := {
  cc_contact : Contact;
  cc_new_tab : bool;          (* target and rel, when the link starts with http *)
  cc_action : string
}.

Record document := {
  about_bio : option (list string);                  (* #about-bio *)
  project_filters : option (list filter_btn);        (* #project-filters *)
  projects_grid : option (list project_card);        (* #projects-grid *)
  experience_timeline : option (list Experience);    (* #experience-timeline *)
  skills_content : option (list SkillCategory);      (* #skills-content *)
  certifications_grid : option (list Certification); (* #certifications-grid *)
  contact_cards : option (list contact_card);        (* .contact__cards *)
  footer_social : option (list Contact)              (* .footer__social *)
}.

Definition set_about_bio (x : list string) (d : document) : document :=
  {| about_bio := Some x; project_filters := project_filters d;
     projects_grid := projects_grid d; experience_timeline := experience_timeline d;
     skills_content := skills_content d; certifications_grid := certifications_grid d;
     contact_cards := contact_cards d; footer_social := footer_social d |}.

Definition set_project_filters (x : list filter_btn) (d : document) : document :=
  {| about_bio := about_bio d; project_filters := Some x;
     projects_grid := projects_grid d; experience_timeline := experience_timeline d;
     skills_content := skills_content d; certifications_grid := certifications_grid d;
     contact_cards := contact_cards d; footer_social := footer_social d |}.

Definition set_projects_grid (x : list project_card) (d : document) : document :=
  {| about_bio := about_bio d; project_filters := project_filters d;
     projects_grid := Some x; experience_timeline := experience_timeline d;
     skills_content := skills_content d; certifications_grid := certifications_grid d;
     contact_cards := contact_cards d; footer_social := footer_social d |}.

Definition set_experience_timeline (x : list Experience) (d : document) : document :=
  {| about_bio := about_bio d; project_filters := project_filters d;
     projects_grid := projects_grid d; experience_timeline := Some x;
     skills_content := skills_content d; certifications_grid := certifications_grid d;
     contact_cards := contact_cards d; footer_social := footer_social d |}.

Definition set_skills_content (x : list SkillCategory) (d : document) : document :=
  {| about_bio := about_bio d; project_filters := project_filters d;
     projects_grid := projects_grid d; experience_timeline := experience_timeline d;
     skills_content := Some x; certifications_grid := certifications_grid d;
     contact_cards := contact_cards d; footer_social := footer_social d |}.

Definition set_certifications_grid (x : list Certification) (d : document) : document :=
  {| about_bio := about_bio d; project_filters := project_filters d;
     projects_grid := projects_grid d; experience_timeline := experience_timeline d;
     skills_content := skills_content d; certifications_grid := Some x;
     contact_cards := contact_cards d; footer_social := footer_social d |}.

Definition set_contact_cards (x : list contact_card) (d : document) : document :=
  {| about_bio := about_bio d; project_filters := project_filters d;
     projects_grid := projects_grid d; experience_timeline := experience_timeline d;
     skills_content := skills_content d; certifications_grid := certifications_grid d;
     contact_cards := Some x; footer_social := footer_social d |}.

Definition set_footer_social (x : list Contact) (d : document) : document :=
  {| about_bio := about_bio d; project_filters := project_filters d;
     projects_grid := projects_grid d; experience_timeline := experience_timeline d;
     skills_content := skills_content d; certifications_grid := certifications_grid d;
     contact_cards := contact_cards d; footer_social := Some x |}.

(** [Utils.$$('.filter-btn')] and [Utils.$$('.project-card')]: the page has
    these classes only inside the two project containers. *)
Definition filter_buttons (d : document) : list filter_btn := default [] (project_filters d).
Definition project_cards (d : document) : list project_card := default [] (projects_grid d).

Module ComponentRenderer.

(** [[...new Set(xs)]]: the distinct members in order of first occurrence. *)
Fixpoint distinct_from (seen xs : list string) : list string :=
  match xs with
  | [] => []
  | x :: xs' =>
      if bool_decide (x ∈ seen) then distinct_from seen xs'
      else x :: distinct_from (x :: seen) xs'
  end.

Definition distinct (xs : list string) : list string := distinct_from [] xs.

(** [file.split('/').pop()] *)
Fixpoint last_segment (acc s : string) : string :=
  match s with
  | EmptyString => acc
  | String c s' =>
      if Ascii.eqb c "/"%char then last_segment "" s'
      else last_segment (acc +:+ String c "") s'
  end.

(** [s.replace(pat, '')] for a string pattern: the first occurrence goes. *)
Fixpoint remove_first (pat s : string) : string :=
  if String.prefix pat s then String.substring (String.length pat) (String.length s) s
  else match s with
       | EmptyString => EmptyString
       | String c s' => String c (remove_first pat s')
       end.

Definition dataFiles : list string :=
  [ "assets/data/about.json";
    "assets/data/projects.json";
    "assets/data/experience.json";
    "assets/data/skills.json";
    "assets/data/certifications.json";
    "assets/data/contact.json" ].

Definition cache_key (file : string) : string :=
  remove_first ".json" (last_segment "" file).

Section WithHost.
Context `{Host}.

(** The body of the callback that [loadAllData] maps over [dataFiles]. *)
Definition load_file (net : network) (file : string) (cache : gmap string value)
  : outcome (gmap string value) :=
  let key := cache_key file in
  data ← Utils.fetchData net file;
  if truthy data then Ok (<[key := data]> cache) else Ok cache.

Fixpoint load_files (net : network) (files : list string) (cache : gmap string value)
  : outcome (gmap string value) :=
  match files with
  | [] => Ok cache
  | file :: files' => cache' ← load_file net file cache; load_files net files' cache'
  end.

(** loadAllData.  The six requests are in flight together; they write
    under six different keys, so the cache they leave is the same in
    whatever order they finish. *)
Definition loadAllData (net : network) (cache : gmap string value)
  : outcome (gmap string value) :=
  load_files net dataFiles cache.
End WithHost.

(** *** The sections *)

Definition renderAboutSection (cache : gmap string value) (d : document) : option document :=
  match cache !! "about" with
  | None => Some d
  | Some data =>
      if negb (truthy data) then Some d
      else match about_bio d with
           | None => Some d
           | Some _ =>
               if truthy (prop data "bio") then
                 bio ← as_strings (prop data "bio");
                 Some (set_about_bio bio d)
               else Some d
           end
  end.

Definition filter_button (index : nat) (company : string) : filter_btn :=
  {| btn_active := bool_decide (index = 0); btn_filter := company; btn_text := company |}.

Definition generateProjectFilters (projects : list Project) (d : document) : document :=
  match project_filters d with
  | None => d
  | Some _ =>
      let companies := distinct (project_company <$> projects) in
      set_project_filters (imap filter_button companies) d
  end.

Definition render_project_card (project : Project) : project_card :=
  {| card_company := project_company project; card_project := project;
     card_display := None; card_no_image := false |}.

Definition add_no_image (c : project_card) : project_card :=
  {| card_company := card_company c; card_project := card_project c;
     card_display := card_display c; card_no_image := true |}.

(** The class part of handleProjectImages (the preloading before it only
    asks the network for images).  Every card holds one image container,
    so the containers are walked card by card; a container with no project
    at its index stops the walk with a TypeError, here [None]. *)
Fixpoint mark_missing_images (projects : list Project) (index : nat)
    (cards : list project_card) : option (list project_card) :=
  match cards with
  | [] => Some []
  | c :: cards' =>
      project ← projects !! index;
      rest ← mark_missing_images projects (S index) cards';
      Some (match project_image project with
            | Some _ => c
            | None => add_no_image c
            end :: rest)
  end.

Definition handleProjectImages (projects : list Project) (d : document) : option document :=
  match projects_grid d with
  | None => Some d
  | Some cards =>
      cards' ← mark_missing_images projects 0 cards;
      Some (set_projects_grid cards' d)
  end.

Definition show_if_company (filter : string) (c : project_card) : project_card :=
  {| card_company := card_company c; card_project := card_project c;
     card_display := Some (if String.eqb (card_company c) filter then "block" else "none");
     card_no_image := card_no_image c |}.

Definition applyProjectFilter (projectCards : list project_card) (filter : string)
  : list project_card :=
  show_if_company filter <$> projectCards.

Definition with_cards (cards : list project_card) (d : document) : document :=
  match projects_grid d with
  | None => d
  | Some _ => set_projects_grid cards d
  end.

Definition with_buttons (buttons : list filter_btn) (d : document) : document :=
  match project_filters d with
  | None => d
  | Some _ => set_project_filters buttons d
  end.

(** initProjectFiltering, up to the binding of the click listeners. *)
Definition initProjectFiltering (projects : list Project) (d : document) : document :=
  let filterButtons := filter_buttons d in
  let projectCards := project_cards d in
  match filterButtons with
  | first :: _ => with_cards (applyProjectFilter projectCards (btn_filter first)) d
  | [] => d
  end.

Definition set_active (active : bool) (b : filter_btn) : filter_btn :=
  {| btn_active := active; btn_filter := btn_filter b; btn_text := btn_text b |}.

(** The click listener that initProjectFiltering binds to the button at
    [index]. *)
Definition click_filter (index : nat) (d : document) : document :=
  let filterButtons := filter_buttons d in
  let projectCards := project_cards d in
  match filterButtons !! index with
  | None => d
  | Some btn =>
      let cleared := set_active false <$> filterButtons in
      let buttons := <[index := set_active true btn]> cleared in
      with_cards (applyProjectFilter projectCards (btn_filter btn)) (with_buttons buttons d)
  end.

Definition renderProjectsSection (cache : gmap string value) (d : document) : option document :=
  match cache !! "projects" with
  | None => Some d
  | Some data =>
      if negb (truthy data) then Some d
      else match projects_grid d with
           | None => Some d
           | Some _ =>
               projects ← as_list read_project data;
               let d1 := generateProjectFilters projects d in
               let d2 := set_projects_grid (render_project_card <$> projects) d1 in
               d3 ← handleProjectImages projects d2;
               Some (initProjectFiltering projects d3)
           end
  end.

Definition renderExperienceSection (cache : gmap string value) (d : document) : option document :=
  match cache !! "experience" with
  | None => Some d
  | Some data =>
      if negb (truthy data) then Some d
      else match experience_timeline d with
           | None => Some d
           | Some _ => items ← as_list read_experience data;
                       Some (set_experience_timeline items d)
           end
  end.

Definition renderSkillsSection (cache : gmap string value) (d : document) : option document :=
  match cache !! "skills" with
  | None => Some d
  | Some data =>
      if negb (truthy data) then Some d
      else match skills_content d with
           | None => Some d
           | Some _ => items ← as_list read_category data;
                       Some (set_skills_content items d)
           end
  end.

Definition renderCertificationsSection (cache : gmap string value) (d : document)
  : option document :=
  match cache !! "certifications" with
  | None => Some d
  | Some data =>
      if negb (truthy data) then Some d
      else match certifications_grid d with
           | None => Some d
           | Some _ => items ← as_list read_certification data;
                       Some (set_certifications_grid items d)
           end
  end.

Definition contact_action (title : string) : string :=
  if String.eqb title "Email" then "Send Email"
  else if String.eqb title "Phone" then "Call Now"
  else if String.eqb title "LinkedIn" then "Connect"
  else if String.eqb title "WhatsApp" then "Chat Now"
  else "Visit".

Definition render_contact_card (contact : Contact) : contact_card :=
  {| cc_contact := contact;
     cc_new_tab := String.prefix "http" (contact_link contact);
     cc_action := contact_action (contact_title contact) |}.

Definition is_social (contact : Contact) : bool :=
  String.eqb (contact_title contact) "GitHub" || String.eqb (contact_title contact) "LinkedIn".

Definition not_github (contact : Contact) : bool :=
  negb (String.eqb (contact_title contact) "GitHub").

(** renderFooterSocial; [contactData] is [None] for a falsy argument. *)
Definition renderFooterSocial (contactData : option (list Contact)) (d : document) : document :=
  match footer_social d, contactData with
  | Some _, Some contacts =>
      let socialLinks := List.filter is_social contacts in
      set_footer_social socialLinks d
  | _, _ => d
  end.

Definition renderContactSection (cache : gmap string value) (d : document) : option document :=
  match cache !! "contact" with
  | None => Some d
  | Some data =>
      if negb (truthy data) then Some d
      else
        contacts ← as_list read_contact data;
        let contactCardsData := List.filter not_github contacts in
        let d1 := match contact_cards d with
                  | Some _ => set_contact_cards (render_contact_card <$> contactCardsData) d
                  | None => d
                  end in
        Some (renderFooterSocial (Some contacts) d1)
  end.

(** The six entries of [this.components], in the order of its keys. *)
Definition components : list (string * (gmap string value → document → option document)) :=
  [ ("about", renderAboutSection);
    ("projects", renderProjectsSection);
    ("experience", renderExperienceSection);
    ("skills", renderSkillsSection);
    ("certifications", renderCertificationsSection);
    ("contact", renderContactSection) ].

Definition getData (cache : gmap string value) (key : string) : option value := cache !! key.

Definition updateData (cache : gmap string value) (key : string) (data : value)
  : gmap string value := <[key := data]> cache.

(** *** The filtering state *)

(** A card shows unless its display style is none. *)
Definition displayed (c : project_card) : Prop := card_display c ≠ Some "none".

(** The button at index [i] carries the active class and no other does. *)
Definition only_active (i : nat) (buttons : list filter_btn) : Prop :=
  ∀ j b, buttons !! j = Some b → (btn_active b = true ↔ j = i).

(** Exactly one button is active, its filter value is [filter], and the
    cards that show are those of that company. *)
Definition filter_state (filter : string) (d : document) : Prop :=
  (∃ i b, filter_buttons d !! i = Some b ∧ btn_filter b = filter
          ∧ only_active i (filter_buttons d))
  ∧ (∀ c, c ∈ project_cards d → (displayed c ↔ card_company c = filter)).

Definition filtering_invariant (d : document) : Prop := ∃ filter, filter_state filter d.

(** Clicks on the buttons at the given indices, one after the other. *)
Definition click_all (clicks : list nat) (d : document) : document :=
  foldl (λ d i, click_filter i d) d clicks.


(** *** The whole page *)

(** renderAllComponents: the six functions, in the order of the keys of
    [this.components].  They run one after the other, none of them waits. *)
Definition renderAllComponents (cache : gmap string value) (d : document) : option document :=
  foldl (λ acc component, acc ≫= component.2 cache) (Some d) components.

Definition fallback_bio : list string :=
  [ "I'm a passionate Senior Frontend Developer with over 8 years of experience in creating exceptional digital experiences.";
    "Specialized in Angular, React, and modern JavaScript frameworks, I've led multiple successful projects from concept to deployment." ].

Definition renderFallbackContent (d : document) : document :=
  match about_bio d with
  | Some _ => set_about_bio fallback_bio d
  | None => d
  end.

(** refreshComponent, for the names of the six components. *)
Definition refreshComponent (componentName : string) (cache : gmap string value)
    (d : document) : option document :=
  match List.find (λ component, String.eqb component.1 componentName) components with
  | Some component => component.2 cache d
  | None => Some d
  end.

(** The card of a project once handleProjectImages has looked at it. *)
Definition marked_card (project : Project) : project_card :=
  match project_image project with
  | Some _ => render_project_card project
  | None => add_no_image (render_project_card project)
  end.

(** The containers of the page, and the ones each component writes. *)
Inductive container : Type :=
  | AboutBio | ProjectFilters | ProjectsGrid | ExperienceTimeline
  | SkillsContent | CertificationsGrid | ContactCards | FooterSocial.

Definition present (c : container) (d : document) : bool :=
  match c with
  | AboutBio => bool_decide (is_Some (about_bio d))
  | ProjectFilters => bool_decide (is_Some (project_filters d))
  | ProjectsGrid => bool_decide (is_Some (projects_grid d))
  | ExperienceTimeline => bool_decide (is_Some (experience_timeline d))
  | SkillsContent => bool_decide (is_Some (skills_content d))
  | CertificationsGrid => bool_decide (is_Some (certifications_grid d))
  | ContactCards => bool_decide (is_Some (contact_cards d))
  | FooterSocial => bool_decide (is_Some (footer_social d))
  end.

Definition untouched (c : container) (d d' : document) : Prop :=
  match c with
  | AboutBio => about_bio d' = about_bio d
  | ProjectFilters => project_filters d' = project_filters d
  | ProjectsGrid => projects_grid d' = projects_grid d
  | ExperienceTimeline => experience_timeline d' = experience_timeline d
  | SkillsContent => skills_content d' = skills_content d
  | CertificationsGrid => certifications_grid d' = certifications_grid d
  | ContactCards => contact_cards d' = contact_cards d
  | FooterSocial => footer_social d' = footer_social d
  end.

(** The selectors each render function writes through. *)
Definition written_by (key : string) : list container :=
  if String.eqb key "about" then [AboutBio]
  else if String.eqb key "projects" then [ProjectFilters; ProjectsGrid]
  else if String.eqb key "experience" then [ExperienceTimeline]
  else if String.eqb key "skills" then [SkillsContent]
  else if String.eqb key "certifications" then [CertificationsGrid]
  else if String.eqb key "contact" then [ContactCards; FooterSocial]
  else [].


(** The templates put the fields of a project into the markup as they
    are.  A text without double quote, ampersand, less-than sign, NUL and
    carriage return is read back by the HTML parser as it was written, from
    a double-quoted attribute value and from the content of an element, and
    brings no element of its own into the page. *)
Definition plain_char (c : ascii) : bool :=
  negb (Ascii.eqb c "034" || Ascii.eqb c "&" || Ascii.eqb c "<"
        || Ascii.eqb c "000" || Ascii.eqb c "013")%char.

Fixpoint plain_text (s : string) : bool :=
  match s with
  | EmptyString => true
  | String c s' => plain_char c && plain_text s'
  end.

(** Every field that the project card and the filter button interpolate. *)
Definition plain_project (p : Project) : bool :=
  plain_text (project_title p) && plain_text (project_company p)
  && from_option plain_text true (project_image p)
  && from_option plain_text true (project_demo p).

(** The page that renderProjectsSection leaves when it renders: a button
    per distinct company if the filter container is there, a card per
    project, and the cards filtered by the first button if there is one. *)
Definition rendered_projects (projects : list Project) (d : document) : document :=
  let buttons := imap filter_button (distinct (project_company <$> projects)) in
  let cards := marked_card <$> projects in
  match project_filters d, buttons with
  | Some _, first :: _ =>
      set_projects_grid (applyProjectFilter cards (btn_filter first))
        (set_project_filters buttons d)
  | Some _, [] => set_projects_grid cards (set_project_filters [] d)
  | None, _ => set_projects_grid cards d
  end.

(** Two pages with the same containers that differ at most inside the
    containers in [own]. *)
Definition same_frame (own : list container) (d d' : document) : Prop :=
  (∀ c, present c d' = present c d) ∧ (∀ c, c ∉ own → untouched c d d').

(** The request for [file] is rejected, or its answer is not ok. *)
Definition request_fails (net : network) (file : string) : Prop :=
  match net file with
  | Ok r => ok r = false
  | Raise _ => True
  end.

Section Init.
Context `{Host}.

(** init, on the containers of the page: the data is loaded and the
    components are rendered; the [catch] renders the fallback.  The
    performance marks and the scroll animations that init also starts write
    nothing into these containers; the browser is taken to have the
    Performance and IntersectionObserver interfaces they call, so they
    return.  A component whose data is not of the shape it reads stops the
    model ([None]). *)
Definition init (net : network) (cache : gmap string value) (d : document)
  : option (gmap string value * document) :=
  match loadAllData net cache with
  | Ok cache' => d' ← renderAllComponents cache' d; Some (cache', d')
  | Raise _ => Some (cache, renderFallbackContent d)
  end.
End Init.

End ComponentRenderer.

Module NavigationManager.

Record section := {
  section_id : string;
  offsetTop : Z;
  offsetHeight : Z
}.

Record nav_link := {
  href : string;
  link_active : bool        (* class navbar__link--active *)
}.

(** [navbar] is the height of the [.navbar] element, [None] when the page
    has none; lengths and the scroll offset are whole pixels. *)
Record state := {
  navbar : option Z;
  navLinks : list nav_link;
  sections : list section;
  currentSection : string;
  scrollY : Z
}.

Definition navbarHeight (st : state) : Z := default 70%Z (navbar st).

Definition scrollPosition (st : state) : Z := (scrollY st + navbarHeight st + 100)%Z.

Definition contains (pos : Z) (s : section) : bool :=
  ((offsetTop s <=? pos) && (pos <? offsetTop s + offsetHeight s))%Z.

(** The [forEach] over the sections, from the empty [activeSection]. *)
Definition next_active (pos : Z) (activeSection : string) (s : section) : string :=
  if contains pos s then section_id s else activeSection.

Definition find_active (pos : Z) (secs : list section) : string :=
  foldl (next_active pos) "" secs.

Definition mark_link (activeSection : string) (l : nav_link) : nav_link :=
  {| href := href l; link_active := String.eqb (href l) ("#" +:+ activeSection) |}.

Definition updateActiveNavLink (st : state) : state :=
  let activeSection := find_active (scrollPosition st) (sections st) in
  if negb (String.eqb activeSection (currentSection st)) then
    {| navbar := navbar st;
       navLinks := mark_link activeSection <$> navLinks st;
       sections := sections st;
       currentSection := activeSection;
       scrollY := scrollY st |}
  else st.

(** The window is scrolled to [y] and the scroll listener runs. *)
Definition scroll_to (st : state) (y : Z) : state :=
  updateActiveNavLink
    {| navbar := navbar st; navLinks := navLinks st; sections := sections st;
       currentSection := currentSection st; scrollY := y |}.

(** [new NavigationManager()] up to the first [handleScroll]. *)
Definition construct (bar : option Z) (links : list nav_link) (secs : list section) (y : Z)
  : state :=
  updateActiveNavLink
    {| navbar := bar; navLinks := links; sections := secs;
       currentSection := ""; scrollY := y |}.

(** The link classes say what [currentSection] says. *)
Definition links_agree (st : state) : Prop :=
  ∀ l, l ∈ navLinks st → link_active l = String.eqb (href l) ("#" +:+ currentSection st).

(** [active] is the id of the last section, in document order, whose
    interval holds [pos]; it is empty when no interval does. *)
Definition last_containing (pos : Z) (secs : list section) (active : string) : Prop :=
  (∃ before s after,
      secs = (before ++ s :: after)%list
      ∧ (offsetTop s ≤ pos < offsetTop s + offsetHeight s)%Z
      ∧ Forall (λ s', ¬ (offsetTop s' ≤ pos < offsetTop s' + offsetHeight s')%Z) after
      ∧ active = section_id s)
  ∨ (Forall (λ s', ¬ (offsetTop s' ≤ pos < offsetTop s' + offsetHeight s')%Z) secs
     ∧ active = "").

(** The links that carry the active class are those whose href is [target]. *)
Definition active_links_are (target : string) (links : list nav_link) : Prop :=
  ∀ l, l ∈ links → (link_active l = true ↔ href l = target).

(** The manager after construction and the given scroll positions. *)
Definition scroll_all (st : state) (ys : list Z) : state := foldl scroll_to st ys.


(** A page with two sections under a 70 pixel navbar, and one link each. *)
Definition sample_sections : list section :=
  [ {| section_id := "home"; offsetTop := 0; offsetHeight := 600 |};
    {| section_id := "about"; offsetTop := 600; offsetHeight := 800 |} ].

Definition sample_links : list nav_link :=
  [ {| href := "#home"; link_active := false |};
    {| href := "#about"; link_active := false |} ].

(** A page whose only section starts below the fold and whose link is marked
    active in the markup. *)
Definition stale_page : state :=
  {| navbar := None;
     navLinks := [ {| href := "#about"; link_active := true |} ];
     sections := [ {| section_id := "about"; offsetTop := 500; offsetHeight := 300 |} ];
     currentSection := "";
     scrollY := 0 |}.

(** *** The mobile menu *)

(** What toggleMobileMenu, closeMobileMenu and handleClickOutside read and
    write: whether [.navbar__menu] carries navbar__menu--active and
    [#mobile-menu-toggle] carries mobile-menu-toggle--active ([None] when
    the page has no such element), the overflow style of the body, and the
    click listeners these methods have put on the document.  A listener is
    known by the identity of its function object; every [bind] makes a new
    function object, numbered by [next_function]. *)
Record menu := {
  navMenu : option bool;
  mobileToggle : option bool;
  body_overflow : string;
  click_listeners : list nat;
  next_function : nat
}.

(** [addEventListener] ignores a listener that is already registered;
    [removeEventListener] removes the registered listener that is the same
    function object, if there is one. *)
Definition addEventListener (f : nat) (listeners : list nat) : list nat :=
  if bool_decide (f ∈ listeners) then listeners else (listeners ++ [f])%list.

Definition removeEventListener (f : nat) (listeners : list nat) : list nat :=
  List.filter (λ g, negb (Nat.eqb g f)) listeners.

Definition toggleMobileMenu (m : menu) : menu :=
  (* navMenu?.classList.contains(...): undefined, so falsy, without a menu *)
  let isActive := default false (navMenu m) in
  let bound := next_function m in
  {| navMenu := negb <$> navMenu m;
     mobileToggle := negb <$> mobileToggle m;
     body_overflow := if negb isActive then "hidden" else "";
     click_listeners :=
       if negb isActive then addEventListener bound (click_listeners m)
       else removeEventListener bound (click_listeners m);
     next_function := S bound |}.

Definition closeMobileMenu (m : menu) : menu :=
  let bound := next_function m in
  {| navMenu := (λ _, false) <$> navMenu m;
     mobileToggle := (λ _, false) <$> mobileToggle m;
     body_overflow := "";
     click_listeners := removeEventListener bound (click_listeners m);
     next_function := S bound |}.

(** handleClickOutside; [outside] says that the page has a [.navbar] and
    the click landed outside it. *)
Definition handleClickOutside (outside : bool) (m : menu) : menu :=
  if outside then closeMobileMenu m else m.

(** What happens to the menu: the toggle is pressed, the menu is closed (by
    a link or by the listener that bindEvents puts on the document), or one
    of the accumulated listeners sees a click. *)
Inductive menu_event : Type :=
  | PressToggle
  | CloseMenu
  | ClickSeen (outside : bool).

Definition menu_step (m : menu) (e : menu_event) : menu :=
  match e with
  | PressToggle => toggleMobileMenu m
  | CloseMenu => closeMobileMenu m
  | ClickSeen outside => handleClickOutside outside m
  end.

Definition menu_run (m : menu) (events : list menu_event) : menu := foldl menu_step m events.

(** The function objects in the listener list were made before now. *)
Definition listeners_known (m : menu) : Prop :=
  Forall (λ f, (f < next_function m)%nat) (click_listeners m).

(** The toggles among [events] that find the menu closed, from [m] on. *)
Fixpoint openings (m : menu) (events : list menu_event) : nat :=
  match events with
  | [] => 0
  | e :: rest =>
      (match e with
       | PressToggle => if default false (navMenu m) then 0 else 1
       | _ => 0
       end + openings (menu_step m e) rest)%nat
  end.

(** A page whose menu is closed, before any listener was added. *)
Definition closed_menu : menu :=
  {| navMenu := Some false; mobileToggle := Some false; body_overflow := "";
     click_listeners := []; next_function := 0 |}.

(** *** Scrolling to a section *)

Section Scrolling.
(** [document.querySelector], which the browser supplies: for a selector
    it gives the [offsetTop] of the first element of the page that matches,
    [None] when none does, and it throws when the text is no selector. *)
Variable querySelector : string → outcome (option Z).

(** scrollToSection: the [top] it hands to [window.scrollTo], [None] when
    it finds no element and does not scroll. *)
Definition scrollToSection (sectionId : string) (st : state) : outcome (option Z) :=
  section ← querySelector ("#" +:+ sectionId);
  match section with
  | Some top => Ok (Some (top - navbarHeight st)%Z)
  | None => Ok None
  end.

(** The click listener of a navigation link: the position it asks for.
    Only links to a fragment scroll. *)
Definition click_link (l : nav_link) (st : state) : outcome (option Z) :=
  if String.prefix "#" (href l) then
    scrollToSection (String.substring 1 (String.length (href l) - 1) (href l)) st
  else Ok None.
End Scrolling.

(** The selector lookup of a page whose only elements with an id are the
    sample sections. *)
Definition sample_querySelector (selector : string) : outcome (option Z) :=
  if String.eqb selector "#home" then Ok (Some 0%Z)
  else if String.eqb selector "#about" then Ok (Some 600%Z)
  else if String.eqb selector "#" then Raise SyntaxError
  else Ok None.

End NavigationManager.

Module ContactFormManager.
Import Utils.

(** An input or textarea of the form.  [minLength] is the DOM property:
    the declared minimum, or -1 when none is declared.  [parent] names the
    element the field sits in, which is where its error message goes. *)
Record field := {
  name : string;
  type : string;
  required : bool;
  minLength : Z;
  value : text;
  defaultValue : text;
  input_error : bool;       (* class form__input--error *)
  parent : nat
}.

Inductive effect : Type :=
  | SetLoading (loading : bool)
  | SubmitForm (data : gmap string text)
  | ShowNotification (message kind : string).

(** The form: its fields in document order, the [.form__error] elements
    under each parent in document order, and what has been done so far. *)
Record state := {
  fields : list field;
  errors : gmap nat (list string);
  effects : list effect
}.

(** A number used as a condition. *)
Definition truthy_number (z : Z) : bool := negb (z =? 0)%Z.

Definition nonempty (s : text) : bool :=
  match s with [] => false | _ => true end.

(** The three checks of validateField, run in order on the pair
    [(isValid, errorMessage)]. *)
Definition check_field (f : field) : bool * string :=
  let value := trim (value f) in
  let r := (true, "") in
  let r := if required f && negb (nonempty value)
           then (false, "This field is required.") else r in
  let r := if String.eqb (type f) "email" && nonempty value && negb (isValidEmail value)
           then (false, "Please enter a valid email address.") else r in
  let r := if nonempty value && truthy_number (minLength f)
              && (Z.of_nat (length value) <? minLength f)%Z
           then (false, "Minimum " +:+ pretty (minLength f) +:+ " characters required.")
           else r in
  r.

Definition set_input_error (b : bool) (f : field) : field :=
  {| name := name f; type := type f; required := required f; minLength := minLength f;
     value := value f; defaultValue := defaultValue f; input_error := b;
     parent := parent f |}.

Definition clearFieldError (i : nat) (st : state) : state :=
  match fields st !! i with
  | None => st
  | Some f =>
      {| fields := <[i := set_input_error false f]> (fields st);
         errors := <[parent f := tail (default [] (errors st !! parent f))]> (errors st);
         effects := effects st |}
  end.

Definition showFieldError (i : nat) (message : string) (st : state) : state :=
  let st := clearFieldError i st in
  if negb (String.eqb message "") then
    match fields st !! i with
    | None => st
    | Some f =>
        {| fields := <[i := set_input_error true f]> (fields st);
           errors := <[parent f := (default [] (errors st !! parent f) ++ [message])%list]>
                       (errors st);
           effects := effects st |}
    end
  else st.

(** validateField on the field at index [i]. *)
Definition validateField (i : nat) (st : state) : option (bool * state) :=
  f ← fields st !! i;
  let '(isValid, errorMessage) := check_field f in
  Some (isValid, showFieldError i (if isValid then "" else errorMessage) st).

(** The [forEach] of validateForm over the indices of the required fields. *)
Fixpoint validate_each (indices : list nat) (isValid : bool) (st : state)
  : option (bool * state) :=
  match indices with
  | [] => Some (isValid, st)
  | i :: rest =>
      r ← validateField i st;
      validate_each rest (if negb r.1 then false else isValid) r.2
  end.

(** The positions matched by [input[required], textarea[required]]. *)
Definition required_indices (fs : list field) : list nat :=
  (imap (λ i f, (i, f)) fs) ≫= (λ p, if required p.2 then [p.1] else []).

Definition validateForm (st : state) : option (bool * state) :=
  validate_each (required_indices (fields st)) true st.

(** [Object.fromEntries(new FormData(form))]: the named fields, a later
    field of the same name overriding an earlier one. *)
Definition formData (fs : list field) : gmap string text :=
  list_to_map (rev ((λ f, (name f, value f)) <$>
                      List.filter (λ f, negb (String.eqb (name f) "")) fs)).

Definition reset_field (f : field) : field :=
  {| name := name f; type := type f; required := required f; minLength := minLength f;
     value := defaultValue f; defaultValue := defaultValue f;
     input_error := input_error f; parent := parent f |}.

(** handleSubmit, with the two-second wait of submitForm collapsed: the
    simulated request always resolves. *)
Definition handleSubmit (st : state) : option state :=
  r ← validateForm st;
  let st := r.2 in
  if negb r.1 then Some st
  else
    let data := formData (fields st) in
    Some {| fields := reset_field <$> fields st;
            errors := errors st;
            effects := (effects st ++
              [ SetLoading true; SubmitForm data;
                ShowNotification "Message sent successfully!" "success";
                SetLoading false ])%list |}.

Definition is_submission (e : effect) : bool :=
  match e with SubmitForm _ => true | _ => false end.

(** The DOM reports -1 for a field without a [minlength] attribute. *)
Definition declares_minLength (f : field) : Prop := (0 ≤ minLength f)%Z.

(** The three grounds on which a field is turned down. *)
Definition required_but_empty (f : field) : Prop :=
  required f = true ∧ trim (value f) = [].

Definition bad_email (f : field) : Prop :=
  type f = "email" ∧ trim (value f) ≠ [] ∧ isValidEmail (trim (value f)) = false.

Definition too_short (f : field) : Prop :=
  trim (value f) ≠ [] ∧ declares_minLength f
  ∧ (Z.of_nat (length (trim (value f))) < minLength f)%Z.

Definition rejected (f : field) : Prop :=
  required_but_empty f ∨ bad_email f ∨ too_short f.

(** The fields agree on everything but the error class. *)
Definition same_inputs (fs fs' : list field) : Prop :=
  set_input_error false <$> fs = set_input_error false <$> fs'.


(** What validateField answers for the field at an index. *)
Definition valid_at (fs : list field) (i : nat) : bool :=
  match fs !! i with
  | Some f => (check_field f).1
  | None => true
  end.


(** A contact form: a required name left blank, a required address and a
    required message that must have ten characters. *)
Definition sample_field (field_name field_type : string) (minimum : Z) (v : text)
    (group : nat) : field :=
  {| name := field_name; type := field_type; required := true; minLength := minimum;
     value := v; defaultValue := []; input_error := false; parent := group |}.

Definition sample_form (address message : text) : state :=
  {| fields := [ sample_field "name" "text" (-1) [32; 32]%N 0;
                 sample_field "email" "email" (-1) address 1;
                 sample_field "message" "textarea" 10 message 2 ];
     errors := ∅;
     effects := [] |}.


(** No parent element holds more than one error message. *)
Definition tidy (st : state) : Prop :=
  map_Forall (λ _ messages, (length messages ≤ 1)%nat) (errors st).

(** The messages under the parent of a field. *)
Definition messages_of (st : state) (f : field) : list string :=
  default [] (errors st !! parent f).


(** The contact form filled in: a name, an address, a message and a phone
    number that is not required. *)
Definition sample_filled_form : state :=
  {| fields := [ sample_field "name" "text" (-1) [65; 100; 97]%N 0;
                 sample_field "email" "email" (-1) [97; 64; 98; 46; 99]%N 1;
                 sample_field "message" "textarea" 10
                   [72; 101; 108; 108; 111; 32; 116; 104; 101; 114; 101]%N 2;
                 {| name := "phone"; type := "tel"; required := false; minLength := -1;
                    value := []; defaultValue := []; input_error := false; parent := 3 |} ];
     errors := ∅;
     effects := [] |}.

End ContactFormManager.

(** ** A host to run the scripts on

    A compact JSON codec (no white space between tokens, integral numbers,
    no unicode escapes) and two storages: one that takes every write and one
    that is full. *)

(** ** main.js: PortfolioApp *)

Module PortfolioApp.

(** *** waitForComponents *)

Definition maxWaitTime : N := 10000.
Definition checkInterval : N := 100.

(** How the promise of waitForComponents settles, and at which check
    (counted from 0). *)
Inductive settled : Type :=
  | Resolved (check : nat)
  | Rejected (check : nat).

(** checkComponents, rescheduled by its own timer.  [ready n] says whether
    [window.navigationManager && window.componentRenderer] is truthy at the
    check number [n]; [waited] is the closure's counter.  [fuel] bounds the
    number of checks. *)
Fixpoint checkComponents (fuel : nat) (ready : nat → bool) (waited : N) (check : nat)
  : option settled :=
  match fuel with
  | O => None
  | S fuel' =>
      if ready check then Some (Resolved check)
      else if (maxWaitTime <=? waited)%N then Some (Rejected check)
      else checkComponents fuel' ready (waited + checkInterval)%N (S check)
  end.

Definition waitForComponents (fuel : nat) (ready : nat → bool) : option settled :=
  checkComponents fuel ready 0%N 0.

(** *** Keyboard shortcuts *)

(** The fields of a keydown event that the listeners read. *)
Record key_event := {
  ctrlKey : bool;
  metaKey : bool;
  shiftKey : bool;
  altKey : bool;
  key : string
}.

(** What a shortcut does. *)
Inductive action : Type :=
  | ScrollToElement (selector : string) (offset : Z)
  | ToggleTheme
  | ShowDebugInfo.

(** The own properties of the [shortcuts] table. *)
Definition shortcuts (k : string) : option action :=
  if String.eqb k "h" then Some (ScrollToElement "#home" 70)
  else if String.eqb k "a" then Some (ScrollToElement "#about" 70)
  else if String.eqb k "p" then Some (ScrollToElement "#projects" 70)
  else if String.eqb k "e" then Some (ScrollToElement "#experience" 70)
  else if String.eqb k "s" then Some (ScrollToElement "#skills" 70)
  else if String.eqb k "c" then Some (ScrollToElement "#contact" 70)
  else if String.eqb k "ctrl+shift+t" then Some ToggleTheme
  else if String.eqb k "ctrl+shift+d" then Some ShowDebugInfo
  else None.

(** [parts.join('+')] *)
Fixpoint join_plus (parts : list string) : string :=
  match parts with
  | [] => ""
  | [x] => x
  | x :: rest => x +:+ "+" +:+ join_plus rest
  end.

Section Shortcuts.
(** [String.prototype.toLowerCase], which the browser supplies. *)
Variable toLowerCase : string → string.

Definition getShortcutKey (event : key_event) : string :=
  let modifiers :=
    ((if ctrlKey event || metaKey event then ["ctrl"] else [])
     ++ (if shiftKey event then ["shift"] else [])
     ++ (if altKey event then ["alt"] else []))%list in
  let key := toLowerCase (key event) in
  if (0 <? length modifiers)%nat then join_plus modifiers +:+ "+" +:+ key else key.

(** The keydown listener of initKeyboardShortcuts: the action it runs, if
    any.  [inputFocused] is what isInputFocused returns. *)
Definition shortcut_action (inputFocused : bool) (e : key_event) : option action :=
  match shortcuts (getShortcutKey e) with
  | Some act => if negb inputFocused then Some act else None
  | None => None
  end.

(** The condition of the keydown listener that ThemeManager binds. *)
Definition theme_shortcut (e : key_event) : bool :=
  (ctrlKey e || metaKey e) && shiftKey e && String.eqb (key e) "T".

Context `{Host}.

(** A keydown event on the document, as the theme sees it: the listener of
    ThemeManager, bound when the manager is constructed, then the listener
    of PortfolioApp, bound once the application has initialized; both
    reach the one manager in [window.themeManager]. *)
Definition keydown (inputFocused : bool) (e : key_event) (st : ThemeManager.state)
  : outcome ThemeManager.state :=
  st1 ← (if theme_shortcut e then ThemeManager.toggleTheme st else Ok st);
  match shortcut_action inputFocused e with
  | Some ToggleTheme => ThemeManager.toggleTheme st1
  | _ => Ok st1
  end.
End Shortcuts.

End PortfolioApp.

Module SampleHost.

Definition dquote : ascii := "034"%char.
Definition backslash : ascii := "092"%char.

Fixpoint escape (s : string) : string :=
  match s with
  | EmptyString => EmptyString
  | String c s' =>
      if Ascii.eqb c dquote then String backslash (String dquote (escape s'))
      else if Ascii.eqb c backslash then String backslash (String backslash (escape s'))
      else if Ascii.eqb c "010"%char then String backslash (String "n" (escape s'))
      else String c (escape s')
  end.

Definition quote (s : string) : string :=
  String dquote (escape s +:+ String dquote EmptyString).

Definition join (sep : string) (parts : list string) : string :=
  match parts with
  | [] => ""
  | p :: ps => foldl (λ acc q, acc +:+ sep +:+ q) p ps
  end.

(** The text of a value inside an array or object; [undefined] members
    print as null in arrays and are dropped from objects. *)
Fixpoint print (v : value) : string :=
  match v with
  | VUndefined | VNull => "null"
  | VBool true => "true"
  | VBool false => "false"
  | VNum z => pretty z
  | VStr s => quote s
  | VArr items => "[" +:+ join "," (print <$> items) +:+ "]"
  | VObj props =>
      "{" +:+ join "," (concat ((λ p, match p with
                                      | (_, VUndefined) => []
                                      | (k, x) => [quote k +:+ ":" +:+ print x]
                                      end) <$> props)) +:+ "}"
  end.

Definition stringify (v : value) : option string :=
  match v with
  | VUndefined => None
  | _ => Some (print v)
  end.

Definition is_digit (c : ascii) : bool :=
  (48 <=? nat_of_ascii c)%nat && (nat_of_ascii c <=? 57)%nat.

Fixpoint read_digits (acc : Z) (s : string) : Z * string :=
  match s with
  | String c s' =>
      if is_digit c then read_digits (10 * acc + Z.of_nat (nat_of_ascii c - 48))%Z s'
      else (acc, s)
  | EmptyString => (acc, s)
  end.

(** The characters of a string literal after its opening quote. *)
Fixpoint read_string (s : string) : option (string * string) :=
  match s with
  | EmptyString => None
  | String c s' =>
      if Ascii.eqb c dquote then Some (EmptyString, s')
      else if Ascii.eqb c backslash then
        match s' with
        | String e s'' =>
            r ← read_string s'';
            if Ascii.eqb e "n"%char then Some (String "010"%char r.1, r.2)
            else if Ascii.eqb e dquote || Ascii.eqb e backslash || Ascii.eqb e "/"%char
            then Some (String e r.1, r.2)
            else None
        | EmptyString => None
        end
      else r ← read_string s'; Some (String c r.1, r.2)
  end.

Fixpoint read_value (fuel : nat) (s : string) : option (value * string) :=
  match fuel with
  | O => None
  | S fuel' =>
      match s with
      | String "n" (String "u" (String "l" (String "l" rest))) => Some (VNull, rest)
      | String "t" (String "r" (String "u" (String "e" rest))) => Some (VBool true, rest)
      | String "f" (String "a" (String "l" (String "s" (String "e" rest)))) =>
          Some (VBool false, rest)
      | String "[" (String "]" rest) => Some (VArr [], rest)
      | String "[" rest =>
          r ← read_items fuel' rest; Some (VArr r.1, r.2)
      | String "{" (String "}" rest) => Some (VObj [], rest)
      | String "{" rest =>
          r ← read_members fuel' rest; Some (VObj r.1, r.2)
      | String "-" (String c rest) =>
          if is_digit c then
            let r := read_digits 0 (String c rest) in Some (VNum (- r.1), r.2)
          else None
      | String c rest =>
          if Ascii.eqb c dquote then
            r ← read_string rest; Some (VStr r.1, r.2)
          else if is_digit c then
            let r := read_digits 0 s in Some (VNum r.1, r.2)
          else None
      | EmptyString => None
      end
  end
with read_items (fuel : nat) (s : string) : option (list value * string) :=
  match fuel with
  | O => None
  | S fuel' =>
      r ← read_value fuel' s;
      match r.2 with
      | String "," rest => rs ← read_items fuel' rest; Some (r.1 :: rs.1, rs.2)
      | String "]" rest => Some ([r.1], rest)
      | _ => None
      end
  end
with read_members (fuel : nat) (s : string) : option (list (string * value) * string) :=
  match fuel with
  | O => None
  | S fuel' =>
      match s with
      | String c rest =>
          if Ascii.eqb c dquote then
            k ← read_string rest;
            match k.2 with
            | String ":" rest' =>
                r ← read_value fuel' rest';
                match r.2 with
                | String "," rest'' =>
                    rs ← read_members fuel' rest''; Some ((k.1, r.1) :: rs.1, rs.2)
                | String "}" rest'' => Some ([(k.1, r.1)], rest'')
                | _ => None
                end
            | _ => None
            end
          else None
      | EmptyString => None
      end
  end.

Definition parse (s : string) : outcome value :=
  match read_value (S (String.length s)) s with
  | Some (v, EmptyString) => Ok v
  | _ => Raise SyntaxError
  end.

Fixpoint to_string (v : value) : string :=
  match v with
  | VUndefined => "undefined"
  | VNull => "null"
  | VBool true => "true"
  | VBool false => "false"
  | VNum z => pretty z
  | VStr s => s
  | VArr items =>
      join "," ((λ x, match x with VUndefined | VNull => "" | _ => to_string x end) <$> items)
  | VObj _ => "[object Object]"
  end.

(** A browser whose storage takes every write. *)
Definition browser : Host :=
  {| JSON_stringify := stringify; JSON_parse := parse; ToString := to_string;
     storage_accepts := λ _ _ _, true |}.

(** The same browser with its storage full. *)
Definition full_browser : Host :=
  {| JSON_stringify := stringify; JSON_parse := parse; ToString := to_string;
     storage_accepts := λ _ _ _, false |}.

(** Project data as the site's projects file holds it. *)
Definition sample_projects : value :=
  VArr [ VObj [("title", VStr "Shop"); ("company", VStr "Acme");
               ("image", VStr "shop.png"); ("demo", VStr "https://shop.example")];
         VObj [("title", VStr "Bank"); ("company", VStr "Globex")];
         VObj [("title", VStr "Blog"); ("company", VStr "Acme"); ("image", VStr "")] ].

Definition sample_contacts : value :=
  VArr [ VObj [("title", VStr "Email"); ("link", VStr "mailto:me@example.com");
               ("icon", VStr "fas fa-envelope")];
         VObj [("title", VStr "GitHub"); ("link", VStr "https://github.com/me");
               ("icon", VStr "fab fa-github")];
         VObj [("title", VStr "LinkedIn"); ("link", VStr "https://linkedin.com/in/me");
               ("icon", VStr "fab fa-linkedin")] ].

(** A network on which the projects and contact files arrive, the about
    file is missing, the experience request is rejected, the skills file
    is cut short and the certifications file holds null. *)
Definition sample_network : network := λ url,
  if String.eqb url "assets/data/projects.json"
  then Ok {| ok := true; status := 200; body := print sample_projects |}
  else if String.eqb url "assets/data/contact.json"
  then Ok {| ok := true; status := 200; body := print sample_contacts |}
  else if String.eqb url "assets/data/about.json"
  then Ok {| ok := false; status := 404; body := "Not Found" |}
  else if String.eqb url "assets/data/skills.json"
  then Ok {| ok := true; status := 200; body := "[{" |}
  else if String.eqb url "assets/data/certifications.json"
  then Ok {| ok := true; status := 200; body := "null" |}
  else Raise NetworkError.

(** A page with every container present and empty. *)
Definition blank_page : document :=
  {| about_bio := Some []; project_filters := Some []; projects_grid := Some [];
     experience_timeline := Some []; skills_content := Some [];
     certifications_grid := Some []; contact_cards := Some []; footer_social := Some [] |}.

(** The projects of [sample_projects] as the render functions read them. *)
Definition sample_project_list : list Project :=
  [ {| project_title := "Shop"; project_company := "Acme";
       project_image := Some "shop.png"; project_demo := Some "https://shop.example" |};
    {| project_title := "Bank"; project_company := "Globex";
       project_image := None; project_demo := None |};
    {| project_title := "Blog"; project_company := "Acme";
       project_image := None; project_demo := None |} ].

(** The cache once [sample_projects] has arrived. *)
Definition sample_cache : gmap string value := {["projects" := sample_projects]}.

(** A network on which every request is rejected. *)
Definition offline : network := λ _, Raise NetworkError.


(** [toLowerCase] on the letters A to Z. *)
Definition lower_ascii (c : ascii) : ascii :=
  let n := nat_of_ascii c in
  if ((65 <=? n) && (n <=? 90))%nat then ascii_of_nat (n + 32) else c.

Fixpoint to_lower (s : string) : string :=
  match s with
  | EmptyString => EmptyString
  | String c s' => String (lower_ascii c) (to_lower s')
  end.

(** Ctrl+Shift+T as the browser reports it. *)
Definition ctrl_shift_T : PortfolioApp.key_event :=
  {| PortfolioApp.ctrlKey := true; PortfolioApp.metaKey := false;
     PortfolioApp.shiftKey := true; PortfolioApp.altKey := false;
     PortfolioApp.key := "T" |}.

End SampleHost.

(** * Properties *)

(** ** Utils.storage *)

Section Storage.
Context `{Host}.
Implicit Types (ls : gmap string string) (key : string) (v : value).

Lemma storage_get_returns ls key : ∃ r, Utils.storage_get ls key = Ok r.
Proof.
  unfold Utils.storage_get, try_catch.
  destruct (Utils.parse_item _); eauto.
Qed.

Lemma storage_get_stored ls key s v :
  ls !! key = Some s → JSON_parse s = Ok v → Utils.storage_get ls key = Ok v.
Proof.
  intros Hs Hp. unfold Utils.storage_get, Utils.parse_item, Utils.localStorage_getItem.
  rewrite Hs. simpl. by rewrite Hp.
Qed.

Lemma storage_set_cases ls key v :
  Utils.storage_set ls key v =
    if storage_accepts ls key (Utils.stringify_item v)
    then Ok (true, <[key := Utils.stringify_item v]> ls)
    else Ok (false, ls).
Proof.
  unfold Utils.storage_set, Utils.localStorage_setItem.
  by destruct (storage_accepts _ _ _).
Qed.

Lemma storage_set_true ls ls' key v :
  Utils.storage_set ls key v = Ok (true, ls') →
  ls' = <[key := Utils.stringify_item v]> ls.
Proof.
  rewrite storage_set_cases. destruct (storage_accepts _ _ _); congruence.
Qed.

Lemma storage_set_get ls ls' key v :
  json_serializable v →
  Utils.storage_set ls key v = Ok (true, ls') →
  Utils.storage_get ls' key = Ok v.
Proof.
  intros (s & Hs & Hp) Hset. apply storage_set_true in Hset as ->.
  apply storage_get_stored with s; [|done].
  unfold Utils.stringify_item. rewrite Hs. apply lookup_insert_eq.
Qed.
End Storage.

(** C9.  [storage.set] followed by [storage.get] gives back a value that is
    JSON-serializable; [storage.get] always returns, with null when nothing
    is stored under the key or when what is stored does not parse;
    [storage.set] always returns, with false and an untouched store when the
    write is refused. *)
Theorem storage_round_trip `{Host} (ls : gmap string string) (key : string) (v : value) :
  (∀ ls', json_serializable v →
          Utils.storage_set ls key v = Ok (true, ls') →
          Utils.storage_get ls' key = Ok v)
  ∧ (∃ r, Utils.storage_get ls key = Ok r)
  ∧ (ls !! key = None → JSON_parse "null" = Ok VNull →
     Utils.storage_get ls key = Ok VNull)
  ∧ (∀ s e, ls !! key = Some s → JSON_parse s = Raise e →
            Utils.storage_get ls key = Ok VNull)
  ∧ (∃ r, Utils.storage_set ls key v = Ok r)
  ∧ (Utils.localStorage_setItem ls key (Utils.stringify_item v) = Raise QuotaExceededError →
     Utils.storage_set ls key v = Ok (false, ls)).
Proof.
  split_and!.
  - intros ls'. apply storage_set_get.
  - apply storage_get_returns.
  - intros Hnone Hnull.
    unfold Utils.storage_get, Utils.parse_item, Utils.localStorage_getItem.
    rewrite Hnone. simpl. by rewrite Hnull.
  - intros s e Hs Hp.
    unfold Utils.storage_get, Utils.parse_item, Utils.localStorage_getItem.
    rewrite Hs. simpl. by rewrite Hp.
  - rewrite storage_set_cases. destruct (storage_accepts _ _ _); eauto.
  - intros Hthrow. unfold Utils.storage_set. by rewrite Hthrow.
Qed.

(** The round trip on the sample browser, for the theme the site stores. *)
Lemma storage_round_trip_witness :
  @Utils.storage_get SampleHost.browser
    (<["portfolio-theme" := @Utils.stringify_item SampleHost.browser (VStr "dark")]> ∅)
    "portfolio-theme" = Ok (VStr "dark")
  ∧ @Utils.storage_get SampleHost.browser ∅ "portfolio-theme" = Ok VNull
  ∧ @Utils.storage_get SampleHost.browser {["portfolio-theme" := "{oops"]} "portfolio-theme"
    = Ok VNull
  ∧ @Utils.storage_set SampleHost.full_browser ∅ "portfolio-theme" (VStr "dark") = Ok (false, ∅).
Proof.
  split_and!.
  - apply (proj1 (@storage_round_trip SampleHost.browser ∅ "portfolio-theme" (VStr "dark"))).
    + exists (SampleHost.quote "dark"). split; reflexivity.
    + reflexivity.
  - apply (proj1 (proj2 (proj2
      (@storage_round_trip SampleHost.browser ∅ "portfolio-theme" VNull)))); reflexivity.
  - apply (proj1 (proj2 (proj2 (proj2
      (@storage_round_trip SampleHost.browser {["portfolio-theme" := "{oops"]}
         "portfolio-theme" VNull)))) "{oops" SyntaxError); reflexivity.
  - apply (proj2 (proj2 (proj2 (proj2 (proj2
      (@storage_round_trip SampleHost.full_browser ∅ "portfolio-theme" (VStr "dark"))))))).
    reflexivity.
Defined.

(** ** Utils.fetchData and ComponentRenderer.loadAllData *)

Section Fetch.
Context `{Host}.
Implicit Types (net : network) (cache : gmap string value).

Lemma fetchData_returns net url : ∃ v, Utils.fetchData net url = Ok v.
Proof.
  unfold Utils.fetchData, try_catch.
  destruct (_ ≫= _); eauto.
Qed.

Lemma load_file_spec net file cache :
  ∃ data, Utils.fetchData net file = Ok data
    ∧ ComponentRenderer.load_file net file cache =
        Ok (if truthy data then <[ComponentRenderer.cache_key file := data]> cache else cache).
Proof.
  destruct (fetchData_returns net file) as [data Hd]. exists data. split; [done|].
  unfold ComponentRenderer.load_file. rewrite Hd. simpl. by destruct (truthy data).
Qed.

Lemma load_files_spec net files cache :
  NoDup (ComponentRenderer.cache_key <$> files) →
  ∃ cache', ComponentRenderer.load_files net files cache = Ok cache'
    ∧ (∀ k, k ∉ ComponentRenderer.cache_key <$> files → cache' !! k = cache !! k)
    ∧ (∀ file, file ∈ files →
         ∃ data, Utils.fetchData net file = Ok data
           ∧ cache' !! ComponentRenderer.cache_key file =
               if truthy data then Some data else cache !! ComponentRenderer.cache_key file).
Proof.
  revert cache. induction files as [|file files IH]; intros cache Hnd.
  - exists cache. split_and!; [done|done|]. intros file Hin. by apply elem_of_nil in Hin.
  - rewrite fmap_cons in Hnd. apply NoDup_cons in Hnd as [Hfresh Hnd].
    destruct (load_file_spec net file cache) as (data & Hdata & Hload).
    set (cache1 := if truthy data then _ else cache) in Hload.
    destruct (IH cache1 Hnd) as (cache' & Hrun & Hout & Hin).
    exists cache'. split_and!.
    + simpl. rewrite Hload. exact Hrun.
    + intros k Hk. rewrite fmap_cons in Hk. apply not_elem_of_cons in Hk as [Hne Hk].
      rewrite (Hout k Hk). unfold cache1. destruct (truthy data); [|done].
      by rewrite lookup_insert_ne.
    + intros file' Hfile'. apply elem_of_cons in Hfile' as [->|Hfile'].
      * exists data. split; [done|]. rewrite (Hout _ Hfresh). unfold cache1.
        destruct (truthy data); [|done]. apply lookup_insert_eq.
      * destruct (Hin file' Hfile') as (data' & Hdata' & Hlook).
        exists data'. split; [done|]. rewrite Hlook.
        destruct (truthy data'); [done|]. unfold cache1.
        destruct (truthy data); [|done]. rewrite lookup_insert_ne; [done|].
        intros Heq. apply Hfresh. rewrite Heq. by apply list_elem_of_fmap_2.
Qed.

Lemma truthy_not_null (v : value) : truthy v = true → v ≠ VNull.
Proof. by intros Ht ->. Qed.
End Fetch.

(** C4.  [fetchData] always returns: the parsed body when the response is
    ok and its body parses, null when the response is not ok, when the
    request is rejected, or when the body does not parse.  [loadAllData]
    returns too; it stores the payload of a file under the file's key exactly
    when that payload is truthy, and leaves the key alone otherwise, so an
    entry that it adds is the non-null result of its fetch. *)
Theorem fetchData_never_throws `{Host} (net : network) (url : string)
    (cache : gmap string value) :
  (∃ v, Utils.fetchData net url = Ok v)
  ∧ (∀ r v, net url = Ok r → ok r = true → JSON_parse (body r) = Ok v →
            Utils.fetchData net url = Ok v)
  ∧ (∀ r, net url = Ok r → ok r = false → Utils.fetchData net url = Ok VNull)
  ∧ (∀ e, net url = Raise e → Utils.fetchData net url = Ok VNull)
  ∧ (∀ r e, net url = Ok r → ok r = true → JSON_parse (body r) = Raise e →
            Utils.fetchData net url = Ok VNull)
  ∧ (∃ cache', ComponentRenderer.loadAllData net cache = Ok cache'
       ∧ (∀ file, file ∈ ComponentRenderer.dataFiles →
            ∃ data, Utils.fetchData net file = Ok data
              ∧ cache' !! ComponentRenderer.cache_key file =
                  (if truthy data then Some data
                   else cache !! ComponentRenderer.cache_key file))
       ∧ (∀ file entry, file ∈ ComponentRenderer.dataFiles →
            cache !! ComponentRenderer.cache_key file = None →
            cache' !! ComponentRenderer.cache_key file = Some entry →
            Utils.fetchData net file = Ok entry ∧ entry ≠ VNull)
       ∧ (∀ k, k ∉ ComponentRenderer.cache_key <$> ComponentRenderer.dataFiles →
            cache' !! k = cache !! k)).
Proof.
  split_and!.
  - apply fetchData_returns.
  - intros r v Hr Hok Hp. unfold Utils.fetchData, Utils.response_json.
    rewrite Hr. simpl. rewrite Hok. simpl. by rewrite Hp.
  - intros r Hr Hok. unfold Utils.fetchData. rewrite Hr. simpl. by rewrite Hok.
  - intros e Hr. unfold Utils.fetchData. by rewrite Hr.
  - intros r e Hr Hok Hp. unfold Utils.fetchData, Utils.response_json.
    rewrite Hr. simpl. rewrite Hok. simpl. by rewrite Hp.
  - destruct (load_files_spec net ComponentRenderer.dataFiles cache)
      as (cache' & Hrun & Hout & Hin).
    { apply (bool_decide_unpack _). vm_compute. exact I. }
    exists cache'. split_and!; [exact Hrun|exact Hin| |exact Hout].
    intros file entry Hfile Hnone Hsome.
    destruct (Hin file Hfile) as (data & Hdata & Hlook).
    rewrite Hlook, Hnone in Hsome. destruct (truthy data) eqn:Ht; [|done].
    injection Hsome as <-. split; [done|]. by apply truthy_not_null.
Qed.

(** The six requests on the sample network: two payloads are cached, the
    four failures leave no entry. *)
Lemma fetchData_never_throws_witness :
  @Utils.fetchData SampleHost.browser SampleHost.sample_network "assets/data/projects.json"
    = Ok SampleHost.sample_projects
  ∧ @Utils.fetchData SampleHost.browser SampleHost.sample_network "assets/data/about.json"
    = Ok VNull
  ∧ @Utils.fetchData SampleHost.browser SampleHost.sample_network "assets/data/experience.json"
    = Ok VNull
  ∧ @Utils.fetchData SampleHost.browser SampleHost.sample_network "assets/data/skills.json"
    = Ok VNull
  ∧ @ComponentRenderer.loadAllData SampleHost.browser SampleHost.sample_network ∅
    = Ok (<["contact" := SampleHost.sample_contacts]>
            (<["projects" := SampleHost.sample_projects]> ∅)).
Proof.
  split_and!.
  - apply (proj1 (proj2 (@fetchData_never_throws SampleHost.browser
      SampleHost.sample_network "assets/data/projects.json" ∅))
      {| ok := true; status := 200; body := SampleHost.print SampleHost.sample_projects |});
      reflexivity.
  - apply (proj1 (proj2 (proj2 (@fetchData_never_throws SampleHost.browser
      SampleHost.sample_network "assets/data/about.json" ∅)))
      {| ok := false; status := 404; body := "Not Found" |}); reflexivity.
  - apply (proj1 (proj2 (proj2 (proj2 (@fetchData_never_throws SampleHost.browser
      SampleHost.sample_network "assets/data/experience.json" ∅)))) NetworkError); reflexivity.
  - apply (proj1 (proj2 (proj2 (proj2 (proj2 (@fetchData_never_throws SampleHost.browser
      SampleHost.sample_network "assets/data/skills.json" ∅)))))
      {| ok := true; status := 200; body := "[{" |} SyntaxError); reflexivity.
  - vm_compute. reflexivity.
Defined.

(** ** ThemeManager *)

Section Theme.
Context `{Host}.
Import ThemeManager.
Implicit Types (st : state) (theme : value).

Lemma is_theme_spec theme : is_theme theme = true ↔ light_or_dark theme.
Proof.
  unfold is_theme, light_or_dark, is_str. split.
  - destruct theme; try discriminate. intros Hs.
    apply orb_true_iff in Hs as [Hs|Hs]; apply String.eqb_eq in Hs; subst; auto.
  - by intros [-> | ->].
Qed.

Lemma applyTheme_returns theme st :
  ∃ flag ls',
    Utils.storage_set (localStorage st) themeKey theme = Ok (flag, ls')
    ∧ applyTheme theme st =
        Ok {| currentTheme := theme; data_theme := Some (ToString theme);
              localStorage := ls'; prefers_dark := prefers_dark st |}.
Proof.
  unfold applyTheme. rewrite storage_set_cases.
  destruct (storage_accepts _ _ _); eexists _, _; split; reflexivity.
Qed.

Lemma applyTheme_stored theme st :
  (∀ ls k s, storage_accepts ls k s = true) →
  json_serializable theme →
  ∃ st', applyTheme theme st = Ok st'
    ∧ currentTheme st' = theme
    ∧ getStoredTheme st' = Ok theme
    ∧ prefers_dark st' = prefers_dark st.
Proof.
  intros Hw Hser.
  destruct (applyTheme_returns theme st) as (flag & ls' & Hset & Happ).
  rewrite storage_set_cases, Hw in Hset. injection Hset as <- <-.
  eexists. split; [exact Happ|]. split_and!; [done| |done].
  unfold getStoredTheme. simpl. eapply storage_set_get; [done|].
  by rewrite storage_set_cases, Hw.
Qed.

Lemma setTheme_ignores theme st : ¬ light_or_dark theme → setTheme theme st = Ok st.
Proof.
  intros Hout. unfold setTheme. destruct (is_theme theme) eqn:Ht; [|done].
  by apply is_theme_spec in Ht.
Qed.

Lemma light_or_dark_truthy theme : light_or_dark theme → truthy theme = true.
Proof. by intros [-> | ->]. Qed.

Section Writable.
Hypothesis writes_succeed : ∀ ls k s, storage_accepts ls k s = true.
Hypothesis light_serializable : json_serializable (VStr "light").
Hypothesis dark_serializable : json_serializable (VStr "dark").

Lemma theme_serializable theme : light_or_dark theme → json_serializable theme.
Proof. by intros [-> | ->]. Qed.

Lemma applyTheme_theme_stored theme st :
  light_or_dark theme → ∃ st', applyTheme theme st = Ok st' ∧ theme_stored st'.
Proof.
  intros Ht.
  destruct (applyTheme_stored theme st writes_succeed (theme_serializable _ Ht))
    as (st' & Happ & Hcur & Hget & _).
  exists st'. split; [done|]. unfold theme_stored. by rewrite Hcur.
Qed.

Lemma listener_idle matches st :
  theme_stored st → onSystemThemeChange matches st = Ok (with_prefers_dark matches st).
Proof.
  intros [Hget Ht]. unfold onSystemThemeChange.
  change (getStoredTheme {| currentTheme := currentTheme st; data_theme := data_theme st;
            localStorage := localStorage st; prefers_dark := matches |})
    with (getStoredTheme st).
  rewrite Hget. simpl. by rewrite (light_or_dark_truthy _ Ht).
Qed.

Lemma perform_theme_stored o st :
  in_range o → theme_stored st → ∃ st', perform o st = Ok st' ∧ theme_stored st'.
Proof.
  intros Ho Hinv. destruct o as [theme| |theme|matches]; simpl in *.
  - by apply applyTheme_theme_stored.
  - apply applyTheme_theme_stored. unfold light_or_dark.
    destruct (is_str _ _); auto.
  - unfold setTheme. destruct (is_theme theme) eqn:Ht.
    + apply applyTheme_theme_stored. by apply is_theme_spec.
    + eauto.
  - rewrite listener_idle by done. eexists. split; [done|]. exact Hinv.
Qed.

Lemma perform_all_theme_stored ops st :
  Forall in_range ops → theme_stored st →
  ∃ st', perform_all ops st = Ok st' ∧ theme_stored st'.
Proof.
  intros Hops. revert st. induction Hops as [|o ops Ho _ IH]; intros st Hinv.
  - eauto.
  - destruct (perform_theme_stored o st Ho Hinv) as (st1 & Hstep & Hinv1).
    destruct (IH st1 Hinv1) as (st' & Hrun & Hinv').
    exists st'. split; [|done]. simpl. rewrite Hstep. exact Hrun.
Qed.

Lemma construct_theme_stored attr ls dark :
  (∀ v, Utils.storage_get ls themeKey = Ok v → truthy v = true → light_or_dark v) →
  ∃ st, construct attr ls dark = Ok st ∧ theme_stored st.
Proof.
  intros Hinit. unfold construct.
  destruct (storage_get_returns ls themeKey) as [stored Hstored].
  unfold getStoredTheme at 1. simpl. rewrite Hstored. simpl.
  apply applyTheme_theme_stored. unfold js_or.
  destruct (truthy stored) eqn:Ht; [by apply Hinit|].
  unfold getSystemTheme, light_or_dark. simpl. destruct dark; auto.
Qed.
End Writable.
End Theme.



(** C8, as the code has it.  Let every write to storage succeed and let
    light and dark be JSON-serializable.  If what storage holds under the
    key when the manager is built reads as a falsy value, light or dark,
    then after construction and after every further call of [applyTheme]
    with a theme, [toggleTheme], [setTheme] with any argument, or the
    system-theme listener, the value read from storage is [currentTheme]
    and is light or dark; the listener then never applies a theme.  In any
    state, [setTheme] with an argument other than light and dark changes
    nothing. *)
Theorem theme_stored_invariant `{Host} (attr : option string) (ls : gmap string string)
    (dark : bool) (ops : list ThemeManager.op) :
  (∀ ls k s, storage_accepts ls k s = true) →
  json_serializable (VStr "light") →
  json_serializable (VStr "dark") →
  (∀ v, Utils.storage_get ls ThemeManager.themeKey = Ok v → truthy v = true →
        ThemeManager.light_or_dark v) →
  Forall ThemeManager.in_range ops →
  (∃ st0 st,
      ThemeManager.construct attr ls dark = Ok st0
      ∧ ThemeManager.theme_stored st0
      ∧ ThemeManager.perform_all ops st0 = Ok st
      ∧ ThemeManager.theme_stored st
      ∧ ∀ matches, ThemeManager.onSystemThemeChange matches st
                   = Ok (ThemeManager.with_prefers_dark matches st))
  ∧ (∀ st theme, ¬ ThemeManager.light_or_dark theme → ThemeManager.setTheme theme st = Ok st).
Proof.
  intros Hw Hl Hd Hinit Hops. split.
  - destruct (construct_theme_stored Hw Hl Hd attr ls dark Hinit) as (st0 & Hc & Hinv0).
    destruct (perform_all_theme_stored Hw Hl Hd ops st0 Hops Hinv0) as (st & Hrun & Hinv).
    exists st0, st. split_and!; try done.
    intros matches. by apply listener_idle.
  - intros st theme. apply setTheme_ignores.
Qed.

(** A first visit on a dark system, then a toggle, a refused [setTheme] and
    a change of the system theme. *)
Lemma theme_stored_invariant_witness :
  ∃ st0 st,
    @ThemeManager.construct SampleHost.browser None ∅ true = Ok st0
    ∧ @ThemeManager.theme_stored SampleHost.browser st0
    ∧ @ThemeManager.perform_all SampleHost.browser
        [ThemeManager.ToggleTheme; ThemeManager.SetTheme (VStr "blue");
         ThemeManager.SystemThemeChange false] st0 = Ok st
    ∧ @ThemeManager.theme_stored SampleHost.browser st.
Proof.
  assert (Hl : @json_serializable SampleHost.browser (VStr "light")).
  { exists (SampleHost.quote "light"). split; reflexivity. }
  assert (Hd : @json_serializable SampleHost.browser (VStr "dark")).
  { exists (SampleHost.quote "dark"). split; reflexivity. }
  assert (Hinit : ∀ v, @Utils.storage_get SampleHost.browser ∅ ThemeManager.themeKey = Ok v →
                       truthy v = true → ThemeManager.light_or_dark v).
  { intros v Hv. vm_compute in Hv. injection Hv as <-. discriminate. }
  assert (Hops : Forall ThemeManager.in_range
                   [ThemeManager.ToggleTheme; ThemeManager.SetTheme (VStr "blue");
                    ThemeManager.SystemThemeChange false]).
  { repeat constructor. }
  destruct (@theme_stored_invariant SampleHost.browser None ∅ true _
              (λ _ _ _, eq_refl) Hl Hd Hinit Hops)
    as [(st0 & st & H0 & I0 & H1 & I1 & _) _].
  exists st0, st. split_and!; assumption.
Defined.

(** C8 as stated fails when storage already holds some other value: the
    constructor takes the stored blue as the current theme and stores it
    again. *)
Lemma theme_stored_invariant_counterexample :
  ∃ st,
    @ThemeManager.construct SampleHost.browser None
      {[ ThemeManager.themeKey := SampleHost.quote "blue" ]} false = Ok st
    ∧ ThemeManager.currentTheme st = VStr "blue"
    ∧ @ThemeManager.getStoredTheme SampleHost.browser st = Ok (VStr "blue")
    ∧ ¬ ThemeManager.light_or_dark (ThemeManager.currentTheme st)
    ∧ ¬ @ThemeManager.theme_stored SampleHost.browser st.
Proof.
  eexists. split; [vm_compute; reflexivity|]. split_and!.
  - reflexivity.
  - vm_compute. reflexivity.
  - intros [Hl | Hd]; discriminate.
  - intros [_ [Hl | Hd]]; discriminate.
Qed.

(** ** Utils.isValidEmail *)

Section Regex.
Import Utils.
Implicit Types (r : regex) (s : text) (c : N).

Lemma nullable_matches r : nullable r = true ↔ matches r [].
Proof.
  split.
  - induction r as [| |p|r1 IH1 r2 IH2|r1 IH1 r2 IH2|r IH]; simpl; intros Hn; try done.
    + constructor.
    + apply andb_true_iff in Hn as [H1 H2].
      apply (matches_seq r1 r2 [] []); auto.
    + apply orb_true_iff in Hn as [H1|H2].
      * apply matches_alt_l; auto.
      * apply matches_alt_r; auto.
    + constructor.
  - intros Hm. remember [] as s eqn:Hs. 
    induction Hm as [|p c Hp|r1 r2 s1 s2 _ IH1 _ IH2|r1 r2 s _ IH|r1 r2 s _ IH| |r s1 s2 _ _ _ _];
      simpl; try done.
    + apply app_eq_nil in Hs as [-> ->]. by rewrite IH1, IH2.
    + by rewrite IH.
    + rewrite IH by done. apply orb_true_r.
Qed.

Lemma deriv_sound c r s : matches (deriv c r) s → matches r (c :: s).
Proof.
  revert s. induction r as [| |p|r1 IH1 r2 IH2|r1 IH1 r2 IH2|r IH]; simpl; intros s Hm.
  - inversion Hm.
  - inversion Hm.
  - destruct (p c) eqn:Hp; inversion Hm; subst. by constructor.
  - destruct (nullable r1) eqn:Hn.
    + inversion Hm as [| | |? ? ? Hl|? ? ? Hr| |]; subst.
      * inversion Hl as [| |? ? s1 s2 H1 H2| | | |]; subst.
        apply (matches_seq r1 r2 (c :: s1) s2); auto.
      * apply (matches_seq r1 r2 [] (c :: s)); [by apply nullable_matches|auto].
    + inversion Hm as [| |? ? s1 s2 H1 H2| | | |]; subst.
      apply (matches_seq r1 r2 (c :: s1) s2); auto.
  - inversion Hm; subst; [apply matches_alt_l|apply matches_alt_r]; auto.
  - inversion Hm as [| |? ? s1 s2 H1 H2| | | |]; subst.
    apply (matches_star_cons r (c :: s1) s2); auto.
Qed.

Lemma deriv_complete c r s : matches r (c :: s) → matches (deriv c r) s.
Proof.
  intros Hm. remember (c :: s) as cs eqn:Hcs. revert c s Hcs.
  induction Hm as [|p c' Hp|r1 r2 s1 s2 H1 IH1 H2 IH2|r1 r2 s' _ IH|r1 r2 s' _ IH|
                   |r s1 s2 H1 IH1 H2 IH2]; intros c s Hcs; simpl; try done.
  - injection Hcs as -> <-. rewrite Hp. constructor.
  - destruct s1 as [|c1 s1]; simpl in Hcs.
    + subst s2. assert (Hn : nullable r1 = true) by by apply nullable_matches.
      rewrite Hn. apply matches_alt_r. by apply IH2.
    + injection Hcs as -> <-.
      assert (Hd : matches (RSeq (deriv c r1) r2) (s1 ++ s2)%list).
      { constructor; [by apply IH1|done]. }
      destruct (nullable r1); [by apply matches_alt_l|done].
  - apply matches_alt_l. by apply IH.
  - apply matches_alt_r. by apply IH.
  - destruct s1 as [|c1 s1]; simpl in Hcs.
    + by apply IH2.
    + injection Hcs as -> <-. constructor; [by apply IH1|done].
Qed.

Lemma regex_test_matches r s : regex_test r s = true ↔ matches r s.
Proof.
  revert r. induction s as [|c s IH]; intros r; simpl.
  - apply nullable_matches.
  - rewrite IH. split; [apply deriv_sound|apply deriv_complete].
Qed.

Lemma matches_star_class p s :
  matches (RStar (RClass p)) s ↔ Forall (λ c, p c = true) s.
Proof.
  split.
  - intros Hm. remember (RStar (RClass p)) as r eqn:Hr.
    induction Hm as [| | | | | |r s1 s2 H1 _ _ IH2]; try done.
    injection Hr as ->. inversion H1; subst. constructor; [done|]. by apply IH2.
  - induction 1 as [|c s Hc _ IH]; [constructor|].
    apply (matches_star_cons (RClass p) [c] s); [by constructor|done].
Qed.

Lemma matches_plus_class p s :
  matches (RPlus (RClass p)) s ↔ s ≠ [] ∧ Forall (λ c, p c = true) s.
Proof.
  unfold RPlus. split.
  - intros Hm. inversion Hm as [| |? ? s1 s2 H1 H2| | | |]; subst.
    inversion H1; subst. split; [done|]. constructor; [done|]. by apply matches_star_class.
  - intros [Hne Hall]. destruct Hall as [|c s Hc Hall]; [done|].
    apply (matches_seq (RClass p) (RStar (RClass p)) [c] s); [by constructor|].
    by apply matches_star_class.
Qed.

Lemma matches_literal k s : matches (RClass (N.eqb k)) s ↔ s = [k].
Proof.
  split.
  - intros Hm. inversion Hm as [|? c Hc| | | | |]; subst. by apply N.eqb_eq in Hc as ->.
  - intros ->. constructor. apply N.eqb_refl.
Qed.

(** The strings that [isValidEmail] accepts. *)
Lemma isValidEmail_shape s : isValidEmail s = true ↔ email_shaped s.
Proof.
  unfold isValidEmail, emailRegex, email_shaped, email_part.
  rewrite regex_test_matches. split.
  - intros Hm.
    inversion Hm as [| |? ? local s1 Hlocal H1| | | |]; subst.
    inversion H1 as [| |? ? at_sign s2 Hat H2| | | |]; subst.
    inversion H2 as [| |? ? domain s3 Hdomain H3| | | |]; subst.
    inversion H3 as [| |? ? dot tld Hdot Htld| | | |]; subst.
    apply matches_literal in Hat as ->. apply matches_literal in Hdot as ->.
    apply matches_plus_class in Hlocal, Hdomain, Htld.
    exists local, domain, tld. done.
  - intros (local & domain & tld & -> & Hlocal & Hdomain & Htld).
    apply matches_plus_class in Hlocal, Hdomain, Htld.
    apply matches_seq; [done|].
    apply (matches_seq _ _ [64%N]); [by apply matches_literal|].
    apply matches_seq; [done|].
    apply (matches_seq _ _ [46%N]); [by apply matches_literal|done].
Qed.
End Regex.

(** ** ContactFormManager *)

Section Form.
Import Utils ContactFormManager.
Implicit Types (f : field) (st : state) (fs : list field).

Lemma nonempty_spec (s : text) : nonempty s = true ↔ s ≠ [].
Proof. by destruct s. Qed.

Lemma nonempty_false (s : text) : nonempty s = false ↔ s = [].
Proof. by destruct s. Qed.

(** The three tests of validateField, as booleans. *)
Lemma check_field_tests f :
  (check_field f).1 =
    negb ((required f && negb (nonempty (trim (value f))))
          || (String.eqb (type f) "email" && nonempty (trim (value f))
              && negb (isValidEmail (trim (value f))))
          || (nonempty (trim (value f)) && truthy_number (minLength f)
              && (Z.of_nat (length (trim (value f))) <? minLength f)%Z)).
Proof.
  unfold check_field.
  destruct (required f && _), (String.eqb (type f) "email" && _ && _), (_ && _ && _); done.
Qed.

Lemma required_test f :
  required f && negb (nonempty (trim (value f))) = true ↔ required_but_empty f.
Proof.
  unfold required_but_empty.
  rewrite andb_true_iff, negb_true_iff, nonempty_false. done.
Qed.

Lemma email_test f :
  String.eqb (type f) "email" && nonempty (trim (value f))
    && negb (isValidEmail (trim (value f))) = true ↔ bad_email f.
Proof.
  unfold bad_email.
  rewrite !andb_true_iff, negb_true_iff, nonempty_spec, String.eqb_eq. tauto.
Qed.

Lemma minLength_test f :
  nonempty (trim (value f)) && truthy_number (minLength f)
    && (Z.of_nat (length (trim (value f))) <? minLength f)%Z = true ↔ too_short f.
Proof.
  unfold too_short, declares_minLength, truthy_number.
  rewrite !andb_true_iff, negb_true_iff, nonempty_spec, Z.eqb_neq, Z.ltb_lt.
  split.
  - intros [[Hne Hdecl] Hlt]. split_and!; [done|lia|done].
  - intros (Hne & Hdecl & Hlt). split_and!; [done|lia|done].
Qed.

Lemma check_field_rejected f : (check_field f).1 = false ↔ rejected f.
Proof.
  rewrite check_field_tests, negb_false_iff, !orb_true_iff.
  rewrite required_test, email_test, minLength_test. unfold rejected. tauto.
Qed.

Lemma check_field_accepted f : (check_field f).1 = true ↔ ¬ rejected f.
Proof.
  rewrite <- check_field_rejected. destruct (check_field f).1; naive_solver.
Qed.

Lemma check_field_set_input_error b f : check_field (set_input_error b f) = check_field f.
Proof. reflexivity. Qed.

Lemma same_inputs_lookup fs fs' i f :
  same_inputs fs fs' → fs !! i = Some f →
  ∃ f', fs' !! i = Some f' ∧ check_field f' = check_field f ∧ required f' = required f.
Proof.
  unfold same_inputs. intros Hsame Hf.
  assert (Hi : (set_input_error false <$> fs') !! i = Some (set_input_error false f)).
  { rewrite <- Hsame, list_lookup_fmap, Hf. done. }
  rewrite list_lookup_fmap in Hi. destruct (fs' !! i) as [f'|] eqn:Hf'; [|done].
  exists f'. split; [done|]. simpl in Hi. apply (inj Some) in Hi.
  rewrite <- (check_field_set_input_error false f'), <- (check_field_set_input_error false f).
  rewrite Hi. split; [done|].
  change (required f') with (required (set_input_error false f')). by rewrite Hi.
Qed.

Lemma same_inputs_insert fs i f b :
  fs !! i = Some f → same_inputs (<[i := set_input_error b f]> fs) fs.
Proof.
  intros Hf. unfold same_inputs. rewrite list_fmap_insert. simpl.
  apply list_insert_id. rewrite list_lookup_fmap, Hf. done.
Qed.

Lemma clearFieldError_frame i st :
  same_inputs (fields (clearFieldError i st)) (fields st)
  ∧ effects (clearFieldError i st) = effects st.
Proof.
  unfold clearFieldError. destruct (fields st !! i) as [f|] eqn:Hf; [|done].
  split; [|done]. simpl. by apply same_inputs_insert.
Qed.

Lemma showFieldError_frame i message st :
  same_inputs (fields (showFieldError i message st)) (fields st)
  ∧ effects (showFieldError i message st) = effects st.
Proof.
  unfold showFieldError.
  destruct (clearFieldError_frame i st) as [Hsame Heff].
  destruct (negb _); [|done].
  destruct (fields (clearFieldError i st) !! i) as [f|] eqn:Hf; [|done].
  simpl. split; [|done].
  unfold same_inputs in *. rewrite <- Hsame. by apply same_inputs_insert.
Qed.

Lemma validateField_spec i st f :
  fields st !! i = Some f →
  ∃ st', validateField i st = Some ((check_field f).1, st')
    ∧ same_inputs (fields st') (fields st) ∧ effects st' = effects st.
Proof.
  intros Hf. unfold validateField. rewrite Hf. simpl.
  destruct (check_field f) as [isValid errorMessage]. simpl.
  eexists. split; [done|]. apply showFieldError_frame.
Qed.

Lemma same_inputs_valid_at fs fs' i : same_inputs fs fs' → valid_at fs' i = valid_at fs i.
Proof.
  intros Hsame. unfold valid_at.
  destruct (fs !! i) as [f|] eqn:Hf.
  - destruct (same_inputs_lookup fs fs' i f Hsame Hf) as (f' & -> & -> & _). done.
  - destruct (fs' !! i) as [f'|] eqn:Hf'; [|done].
    symmetry in Hsame.
    destruct (same_inputs_lookup fs' fs i f' Hsame Hf') as (f & Hf2 & _). congruence.
Qed.

Lemma forallb_pointwise {A} (p q : A → bool) (l : list A) :
  (∀ x, p x = q x) → forallb p l = forallb q l.
Proof. intros Hpq. induction l as [|x l IH]; simpl; [done|]. by rewrite Hpq, IH. Qed.

Lemma validate_each_spec indices isValid st :
  Forall (λ i, is_Some (fields st !! i)) indices →
  ∃ st', validate_each indices isValid st
           = Some (isValid && forallb (valid_at (fields st)) indices, st')
    ∧ same_inputs (fields st') (fields st) ∧ effects st' = effects st.
Proof.
  revert isValid st. induction indices as [|i indices IH]; intros isValid st Hall.
  - exists st. simpl. by rewrite andb_true_r.
  - apply Forall_cons in Hall as [[f Hf] Hall].
    destruct (validateField_spec i st f Hf) as (st1 & Hv & Hsame1 & Heff1).
    destruct (IH (if negb (check_field f).1 then false else isValid) st1)
      as (st' & Hrun & Hsame & Heff).
    { eapply Forall_impl; [exact Hall|]. intros j [fj Hj]. simpl.
      symmetry in Hsame1.
      destruct (same_inputs_lookup _ _ j fj Hsame1 Hj) as (fj' & Hj' & _). eauto. }
    exists st'. split_and!.
    + simpl. rewrite Hv. simpl. rewrite Hrun. f_equal. f_equal.
      unfold valid_at at 2. rewrite Hf.
      rewrite (forallb_pointwise _ _ indices (λ j, same_inputs_valid_at _ _ j Hsame1)).
      destruct (check_field f).1, isValid; done.
    + unfold same_inputs in *. congruence.
    + congruence.
Qed.

Lemma elem_of_required_indices fs i :
  i ∈ required_indices fs ↔ ∃ f, fs !! i = Some f ∧ required f = true.
Proof.
  unfold required_indices. rewrite list_elem_of_bind. split.
  - intros ([j f] & Hi & Hjf). apply elem_of_lookup_imap in Hjf as (j' & f' & Heq & Hf').
    injection Heq as -> ->. simpl in Hi. destruct (required f') eqn:Hr.
    + apply list_elem_of_singleton in Hi as ->. eauto.
    + by apply elem_of_nil in Hi.
  - intros (f & Hf & Hr). exists (i, f). split.
    + simpl. rewrite Hr. by apply list_elem_of_singleton.
    + apply elem_of_lookup_imap. eauto.
Qed.

Lemma required_fields_valid fs :
  forallb (valid_at fs) (required_indices fs) = true
  ↔ ∀ f, f ∈ fs → required f = true → ¬ rejected f.
Proof.
  rewrite forallb_forall. split.
  - intros Hall f Hin Hr. apply list_elem_of_lookup in Hin as [i Hi].
    apply check_field_accepted.
    specialize (Hall i). unfold valid_at in Hall. rewrite Hi in Hall.
    apply Hall. apply list_elem_of_In, elem_of_required_indices. eauto.
  - intros Hall i Hi. apply list_elem_of_In, elem_of_required_indices in Hi as (f & Hf & Hr).
    unfold valid_at. rewrite Hf. apply check_field_accepted.
    apply Hall; [|done]. apply list_elem_of_lookup. eauto.
Qed.

Lemma validateForm_spec st :
  ∃ st', validateForm st = Some (forallb (valid_at (fields st)) (required_indices (fields st)), st')
    ∧ same_inputs (fields st') (fields st) ∧ effects st' = effects st.
Proof.
  unfold validateForm. apply (validate_each_spec _ true).
  apply Forall_forall. intros i Hi. apply elem_of_required_indices in Hi as (f & Hf & _). eauto.
Qed.
End Form.

(** C1.  [validateField] answers false exactly when the field is required
    and blank once trimmed, or is an email field whose trimmed value is not
    blank and fails [isValidEmail], or its trimmed value is not blank and is
    shorter than the minimum length the field declares; otherwise it answers
    true.  [validateForm] answers true exactly when no required field is
    turned down, and when it answers false [handleSubmit] stops there: the
    request is not sent and nothing else is done.  [isValidEmail] accepts
    exactly the strings local@domain.tld whose three parts are non-empty
    and free of white space and at signs. *)
Theorem validateField_rejects_exactly (st : ContactFormManager.state) :
  (∀ i f, ContactFormManager.fields st !! i = Some f →
     ∃ isValid st',
       ContactFormManager.validateField i st = Some (isValid, st')
       ∧ (isValid = false ↔ ContactFormManager.rejected f)
       ∧ (isValid = true ↔ ¬ ContactFormManager.rejected f))
  ∧ (∃ isValid st',
       ContactFormManager.validateForm st = Some (isValid, st')
       ∧ (isValid = true ↔
            ∀ f, f ∈ ContactFormManager.fields st → ContactFormManager.required f = true →
                 ¬ ContactFormManager.rejected f)
       ∧ (isValid = false →
            ContactFormManager.handleSubmit st = Some st'
            ∧ ContactFormManager.effects st' = ContactFormManager.effects st)
       ∧ (isValid = true →
            ∃ st'', ContactFormManager.handleSubmit st = Some st''
              ∧ ContactFormManager.SubmitForm
                  (ContactFormManager.formData (ContactFormManager.fields st'))
                  ∈ ContactFormManager.effects st''))
  ∧ (∀ email, Utils.isValidEmail email = true ↔ Utils.email_shaped email).
Proof.
  split_and!.
  - intros i f Hf.
    destruct (validateField_spec i st f Hf) as (st' & Hv & _).
    exists (ContactFormManager.check_field f).1, st'. split; [done|].
    split; [apply check_field_rejected|apply check_field_accepted].
  - destruct (validateForm_spec st) as (st' & Hv & Hsame & Heff).
    eexists _, st'. split; [exact Hv|]. split_and!.
    + apply required_fields_valid.
    + intros Hfalse. unfold ContactFormManager.handleSubmit.
      rewrite Hv. simpl. rewrite Hfalse. done.
    + intros Htrue. unfold ContactFormManager.handleSubmit.
      rewrite Hv. simpl. rewrite Htrue. simpl. eexists. split; [done|]. simpl.
      rewrite elem_of_app. right. set_solver.
  - apply isValidEmail_shape.
Qed.

(** The sample form with a malformed address: the address field is turned
    down. *)
Lemma validateField_rejects_exactly_witness :
  ∃ isValid st',
    ContactFormManager.validateField 1
      (ContactFormManager.sample_form [97; 64; 98]%N [104; 105]%N) = Some (isValid, st')
    ∧ (isValid = false ↔
         ContactFormManager.rejected
           (ContactFormManager.sample_field "email" "email" (-1) [97; 64; 98]%N 1))
    ∧ (isValid = true ↔
         ¬ ContactFormManager.rejected
             (ContactFormManager.sample_field "email" "email" (-1) [97; 64; 98]%N 1)).
Proof.
  apply (proj1 (validateField_rejects_exactly
                  (ContactFormManager.sample_form [97; 64; 98]%N [104; 105]%N)) 1).
  reflexivity.
Defined.

(** ** ComponentRenderer: the sections *)

Section Sections.
Import ComponentRenderer.
Implicit Types (cache : gmap string value) (d : document).

Lemma as_list_truthy {A} (item : value → option A) (data : value) (xs : list A) :
  as_list item data = Some xs → truthy data = true.
Proof. by destruct data. Qed.

Lemma filter_not_github (contacts : list Contact) :
  List.filter not_github contacts = filter (λ c, contact_title c ≠ "GitHub") contacts.
Proof.
  induction contacts as [|c contacts IH]; [done|]. simpl.
  rewrite filter_cons, IH. unfold not_github.
  destruct (String.eqb_spec (contact_title c) "GitHub"); simpl; by case_decide.
Qed.

Lemma filter_is_social (contacts : list Contact) :
  List.filter is_social contacts
  = filter (λ c, contact_title c = "GitHub" ∨ contact_title c = "LinkedIn") contacts.
Proof.
  induction contacts as [|c contacts IH]; [done|]. simpl.
  rewrite filter_cons, IH. unfold is_social.
  destruct (String.eqb_spec (contact_title c) "GitHub"),
    (String.eqb_spec (contact_title c) "LinkedIn"); simpl; case_decide; tauto.
Qed.

Lemma render_contact_card_contact (contacts : list Contact) :
  cc_contact <$> (render_contact_card <$> contacts) = contacts.
Proof. rewrite <- list_fmap_compose. apply list_fmap_id. Qed.
End Sections.

(** C6.  Each of the six render functions returns the page as it was when
    the cache has no entry under its key, and what it returns depends on the
    cache through that one entry only. *)
Theorem render_without_data_is_noop (key : string)
    (render : gmap string value → document → option document)
    (cache cache' : gmap string value) (d : document) :
  (key, render) ∈ ComponentRenderer.components →
  (cache !! key = None → render cache d = Some d)
  ∧ (cache !! key = cache' !! key → render cache d = render cache' d)
  ∧ (cache !! "about" = None → ComponentRenderer.renderAboutSection cache d = Some d)
  ∧ (cache !! "projects" = None → ComponentRenderer.renderProjectsSection cache d = Some d).
Proof.
  intros Hin. split_and!.
  - intros Hnone. unfold ComponentRenderer.components in Hin.
    repeat (apply elem_of_cons in Hin as [Hin|Hin];
            [injection Hin as -> ->; cbv beta delta
               [ComponentRenderer.renderAboutSection ComponentRenderer.renderProjectsSection
                ComponentRenderer.renderExperienceSection ComponentRenderer.renderSkillsSection
                ComponentRenderer.renderCertificationsSection
                ComponentRenderer.renderContactSection]; by rewrite Hnone|]).
    by apply elem_of_nil in Hin.
  - intros Hsame. unfold ComponentRenderer.components in Hin.
    repeat (apply elem_of_cons in Hin as [Hin|Hin];
            [injection Hin as -> ->; cbv beta delta
               [ComponentRenderer.renderAboutSection ComponentRenderer.renderProjectsSection
                ComponentRenderer.renderExperienceSection ComponentRenderer.renderSkillsSection
                ComponentRenderer.renderCertificationsSection
                ComponentRenderer.renderContactSection]; by rewrite Hsame|]).
    by apply elem_of_nil in Hin.
  - intros Hnone. unfold ComponentRenderer.renderAboutSection. by rewrite Hnone.
  - intros Hnone. unfold ComponentRenderer.renderProjectsSection. by rewrite Hnone.
Qed.

(** The projects renderer on a cache that only holds the contacts. *)
Lemma render_without_data_is_noop_witness :
  ComponentRenderer.renderProjectsSection
    {["contact" := SampleHost.sample_contacts]} SampleHost.blank_page
  = Some SampleHost.blank_page.
Proof.
  apply (proj1 (render_without_data_is_noop "projects" ComponentRenderer.renderProjectsSection
                  {["contact" := SampleHost.sample_contacts]} ∅ SampleHost.blank_page
                  ltac:(unfold ComponentRenderer.components; set_solver))).
  reflexivity.
Defined.

(** C10.  On a page that has both containers, [renderContactSection] puts
    into the contact cards the entries whose title is not GitHub, in the
    order of the data, and [renderFooterSocial] puts into the footer the
    entries whose title is GitHub or LinkedIn; an entry titled GitHub is
    thus in the footer and not among the cards. *)
Theorem contact_cards_and_footer (cache : gmap string value) (d : document)
    (data : value) (contacts : list Contact) :
  cache !! "contact" = Some data →
  as_list read_contact data = Some contacts →
  is_Some (contact_cards d) →
  is_Some (footer_social d) →
  ∃ d' cards links,
    ComponentRenderer.renderContactSection cache d = Some d'
    ∧ contact_cards d' = Some cards
    ∧ footer_social d' = Some links
    ∧ cards = (ComponentRenderer.render_contact_card <$>
                 filter (λ c, contact_title c ≠ "GitHub") contacts)
    ∧ (cc_contact <$> cards) = filter (λ c, contact_title c ≠ "GitHub") contacts
    ∧ links = filter (λ c, contact_title c = "GitHub" ∨ contact_title c = "LinkedIn") contacts
    ∧ ComponentRenderer.renderFooterSocial (Some contacts) d
      = set_footer_social links d
    ∧ (∀ c, c ∈ contacts → contact_title c = "GitHub" →
            (c ∉ cc_contact <$> cards) ∧ (c ∈ links)).
Proof.
  intros Hdata Hread [cards0 Hcards] [links0 Hlinks].
  unfold ComponentRenderer.renderContactSection. rewrite Hdata.
  rewrite (as_list_truthy _ _ _ Hread), Hread. simpl. rewrite Hcards.
  unfold ComponentRenderer.renderFooterSocial. simpl. rewrite Hlinks.
  rewrite filter_not_github, filter_is_social.
  eexists _, _, _. split_and!; try reflexivity.
  - apply render_contact_card_contact.
  - intros c Hin Hgit. rewrite render_contact_card_contact. split.
    + rewrite list_elem_of_filter. tauto.
    + rewrite list_elem_of_filter. tauto.
Qed.

(** The sample contacts on the blank page: Email and LinkedIn become cards,
    GitHub and LinkedIn go to the footer. *)
Lemma contact_cards_and_footer_witness :
  ∃ d' cards links,
    ComponentRenderer.renderContactSection
      {["contact" := SampleHost.sample_contacts]} SampleHost.blank_page = Some d'
    ∧ contact_cards d' = Some cards
    ∧ footer_social d' = Some links
    ∧ (contact_title <$> (cc_contact <$> cards)) = ["Email"; "LinkedIn"]
    ∧ (contact_title <$> links) = ["GitHub"; "LinkedIn"].
Proof.
  assert (Hdata : ({["contact" := SampleHost.sample_contacts]} : gmap string value)
                    !! "contact" = Some SampleHost.sample_contacts) by reflexivity.
  destruct (contact_cards_and_footer {["contact" := SampleHost.sample_contacts]}
              SampleHost.blank_page SampleHost.sample_contacts
              (default [] (as_list read_contact SampleHost.sample_contacts))
              Hdata eq_refl (mk_is_Some _ _ eq_refl) (mk_is_Some _ _ eq_refl))
    as (d' & cards & links & Hr & Hc & Hl & _ & Hcards & Hlinks & _).
  exists d', cards, links. split_and!; [done|done|done| |].
  - rewrite Hcards. reflexivity.
  - rewrite Hlinks. reflexivity.
Defined.

(** ** ComponentRenderer: project filtering *)

Section Filtering.
Import ComponentRenderer.
Implicit Types (d : document) (cards : list project_card) (buttons : list filter_btn).

Lemma applyProjectFilter_displayed cards filter c :
  c ∈ applyProjectFilter cards filter → (displayed c ↔ card_company c = filter).
Proof.
  unfold applyProjectFilter. intros Hin.
  apply list_elem_of_fmap in Hin as (c0 & -> & _).
  unfold displayed, show_if_company. simpl.
  destruct (String.eqb_spec (card_company c0) filter); split; done.
Qed.

Lemma applyProjectFilter_company cards filter :
  card_company <$> applyProjectFilter cards filter = card_company <$> cards.
Proof. unfold applyProjectFilter. rewrite <- list_fmap_compose. done. Qed.

Lemma project_cards_with_cards cards d c :
  c ∈ project_cards (with_cards cards d) → is_Some (projects_grid d) ∧ c ∈ cards.
Proof.
  unfold with_cards, project_cards. destruct (projects_grid d) eqn:Hg; simpl.
  - eauto.
  - rewrite Hg. simpl. intros Hin. by apply elem_of_nil in Hin.
Qed.

Lemma project_cards_shown cards d :
  is_Some (projects_grid d) → project_cards (with_cards cards d) = cards.
Proof. intros [cards0 Hg]. unfold with_cards. rewrite Hg. done. Qed.

Lemma filter_buttons_with_cards cards d :
  filter_buttons (with_cards cards d) = filter_buttons d.
Proof. unfold with_cards. by destruct (projects_grid d). Qed.

Lemma only_active_clicked buttons i b :
  buttons !! i = Some b →
  only_active i (<[i := set_active true b]> (set_active false <$> buttons)).
Proof.
  intros Hb j b' Hj. destruct (decide (j = i)) as [->|Hne].
  - rewrite list_lookup_insert_eq in Hj.
    + injection Hj as <-. done.
    + rewrite length_fmap. by eapply lookup_lt_Some.
  - rewrite list_lookup_insert_ne, list_lookup_fmap in Hj by done.
    destruct (buttons !! j); [|done]. injection Hj as <-. simpl. split; [done|]. done.
Qed.

Lemma click_filter_state d i b :
  filter_buttons d !! i = Some b → filter_state (btn_filter b) (click_filter i d).
Proof.
  intros Hb. unfold click_filter. rewrite Hb.
  assert (Hsome : ∃ l, project_filters d = Some l ∧ l = filter_buttons d).
  { unfold filter_buttons in *. destruct (project_filters d); [eauto|]. done. }
  destruct Hsome as (l & Hl & ->).
  split.
  - exists i, (set_active true b). rewrite filter_buttons_with_cards.
    unfold with_buttons. rewrite Hl. unfold filter_buttons at 1 3. simpl.
    split_and!.
    + apply list_lookup_insert_eq. rewrite length_fmap. by eapply lookup_lt_Some.
    + done.
    + by apply only_active_clicked.
  - intros c Hc. apply project_cards_with_cards in Hc as [_ Hc].
    by eapply applyProjectFilter_displayed.
Qed.

Lemma click_filter_missing d i : filter_buttons d !! i = None → click_filter i d = d.
Proof. intros Hb. unfold click_filter. by rewrite Hb. Qed.

Lemma click_filter_invariant d i : filtering_invariant d → filtering_invariant (click_filter i d).
Proof.
  intros Hinv. destruct (filter_buttons d !! i) as [b|] eqn:Hb.
  - exists (btn_filter b). by apply click_filter_state.
  - by rewrite click_filter_missing.
Qed.

Lemma click_all_invariant clicks d : filtering_invariant d → filtering_invariant (click_all clicks d).
Proof.
  revert d. induction clicks as [|i clicks IH]; intros d Hinv; [done|].
  simpl. apply IH. by apply click_filter_invariant.
Qed.

Lemma distinct_cons x xs : distinct (x :: xs) = x :: distinct_from [x] xs.
Proof. reflexivity. Qed.

Lemma mark_missing_images_company projects cards index :
  (∀ j c, cards !! j = Some c → is_Some (projects !! (index + j))) →
  ∃ cards', mark_missing_images projects index cards = Some cards'
    ∧ card_company <$> cards' = card_company <$> cards.
Proof.
  revert index. induction cards as [|c cards IH]; intros index Hlen.
  - by exists [].
  - destruct (Hlen 0 c eq_refl) as [project Hp]. rewrite Nat.add_0_r in Hp.
    destruct (IH (S index)) as (rest & Hrest & Hco).
    { intros j c' Hj. specialize (Hlen (S j) c' Hj).
      by rewrite Nat.add_succ_r in Hlen. }
    simpl. rewrite Hp. simpl. rewrite Hrest. simpl.
    eexists. split; [done|]. rewrite !fmap_cons, Hco.
    by destruct (project_image project).
Qed.

Lemma handleProjectImages_company projects d :
  projects_grid d = Some (render_project_card <$> projects) →
  ∃ cards, handleProjectImages projects d = Some (set_projects_grid cards d)
    ∧ card_company <$> cards = project_company <$> projects.
Proof.
  intros Hgrid. unfold handleProjectImages. rewrite Hgrid.
  destruct (mark_missing_images_company projects (render_project_card <$> projects) 0)
    as (cards & Hmark & Hco).
  { intros j c Hj. rewrite list_lookup_fmap in Hj. simpl.
    destruct (projects !! j); [eauto|done]. }
  rewrite Hmark. exists cards. split; [done|].
  rewrite Hco, <- list_fmap_compose. done.
Qed.

Lemma filter_button_filters (companies : list string) :
  btn_filter <$> imap filter_button companies = companies.
Proof.
  rewrite fmap_imap. unfold compose. simpl.
  generalize 0. induction companies as [|x l IH]; intros n; [done|].
  simpl. f_equal. rewrite <- (IH (S n)) at 2. apply imap_ext. done.
Qed.

Lemma filter_button_only_first (companies : list string) :
  only_active 0 (imap filter_button companies).
Proof.
  intros j b Hj. apply list_lookup_imap_Some in Hj as (x & _ & ->).
  simpl. by rewrite bool_decide_eq_true.
Qed.

Lemma render_projects_state cache d data first rest :
  cache !! "projects" = Some data →
  as_list read_project data = Some (first :: rest) →
  is_Some (project_filters d) →
  is_Some (projects_grid d) →
  ∃ d', renderProjectsSection cache d = Some d'
    ∧ btn_filter <$> filter_buttons d' = distinct (project_company <$> first :: rest)
    ∧ card_company <$> project_cards d' = project_company <$> first :: rest
    ∧ filter_state (project_company first) d'.
Proof.
  intros Hdata Hread [buttons0 Hb0] [cards0 Hc0].
  unfold renderProjectsSection. rewrite Hdata, (as_list_truthy _ _ _ Hread).
  cbn [negb]. rewrite Hc0, Hread. cbn [mbind option_bind].
  set (projects := first :: rest).
  set (d1 := generateProjectFilters projects d).
  set (d2 := set_projects_grid (render_project_card <$> projects) d1).
  destruct (handleProjectImages_company projects d2 eq_refl) as (cards & -> & Hco).
  cbn [mbind option_bind]. eexists. split; [done|].
  assert (Hbuttons : filter_buttons (set_projects_grid cards d2)
                     = imap filter_button (distinct (project_company <$> projects))).
  { unfold filter_buttons, d2, d1, generateProjectFilters. rewrite Hb0. done. }
  assert (Hfirst : ∃ others, imap filter_button (distinct (project_company <$> projects))
                     = filter_button 0 (project_company first) :: others)
    by (eexists; reflexivity).
  destruct Hfirst as [others Hfirst].
  unfold initProjectFiltering. rewrite Hbuttons, Hfirst.
  rewrite filter_buttons_with_cards, Hbuttons.
  rewrite project_cards_shown by done.
  change (project_cards (set_projects_grid cards d2)) with cards.
  split_and!.
  - apply filter_button_filters.
  - by rewrite applyProjectFilter_company.
  - split.
    + exists 0, (filter_button 0 (project_company first)).
      rewrite filter_buttons_with_cards, Hbuttons.
      split_and!; [by rewrite Hfirst|done|apply filter_button_only_first].
    + intros c Hc. rewrite project_cards_shown in Hc by done.
      by eapply applyProjectFilter_displayed.
Qed.
End Filtering.




(** ** NavigationManager *)

Section Navigation.
Import NavigationManager.
Implicit Types (st : state) (secs : list section) (links : list nav_link).

Lemma contains_spec pos (s : section) :
  contains pos s = true ↔ (offsetTop s ≤ pos < offsetTop s + offsetHeight s)%Z.
Proof. unfold contains. rewrite andb_true_iff, Z.leb_le, Z.ltb_lt. done. Qed.

Lemma find_active_snoc pos secs s :
  find_active pos (secs ++ [s]) = next_active pos (find_active pos secs) s.
Proof. unfold find_active. by rewrite foldl_app. Qed.

Lemma find_active_last pos secs : last_containing pos secs (find_active pos secs).
Proof.
  induction secs as [|s secs IH] using rev_ind.
  - right. by split.
  - rewrite find_active_snoc. unfold next_active.
    destruct (contains pos s) eqn:Hc.
    + left. exists secs, s, [].
      split; [done|]. split; [by apply contains_spec|]. by split.
    + assert (Hout : ¬ (offsetTop s ≤ pos < offsetTop s + offsetHeight s)%Z).
      { rewrite <- contains_spec, Hc. done. }
      destruct IH as [(before & s0 & after & -> & Hin & Hafter & Hid) | [Hnone Hid]].
      * left. exists before, s0, (after ++ [s])%list.
        split; [by rewrite <- app_assoc|]. split; [done|]. split; [|done].
        apply Forall_app. split; [done|]. by apply Forall_singleton.
      * right. split; [|done]. apply Forall_app. split; [done|]. by apply Forall_singleton.
Qed.

Lemma links_agree_spec st :
  links_agree st ↔ active_links_are ("#" +:+ currentSection st) (navLinks st).
Proof.
  unfold links_agree, active_links_are. split; intros Hl l Hin; specialize (Hl l Hin).
  - rewrite Hl. apply String.eqb_eq.
  - apply Bool.eq_true_iff_eq. rewrite Hl, String.eqb_eq. done.
Qed.

Lemma marked_links_agree active links :
  active_links_are ("#" +:+ active) (mark_link active <$> links).
Proof.
  intros l Hin. apply list_elem_of_fmap in Hin as (l0 & -> & _).
  simpl. apply String.eqb_eq.
Qed.

Lemma href_mark_link active links : href <$> (mark_link active <$> links) = href <$> links.
Proof. by rewrite <- list_fmap_compose. Qed.

Lemma updateActiveNavLink_section st :
  currentSection (updateActiveNavLink st) = find_active (scrollPosition st) (sections st).
Proof.
  unfold updateActiveNavLink.
  destruct (String.eqb_spec (find_active (scrollPosition st) (sections st)) (currentSection st));
    simpl; congruence.
Qed.

Lemma updateActiveNavLink_changed st :
  currentSection (updateActiveNavLink st) ≠ currentSection st →
  navLinks (updateActiveNavLink st)
  = mark_link (currentSection (updateActiveNavLink st)) <$> navLinks st.
Proof.
  unfold updateActiveNavLink.
  destruct (String.eqb_spec (find_active (scrollPosition st) (sections st)) (currentSection st));
    simpl; [done|]. done.
Qed.

Lemma updateActiveNavLink_unchanged st :
  currentSection (updateActiveNavLink st) = currentSection st → updateActiveNavLink st = st.
Proof.
  unfold updateActiveNavLink.
  destruct (String.eqb_spec (find_active (scrollPosition st) (sections st)) (currentSection st));
    simpl; [done|]. intros Heq. by destruct n.
Qed.

Lemma updateActiveNavLink_agree st :
  links_agree st ∨ currentSection (updateActiveNavLink st) ≠ currentSection st →
  links_agree (updateActiveNavLink st).
Proof.
  intros Hpre.
  destruct (decide (currentSection (updateActiveNavLink st) = currentSection st)) as [Heq|Hne].
  - rewrite (updateActiveNavLink_unchanged st Heq). by destruct Hpre.
  - apply links_agree_spec. rewrite (updateActiveNavLink_changed st Hne).
    apply marked_links_agree.
Qed.

Lemma updateActiveNavLink_frame st :
  href <$> navLinks (updateActiveNavLink st) = href <$> navLinks st
  ∧ sections (updateActiveNavLink st) = sections st
  ∧ navbar (updateActiveNavLink st) = navbar st.
Proof.
  unfold updateActiveNavLink. destruct (negb _); simpl; [|done].
  by rewrite href_mark_link.
Qed.

Lemma scroll_to_agree st y : links_agree st → links_agree (scroll_to st y).
Proof.
  intros Hagree. unfold scroll_to. apply updateActiveNavLink_agree. left. exact Hagree.
Qed.

Lemma scroll_all_agree st ys : links_agree st → links_agree (scroll_all st ys).
Proof.
  revert st. induction ys as [|y ys IH]; intros st Hagree; [done|].
  simpl. apply IH. by apply scroll_to_agree.
Qed.

Lemma construct_agree bar links secs y :
  Forall (λ l, link_active l = false ∧ href l ≠ "#") links →
  links_agree (construct bar links secs y).
Proof.
  intros Hinit. unfold construct. apply updateActiveNavLink_agree. left.
  intros l Hin. simpl in *. rewrite Forall_forall in Hinit.
  destruct (Hinit l Hin) as [-> Hhref].
  symmetry. by apply String.eqb_neq.
Qed.

Lemma find_active_none pos secs :
  Forall (λ s, ¬ (offsetTop s ≤ pos < offsetTop s + offsetHeight s)%Z) secs →
  find_active pos secs = "".
Proof.
  intros Hnone.
  destruct (find_active_last pos secs) as [(before & s & after & -> & Hin & _) | [_ Hid]];
    [|done].
  apply Forall_app in Hnone as [_ Hnone]. apply Forall_cons in Hnone as [Hout _]. done.
Qed.
End Navigation.

(** C5, as the code has it.  [updateActiveNavLink] takes the point
    scrollY + navbar height + 100, with 70 for a missing navbar, and makes
    the last section in document order whose interval holds the point the
    current one, or the empty id when there is none.  When that differs
    from the section cached before the call, the links are rewritten and
    exactly those whose href is the hash sign followed by the id are active;
    when it is the same, nothing is touched.  Hence, if the link classes
    agreed with the cached section before the call they agree with the new
    one after it, and with no section at the point the active links are
    exactly those whose href is the bare hash sign.  From a page whose links
    are all inactive and none of which has the bare hash sign as href, this
    holds after construction and after every scroll. *)
Theorem active_link_follows_section (st : NavigationManager.state) :
  NavigationManager.scrollPosition st
    = (NavigationManager.scrollY st + default 70 (NavigationManager.navbar st) + 100)%Z
  ∧ NavigationManager.last_containing (NavigationManager.scrollPosition st)
      (NavigationManager.sections st)
      (NavigationManager.currentSection (NavigationManager.updateActiveNavLink st))
  ∧ (NavigationManager.href <$> NavigationManager.navLinks
        (NavigationManager.updateActiveNavLink st))
    = (NavigationManager.href <$> NavigationManager.navLinks st)
  ∧ (NavigationManager.currentSection (NavigationManager.updateActiveNavLink st)
     = NavigationManager.currentSection st →
     NavigationManager.updateActiveNavLink st = st)
  ∧ (NavigationManager.links_agree st
     ∨ NavigationManager.currentSection (NavigationManager.updateActiveNavLink st)
       ≠ NavigationManager.currentSection st →
     NavigationManager.active_links_are
       ("#" +:+ NavigationManager.currentSection (NavigationManager.updateActiveNavLink st))
       (NavigationManager.navLinks (NavigationManager.updateActiveNavLink st))
     ∧ (Forall (λ s, ¬ (NavigationManager.offsetTop s ≤ NavigationManager.scrollPosition st
                        < NavigationManager.offsetTop s + NavigationManager.offsetHeight s)%Z)
          (NavigationManager.sections st) →
        NavigationManager.active_links_are "#"
          (NavigationManager.navLinks (NavigationManager.updateActiveNavLink st))))
  ∧ (∀ ys,
       NavigationManager.links_agree st →
       NavigationManager.links_agree (NavigationManager.scroll_all st ys))
  ∧ (∀ bar links secs y,
       Forall (λ l, NavigationManager.link_active l = false ∧ NavigationManager.href l ≠ "#")
         links →
       NavigationManager.links_agree (NavigationManager.construct bar links secs y)).
Proof.
  split_and!.
  - reflexivity.
  - rewrite updateActiveNavLink_section. apply find_active_last.
  - apply updateActiveNavLink_frame.
  - apply updateActiveNavLink_unchanged.
  - intros Hpre. pose proof (updateActiveNavLink_agree st Hpre) as Hagree.
    apply links_agree_spec in Hagree. split; [exact Hagree|].
    intros Hnone. rewrite updateActiveNavLink_section, (find_active_none _ _ Hnone) in Hagree.
    exact Hagree.
  - intros ys. apply scroll_all_agree.
  - apply construct_agree.
Qed.

(** The sample page scrolled to 700: the point 870 is in the second
    section, and the second link alone is active. *)
Lemma active_link_follows_section_witness :
  NavigationManager.active_links_are "#about"
    (NavigationManager.navLinks
       (NavigationManager.updateActiveNavLink
          {| NavigationManager.navbar := Some 70%Z;
             NavigationManager.navLinks := NavigationManager.sample_links;
             NavigationManager.sections := NavigationManager.sample_sections;
             NavigationManager.currentSection := "";
             NavigationManager.scrollY := 700 |})).
Proof.
  pose proof (proj1 (proj2 (proj2 (proj2 (proj2
    (active_link_follows_section
       {| NavigationManager.navbar := Some 70%Z;
          NavigationManager.navLinks := NavigationManager.sample_links;
          NavigationManager.sections := NavigationManager.sample_sections;
          NavigationManager.currentSection := "";
          NavigationManager.scrollY := 700 |})))))) as H.
  assert (Hne : NavigationManager.currentSection
            (NavigationManager.updateActiveNavLink
               {| NavigationManager.navbar := Some 70%Z;
          NavigationManager.navLinks := NavigationManager.sample_links;
          NavigationManager.sections := NavigationManager.sample_sections;
          NavigationManager.currentSection := "";
          NavigationManager.scrollY := 700 |}) ≠ "").
  { vm_compute. discriminate. }
  exact (proj1 (H (or_intror Hne))).
Defined.

(** C5 as stated fails when the markup already marks a link: at the top of
    the stale page no section holds the point 170, the computed section is
    the cached empty one, the links are not touched, and the marked link
    stays active. *)
Lemma active_link_follows_section_counterexample :
  Forall (λ s, ¬ (NavigationManager.offsetTop s
                    ≤ NavigationManager.scrollPosition NavigationManager.stale_page
                    < NavigationManager.offsetTop s + NavigationManager.offsetHeight s)%Z)
    (NavigationManager.sections NavigationManager.stale_page)
  ∧ NavigationManager.navLinks
      (NavigationManager.updateActiveNavLink NavigationManager.stale_page)
    = [ {| NavigationManager.href := "#about"; NavigationManager.link_active := true |} ]
  ∧ ¬ NavigationManager.active_links_are
        ("#" +:+ NavigationManager.currentSection
                   (NavigationManager.updateActiveNavLink NavigationManager.stale_page))
        (NavigationManager.navLinks
           (NavigationManager.updateActiveNavLink NavigationManager.stale_page)).
Proof.
  split_and!.
  - apply Forall_singleton.
    unfold NavigationManager.scrollPosition, NavigationManager.navbarHeight. simpl. lia.
  - reflexivity.
  - intros Hactive.
    specialize (Hactive {| NavigationManager.href := "#about";
                           NavigationManager.link_active := true |}).
    assert (Habsurd : "#about" = "#") by (apply Hactive; [by apply list_elem_of_singleton|done]).
    discriminate.
Qed.

(** ** Utils.debounce *)

(** Closes a goal in which a timer is looked up in an empty table. *)
Ltac no_timer H :=
  first [ by apply lookup_empty_Some in H
        | by (unfold Utils.run in H; simpl in H; apply lookup_empty_Some in H) ].

Section DebounceFacts.
Import Utils.
Context {A : Type}.
Variable wait : N.
Implicit Types (d : @debounced A) (tr : list (@event A)) (tm : gmap nat (N * A)).

Lemma run_snoc tr e : run wait (tr ++ [e]) = step wait (run wait tr) e.
Proof. unfold run. by rewrite foldl_app. Qed.

Lemma clearTimeout_lookup h tm id x :
  clearTimeout h tm !! id = Some x → tm !! id = Some x ∧ h ≠ Some id.
Proof.
  destruct h as [id'|]; simpl; [|done].
  intros Hl. apply lookup_delete_Some in Hl as [Hne Hl]. split; [done|]. congruence.
Qed.

Lemma single_timer_cleared d : single_timer d → clearTimeout (timeout d) (timers d) = ∅.
Proof.
  intros Hs. apply map_eq. intros id. rewrite lookup_empty.
  destruct (clearTimeout _ _ !! id) as [x|] eqn:Hl; [|done].
  apply clearTimeout_lookup in Hl as [Hl Hne]. by apply Hs in Hl.
Qed.

Lemma single_timer_fired d id :
  single_timer d → clearTimeout (timeout d) (delete id (timers d)) = ∅.
Proof.
  intros Hs. apply map_eq. intros id'. rewrite lookup_empty.
  destruct (clearTimeout _ _ !! id') as [x|] eqn:Hl; [|done].
  apply clearTimeout_lookup in Hl as [Hl Hne].
  apply lookup_delete_Some in Hl as [_ Hl]. by apply Hs in Hl.
Qed.

Lemma fire_cases d id :
  (fire id d = d ∧ ∀ deadline args, timers d !! id = Some (deadline, args) → (now d < deadline)%N)
  ∨ (∃ deadline args,
       timers d !! id = Some (deadline, args) ∧ (deadline ≤ now d)%N
       ∧ fire id d = {| now := now d;
                        timers := clearTimeout (timeout d) (delete id (timers d));
                        nextId := nextId d; timeout := timeout d;
                        invoked := (invoked d ++ [(now d, args)])%list |}).
Proof.
  unfold fire. destruct (timers d !! id) as [[deadline args]|] eqn:Hl.
  - destruct (N.leb_spec deadline (now d)).
    + right. eauto.
    + left. split; [done|]. intros ?? [= <- <-]. done.
  - left. split; [done|]. done.
Qed.

Lemma step_single_timer d e : single_timer d → single_timer (step wait d e).
Proof.
  intros Hs. destruct e as [args|dt|id]; simpl.
  - intros id x. unfold executedFunction. simpl.
    rewrite (single_timer_cleared d Hs).
    intros Hl. apply lookup_insert_Some in Hl as [[<- _]|[_ Hl]]; [done|].
    no_timer Hl.
  - exact Hs.
  - destruct (fire_cases d id) as [[-> _]|(deadline & args & _ & _ & ->)]; [done|].
    intros id' x. simpl. rewrite (single_timer_fired d id Hs). intros Hl. no_timer Hl.
Qed.

Lemma run_single_timer tr : single_timer (run wait tr).
Proof.
  induction tr as [|e tr IH] using rev_ind.
  - intros id x Hl. no_timer Hl.
  - rewrite run_snoc. by apply step_single_timer.
Qed.

Lemma pending_set_by_last_call tr id deadline args :
  timers (run wait tr) !! id = Some (deadline, args) → set_by_last_call wait tr deadline args.
Proof.
  revert id deadline args. induction tr as [|e tr IH] using rev_ind; intros id deadline args.
  - intros Hl. no_timer Hl.
  - rewrite run_snoc. pose proof (run_single_timer tr) as Hs.
    destruct e as [args'|dt|id']; simpl.
    + unfold executedFunction. simpl. rewrite (single_timer_cleared _ Hs).
      intros Hl. apply lookup_insert_Some in Hl as [[_ Heq]|[_ Hl]].
      * injection Heq as <- <-. exists tr, [].
        split_and!; [done|by apply Forall_nil|done|by rewrite run_snoc].
      * no_timer Hl.
    + intros Hl. destruct (IH id deadline args Hl) as (tr1 & tr2 & -> & Hq & Hd & Hi).
      exists tr1, (tr2 ++ [Elapse dt])%list. split_and!.
      * by rewrite <- app_assoc.
      * apply Forall_app. split; [done|]. by apply Forall_singleton.
      * done.
      * rewrite run_snoc. simpl. exact Hi.
    + destruct (fire_cases (run wait tr) id') as [[Hsame _]|(dl & a & _ & _ & Hfire)].
      * rewrite Hsame. intros Hl.
        destruct (IH id deadline args Hl) as (tr1 & tr2 & -> & Hq & Hd & Hi).
        exists tr1, (tr2 ++ [Fire id'])%list. split_and!.
        -- by rewrite <- app_assoc.
        -- apply Forall_app. split; [done|]. by apply Forall_singleton.
        -- done.
        -- rewrite run_snoc. simpl. rewrite Hsame. exact Hi.
      * rewrite Hfire. simpl. rewrite (single_timer_fired _ id' Hs).
        intros Hl. no_timer Hl.
Qed.

Lemma executedFunction_timers d args :
  single_timer d →
  timers (executedFunction wait args d) = {[ nextId d := ((now d + wait)%N, args) ]}.
Proof.
  intros Hs. unfold executedFunction. simpl. by rewrite (single_timer_cleared d Hs).
Qed.

Lemma call_then_fire tr args dt :
  (wait ≤ dt)%N →
  invoked (run wait (tr ++ [Call args; Elapse dt; Fire (nextId (run wait tr))]))
  = (invoked (run wait tr) ++ [((now (run wait tr) + dt)%N, args)])%list.
Proof.
  intros Hdt. unfold run at 1. rewrite foldl_app. fold (run wait tr). simpl.
  pose proof (run_single_timer tr) as Hs.
  unfold fire. simpl. rewrite (single_timer_cleared _ Hs), lookup_insert_eq.
  destruct (N.leb_spec (now (run wait tr) + wait) (now (run wait tr) + dt)); [done|lia].
Qed.
End DebounceFacts.

(** C7.  Whatever calls, waits and timer firings came before: the timer
    table holds at most the timer that [timeout] names; a call leaves
    exactly one timer, its own, due [wait] later, having cancelled the one
    before; and a firing either does nothing or invokes [func] once, with
    the arguments of the last call, at least [wait] after that call, with no
    call and no invocation between the two, and leaves no timer behind.  A
    call followed by a wait of at least [wait] and the firing of its timer
    does invoke [func] with that call's arguments. *)
Theorem debounce_invokes_last_call {A : Type} (wait : N) (tr : list (@Utils.event A))
    (id : nat) :
  Utils.single_timer (Utils.run wait tr)
  ∧ (∀ args,
       Utils.timers (Utils.executedFunction wait args (Utils.run wait tr))
       = {[ Utils.nextId (Utils.run wait tr)
              := ((Utils.now (Utils.run wait tr) + wait)%N, args) ]}
       ∧ Utils.invoked (Utils.executedFunction wait args (Utils.run wait tr))
         = Utils.invoked (Utils.run wait tr))
  ∧ (Utils.fire id (Utils.run wait tr) = Utils.run wait tr
     ∨ ∃ deadline args,
         Utils.timers (Utils.run wait tr) !! id = Some (deadline, args)
         ∧ Utils.set_by_last_call wait tr deadline args
         ∧ (deadline ≤ Utils.now (Utils.run wait tr))%N
         ∧ Utils.invoked (Utils.fire id (Utils.run wait tr))
           = (Utils.invoked (Utils.run wait tr)
                ++ [(Utils.now (Utils.run wait tr), args)])%list
         ∧ Utils.timers (Utils.fire id (Utils.run wait tr)) = ∅)
  ∧ (∀ args dt,
       (wait ≤ dt)%N →
       Utils.invoked
         (Utils.run wait
            (tr ++ [Utils.Call args; Utils.Elapse dt;
                    Utils.Fire (Utils.nextId (Utils.run wait tr))]))
       = (Utils.invoked (Utils.run wait tr)
            ++ [((Utils.now (Utils.run wait tr) + dt)%N, args)])%list).
Proof.
  pose proof (run_single_timer wait tr) as Hs. split_and!.
  - exact Hs.
  - intros args. split; [by apply executedFunction_timers|done].
  - destruct (fire_cases (Utils.run wait tr) id)
      as [[Hsame _]|(deadline & args & Hl & Hdue & Hfire)]; [by left|right].
    exists deadline, args. split_and!; [done| |done| |].
    + by eapply pending_set_by_last_call.
    + by rewrite Hfire.
    + rewrite Hfire. simpl. by apply single_timer_fired.
  - intros args dt. apply call_then_fire.
Qed.

(** A burst of two calls 100 ms apart with a 300 ms wait: the first timer
    is gone, and the second invokes [func] with the second arguments. *)
Lemma debounce_invokes_last_call_witness :
  Utils.invoked
    (Utils.run 300 [Utils.Call "first"; Utils.Elapse 100; Utils.Fire 0;
                    Utils.Call "second"; Utils.Elapse 300; Utils.Fire 1])
  = [(400%N, "second")].
Proof.
  apply (proj2 (proj2 (proj2
    (debounce_invokes_last_call 300
       [Utils.Call "first"; Utils.Elapse 100; Utils.Fire 0] 0))) "second" 300%N).
  reflexivity.
Defined.

(** ** The sample site, end to end *)

(** The data files are fetched, the projects section is rendered, and the
    second filter button is clicked. *)
Example sample_site_walkthrough :
  ∃ cache d,
    @ComponentRenderer.loadAllData SampleHost.browser SampleHost.sample_network ∅ = Ok cache
    ∧ ComponentRenderer.renderProjectsSection cache SampleHost.blank_page = Some d
    ∧ (btn_filter <$> filter_buttons d) = ["Acme"; "Globex"]
    ∧ (btn_active <$> filter_buttons d) = [true; false]
    ∧ (card_display <$> project_cards d) = [Some "block"; Some "none"; Some "block"]
    ∧ (card_no_image <$> project_cards d) = [false; true; true]
    ∧ (btn_active <$> filter_buttons (ComponentRenderer.click_filter 1 d)) = [false; true]
    ∧ (card_display <$> project_cards (ComponentRenderer.click_filter 1 d))
      = [Some "none"; Some "block"; Some "none"].
Proof.
  eexists _, _. split; [vm_compute; reflexivity|].
  split; [vm_compute; reflexivity|]. split_and!; reflexivity.
Qed.

(** * Further properties of the scripts *)

(** ** Utils.throttle *)

Section ThrottleFacts.
Import Utils.
Context {A : Type}.
Variable limit : N.
Variable func : A → @throttled A → @throttled A * option error.
Implicit Types (d : @throttled A) (tr : list (@event A)) (log : list (N * A)).

Lemma t_run_snoc tr e :
  t_run limit func (tr ++ [e]) = t_step limit func (t_run limit func tr) e.
Proof. unfold t_run. by rewrite foldl_app. Qed.

Lemma spaced_snoc log x :
  spaced limit (log ++ [x]) ↔
  spaced limit log ∧ ∀ y, last log = Some y → (y.1 + limit ≤ x.1)%N.
Proof.
  induction log as [|y log IH]; simpl.
  - split; [|done]. intros _. split; [done|]. intros y Hy. done.
  - destruct log as [|z log].
    + simpl. split.
      * intros [Hle _]. split; [done|]. by intros ? [= <-].
      * intros [_ Hlast]. split; [|done]. by apply Hlast.
    + cbn [app] in *. change (last (y :: z :: log)) with (last (z :: log)).
      rewrite IH. tauto.
Qed.

(** A call while the flag is up does nothing, whatever [func] is. *)
Lemma throttledFunction_up args d :
  inThrottle d = true → throttledFunction limit func args d = (d, None).
Proof. intros Hflag. unfold throttledFunction. by rewrite Hflag. Qed.

(** A call of a [func] that throws: the call is on record, the flag stays
    down and no timer is set. *)
Lemma throttledFunction_throws args e d :
  throws_on func args e → inThrottle d = false →
  throttledFunction limit func args d = (applied args d, Some e).
Proof.
  intros Hthrows Hflag. unfold throttledFunction. rewrite Hflag. cbn [negb].
  cbv zeta. by rewrite (Hthrows (applied args d)).
Qed.

Section Quiet.
Hypothesis func_quiet : returns_quietly func.

Lemma throttledFunction_down args d :
  inThrottle d = false →
  throttledFunction limit func args d
  = ({| t_now := t_now d;
        t_timers := <[t_nextId d := (t_now d + limit)%N]> (t_timers d);
        t_nextId := S (t_nextId d);
        inThrottle := true;
        t_invoked := (t_invoked d ++ [(t_now d, args)])%list |}, None).
Proof.
  intros Hflag. unfold throttledFunction. rewrite Hflag. cbn [negb].
  cbv zeta. by rewrite (func_quiet args (applied args d)).
Qed.

Lemma throttle_step_invariant d e :
  throttle_invariant limit d → throttle_invariant limit (t_step limit func d e).
Proof.
  intros Hinv. pose proof Hinv as (Hsp & Hup & Hdown). destruct e as [args|dt|id]; simpl.
  - destruct (inThrottle d) eqn:Hflag.
    { by rewrite throttledFunction_up. }
    rewrite throttledFunction_down by done. cbn [fst].
    destruct (Hdown eq_refl) as [Hnone Hold].
    split_and!; simpl.
    + apply spaced_snoc. split; [done|]. intros [t a] Hlast. simpl. by eapply Hold.
    + intros _. exists (t_nextId d), (t_now d), args. rewrite last_snoc, Hnone.
      split_and!; [done| |lia]. by rewrite insert_empty.
    + done.
  - unfold t_elapse. split_and!; simpl.
    + done.
    + intros Hflag. destruct (Hup Hflag) as (id & t & args & Hlast & Htm & Hle).
      exists id, t, args. split_and!; [done|done|lia].
    + intros Hflag. destruct (Hdown Hflag) as [Hnone Hold]. split; [done|].
      intros t args Hlast. specialize (Hold t args Hlast). lia.
  - unfold t_fire. destruct (t_timers d !! id) as [deadline|] eqn:Hl; [|done].
    destruct (N.leb_spec deadline (t_now d)) as [Hdue|_]; [|done].
    destruct (inThrottle d) eqn:Hflag.
    + destruct (Hup eq_refl) as (id' & t & args & Hlast & Htm & Hle).
      rewrite Htm in Hl. apply lookup_singleton_Some in Hl as [-> <-].
      split_and!; simpl; [done|done|]. intros _. split.
      * rewrite Htm. apply delete_singleton_eq.
      * intros t' args' Hlast'. rewrite Hlast in Hlast'. injection Hlast' as <- <-. done.
    + destruct (Hdown eq_refl) as [Hnone _]. rewrite Hnone in Hl.
      by apply lookup_empty_Some in Hl.
Qed.

Lemma throttle_run_invariant tr : throttle_invariant limit (t_run limit func tr).
Proof.
  induction tr as [|e tr IH] using rev_ind.
  - split_and!; [done|done|]. intros _. split; [done|]. done.
  - rewrite t_run_snoc. by apply throttle_step_invariant.
Qed.

Lemma t_step_log d e :
  t_invoked (t_step limit func d e) = t_invoked d
  ∨ ∃ args, e = Call args ∧ inThrottle d = false
            ∧ t_invoked (t_step limit func d e) = (t_invoked d ++ [(t_now d, args)])%list.
Proof.
  destruct e as [args|dt|id]; simpl.
  - destruct (inThrottle d) eqn:Hflag.
    + left. by rewrite throttledFunction_up.
    + right. exists args. by rewrite throttledFunction_down.
  - by left.
  - left. unfold t_fire. destruct (t_timers d !! id); [|done]. by destruct (_ <=? _)%N.
Qed.

Lemma t_run_first_call args tr :
  head (t_invoked (t_run limit func (Call args :: tr))) = Some (0%N, args).
Proof.
  induction tr as [|e tr IH] using rev_ind.
  - unfold t_run. cbn [foldl t_step]. by rewrite throttledFunction_down.
  - rewrite app_comm_cons, t_run_snoc.
    destruct (t_step_log (t_run limit func (Call args :: tr)) e) as [->|(a & _ & _ & ->)];
      [done|].
    destruct (t_invoked (t_run limit func (Call args :: tr))); [done|]. exact IH.
Qed.

Lemma t_release tr id args dt :
  inThrottle (t_run limit func tr) = true →
  is_Some (t_timers (t_run limit func tr) !! id) →
  (limit ≤ dt)%N →
  t_invoked (t_run limit func (tr ++ [Elapse dt; Fire id; Call args]))
  = (t_invoked (t_run limit func tr) ++ [((t_now (t_run limit func tr) + dt)%N, args)])%list.
Proof.
  intros Hflag [deadline Hl] Hdt.
  destruct (throttle_run_invariant tr) as (_ & Hup & _).
  destruct (Hup Hflag) as (id' & t & a & Hlast & Htm & Hle).
  rewrite Htm in Hl. apply lookup_singleton_Some in Hl as [-> <-].
  unfold t_run at 1. rewrite foldl_app. fold (t_run limit func tr). cbn [foldl t_step].
  assert (t_fire id (t_elapse dt (t_run limit func tr))
          = {| t_now := (t_now (t_run limit func tr) + dt)%N;
               t_timers := delete id (t_timers (t_run limit func tr));
               t_nextId := t_nextId (t_run limit func tr);
               inThrottle := false;
               t_invoked := t_invoked (t_run limit func tr) |}) as ->.
  { unfold t_fire. cbn. rewrite Htm, lookup_singleton_eq.
    destruct (N.leb_spec (t + limit) (t_now (t_run limit func tr) + dt)) as [_|Hlt];
      [done|lia]. }
  by rewrite throttledFunction_down.
Qed.
End Quiet.

(** Two calls in a row of a [func] that throws are both applied, at the
    same instant. *)
Lemma throttle_throwing_twice args e d :
  throws_on func args e → inThrottle d = false →
  t_invoked (t_step limit func (t_step limit func d (Call args)) (Call args))
  = (t_invoked d ++ [(t_now d, args); (t_now d, args)])%list.
Proof.
  intros Hthrows Hflag. cbn [t_step].
  rewrite (throttledFunction_throws args e d) by done. cbn [fst].
  rewrite (throttledFunction_throws args e (applied args d)) by done.
  cbn. by rewrite <- app_assoc.
Qed.
End ThrottleFacts.



(** ** Utils.debounce under a burst *)

Section BurstFacts.
Import Utils.
Context {A : Type}.
Variable wait : N.
Implicit Types (d : @debounced A) (tr : list (@event A)) (calls : list (A * N * list nat)).

Lemma run_app tr tr' : run wait (tr ++ tr') = foldl (step wait) (run wait tr) tr'.
Proof. unfold run. by rewrite foldl_app. Qed.

Lemma fire_early d id :
  (∀ deadline args, timers d !! id = Some (deadline, args) → (now d < deadline)%N) →
  fire id d = d.
Proof.
  intros Hearly. unfold fire. destruct (timers d !! id) as [[deadline args]|] eqn:Hl; [|done].
  specialize (Hearly deadline args eq_refl).
  destruct (N.leb_spec deadline (now d)); [lia|done].
Qed.

Lemma probes_early d (probes : list nat) :
  (∀ id deadline args, timers d !! id = Some (deadline, args) → (now d < deadline)%N) →
  foldl (step wait) d (Fire <$> probes) = d.
Proof.
  intros Hearly. induction probes as [|id probes IH]; [done|].
  simpl. rewrite fire_early; [done|]. apply Hearly.
Qed.

Lemma burst_call tr args gap (probes : list nat) :
  (gap < wait)%N →
  run wait (tr ++ Call args :: Elapse gap :: (Fire <$> probes))
  = elapse gap (executedFunction wait args (run wait tr)).
Proof.
  intros Hgap. rewrite run_app. simpl. apply probes_early.
  intros id deadline a. simpl.
  rewrite (single_timer_cleared _ (run_single_timer wait tr)).
  intros Hl. apply lookup_singleton_Some in Hl as [_ [= <- _]]. lia.
Qed.

Lemma burst_snoc calls c : burst (calls ++ [c]) = (burst calls ++ burst [c])%list.
Proof. unfold burst. by rewrite bind_app. Qed.

Lemma burst_quiet calls :
  Forall (λ c, (c.1.2 < wait)%N) calls →
  invoked (run wait (burst calls)) = []
  ∧ now (run wait (burst calls)) = burst_length calls
  ∧ nextId (run wait (burst calls)) = length calls.
Proof.
  induction calls as [|[[args gap] probes] calls IH] using rev_ind; intros Hall.
  - done.
  - apply Forall_app in Hall as [Hall Hc]. rewrite Forall_singleton in Hc. simpl in Hc.
    destruct (IH Hall) as (Hlog & Hnow & Hid).
    rewrite burst_snoc. unfold burst at 2. simpl. rewrite app_nil_r.
    rewrite (burst_call _ _ _ _ Hc). simpl. rewrite Hlog, Hnow, Hid.
    split_and!; [done| |by rewrite length_app, Nat.add_comm].
    clear. induction calls as [|c calls IH]; simpl; [lia|]. rewrite <- IH. lia.
Qed.
End BurstFacts.

(** X2.  A burst of calls to a debounced function, each followed by less
    than [wait] of quiet, invokes nothing, whatever timers the event loop
    tries in between; when a last call is followed by at least [wait] of
    quiet and its timer runs, [func] has been invoked exactly once in all,
    with the arguments of that last call. *)
Theorem debounce_burst_runs_once {A : Type} (wait : N) (calls : list (A * N * list nat))
    (args : A) (dt : N) :
  Forall (λ c, (c.1.2 < wait)%N) calls →
  (wait ≤ dt)%N →
  Utils.invoked (Utils.run wait (Utils.burst calls)) = []
  ∧ Utils.invoked
      (Utils.run wait
         (Utils.burst calls
            ++ [Utils.Call args; Utils.Elapse dt; Utils.Fire (length calls)]))
    = [((Utils.burst_length calls + dt)%N, args)].
Proof.
  intros Hall Hdt. destruct (burst_quiet wait calls Hall) as (Hlog & Hnow & Hid).
  split; [done|]. rewrite <- Hid, call_then_fire by done. by rewrite Hlog, Hnow.
Qed.

(** Three keystrokes 100 ms apart under a wait of 300 ms, the event loop
    trying every timer after each: one invocation, with the last text. *)
Lemma debounce_burst_runs_once_witness :
  Utils.invoked
    (Utils.run 300
       (Utils.burst [("p", 100%N, [0]); ("po", 100%N, [0; 1]); ("por", 100%N, [0; 1; 2])]
          ++ [Utils.Call "port"; Utils.Elapse 300; Utils.Fire 3]))
  = [(600%N, "port")].
Proof.
  assert (Hrapid : Forall (λ c : string * N * list nat, (c.1.2 < 300)%N)
                     [("p", 100%N, [0]); ("po", 100%N, [0; 1]); ("por", 100%N, [0; 1; 2])])
    by (repeat constructor).
  assert (Hquiet : (300 ≤ 300)%N) by reflexivity.
  exact (proj2 (debounce_burst_runs_once 300
    [("p", 100%N, [0]); ("po", 100%N, [0; 1]); ("por", 100%N, [0; 1; 2])] "port" 300
    Hrapid Hquiet)).
Defined.

(** ** Utils.storage: keys and removal *)

Section StorageKeys.
Context `{Host}.
Implicit Types (ls : gmap string string) (key other : string) (v : value).

Lemma storage_get_lookup ls ls' key :
  ls' !! key = ls !! key → Utils.storage_get ls' key = Utils.storage_get ls key.
Proof.
  intros Hl. unfold Utils.storage_get, Utils.localStorage_getItem. by rewrite Hl.
Qed.

Lemma storage_set_store ls key v flag ls' :
  Utils.storage_set ls key v = Ok (flag, ls') →
  (flag = true ∧ ls' = <[key := Utils.stringify_item v]> ls) ∨ (flag = false ∧ ls' = ls).
Proof.
  rewrite storage_set_cases. destruct (storage_accepts _ _ _); intros [= <- <-]; auto.
Qed.
End StorageKeys.

(** X3.  The storage helpers act on one key: [storage.set] and
    [storage.remove] leave what [storage.get] returns for every other key
    as it was; a refused [set] also leaves the key itself as it was; after
    [remove] the key reads as null; and [remove] after [set] leaves the
    store that [remove] alone would. *)
Theorem storage_keys_independent `{Host} (ls : gmap string string) (key : string)
    (v : value) (flag : bool) (ls' : gmap string string) :
  Utils.storage_set ls key v = Ok (flag, ls') →
  (∀ other, other ≠ key → Utils.storage_get ls' other = Utils.storage_get ls other)
  ∧ (flag = false → Utils.storage_get ls' key = Utils.storage_get ls key)
  ∧ (∀ other, other ≠ key →
       Utils.storage_get (Utils.storage_remove ls key) other = Utils.storage_get ls other)
  ∧ (JSON_parse "null" = Ok VNull →
     Utils.storage_get (Utils.storage_remove ls' key) key = Ok VNull)
  ∧ Utils.storage_remove ls' key = Utils.storage_remove ls key.
Proof.
  intros Hset. apply storage_set_store in Hset as [[-> ->]|[-> ->]]; split_and!.
  - intros other Hne. apply storage_get_lookup. by rewrite lookup_insert_ne.
  - done.
  - intros other Hne. apply storage_get_lookup. unfold Utils.storage_remove.
    by rewrite lookup_delete_ne.
  - intros Hnull. unfold Utils.storage_get, Utils.parse_item, Utils.localStorage_getItem,
      Utils.storage_remove. rewrite lookup_delete_eq. simpl. by rewrite Hnull.
  - unfold Utils.storage_remove. apply delete_insert_eq.
  - done.
  - done.
  - intros other Hne. apply storage_get_lookup. unfold Utils.storage_remove.
    by rewrite lookup_delete_ne.
  - intros Hnull. unfold Utils.storage_get, Utils.parse_item, Utils.localStorage_getItem,
      Utils.storage_remove. rewrite lookup_delete_eq. simpl. by rewrite Hnull.
  - done.
Qed.

(** A theme is stored next to another entry and removed again. *)
Lemma storage_keys_independent_witness :
  @Utils.storage_get SampleHost.browser
    (Utils.storage_remove
       (<["portfolio-theme" := SampleHost.quote "dark"]> {["lang" := SampleHost.quote "ar"]})
       "portfolio-theme")
    "portfolio-theme" = Ok VNull.
Proof.
  assert (Hset : @Utils.storage_set SampleHost.browser {["lang" := SampleHost.quote "ar"]}
                   "portfolio-theme" (VStr "dark")
                 = Ok (true, <["portfolio-theme" := SampleHost.quote "dark"]>
                               {["lang" := SampleHost.quote "ar"]})) by reflexivity.
  exact (proj1 (proj2 (proj2 (proj2
    (@storage_keys_independent SampleHost.browser _ _ _ _ _ Hset)))) eq_refl).
Defined.

(** ** ContactFormManager: what validation shows and what is sent *)

Section FormDisplay.
Import Utils ContactFormManager.
Implicit Types (f : field) (st : state) (fs : list field).

(** The message of validateField: a later failing check overwrites the
    message of an earlier one. *)
Lemma check_field_message f :
  (too_short f →
   (check_field f).2 = "Minimum " +:+ pretty (minLength f) +:+ " characters required.")
  ∧ (bad_email f → ¬ too_short f →
     (check_field f).2 = "Please enter a valid email address.")
  ∧ (required_but_empty f → (check_field f).2 = "This field is required.").
Proof.
  unfold check_field. split_and!.
  - intros Hshort. apply minLength_test in Hshort. by rewrite Hshort.
  - intros Hemail Hlong. apply email_test in Hemail. rewrite Hemail.
    destruct (_ && _ && (_ <? _)%Z) eqn:Hshort; [|done].
    by apply minLength_test in Hshort.
  - intros Hblank. pose proof Hblank as [_ Hnone]. apply required_test in Hblank.
    rewrite Hblank. apply nonempty_false in Hnone. rewrite Hnone.
    rewrite !andb_false_r. simpl. done.
Qed.

Lemma rejected_message f : rejected f → (check_field f).2 ≠ "".
Proof.
  intros Hrej. destruct (check_field_message f) as (Hshort & Hemail & Hblank).
  unfold rejected in Hrej.
  destruct (decide (too_short f)) as [Hs|Hs].
  { by rewrite (Hshort Hs). }
  destruct Hrej as [Hr|[He|Hs']]; [by rewrite (Hblank Hr)|by rewrite (Hemail He Hs)|done].
Qed.

Lemma validateField_shows i st f :
  fields st !! i = Some f →
  ∃ st', validateField i st = Some ((check_field f).1, st')
    ∧ fields st' = <[i := set_input_error (negb (check_field f).1) f]> (fields st)
    ∧ errors st'
      = <[parent f := (tail (messages_of st f)
                         ++ (if (check_field f).1 then [] else [(check_field f).2]))%list]>
          (errors st)
    ∧ effects st' = effects st.
Proof.
  intros Hf. unfold validateField. rewrite Hf. simpl.
  destruct (check_field f) as [isValid message] eqn:Hcheck. simpl.
  eexists. split; [done|].
  assert (Hlt : i < length (fields st)) by by eapply lookup_lt_Some.
  unfold showFieldError, clearFieldError, messages_of. rewrite Hf.
  destruct isValid; simpl.
  - by rewrite app_nil_r.
  - assert (Hmsg : message ≠ "").
    { pose proof (rejected_message f) as Hrej. rewrite Hcheck in Hrej. simpl in Hrej.
      apply Hrej. apply check_field_rejected. by rewrite Hcheck. }
    apply String.eqb_neq in Hmsg. rewrite Hmsg. simpl.
    rewrite list_lookup_insert_eq by done. simpl.
    rewrite list_insert_insert_eq, lookup_insert_eq, insert_insert_eq. done.
Qed.

Lemma validateField_tidy i st isValid st' :
  tidy st → validateField i st = Some (isValid, st') → tidy st'.
Proof.
  intros Htidy Hv. destruct (fields st !! i) as [f|] eqn:Hf.
  - destruct (validateField_shows i st f Hf) as (st1 & Hv1 & _ & Herr & _).
    rewrite Hv in Hv1. injection Hv1 as -> <-.
    unfold tidy. rewrite Herr. apply map_Forall_insert_2; [|done].
    assert (Hold : (length (messages_of st f) ≤ 1)%nat).
    { unfold messages_of. destruct (errors st !! parent f) as [l|] eqn:Hl; simpl; [|lia].
      by apply (Htidy _ _ Hl). }
    rewrite length_app. destruct (messages_of st f) as [|m [|m' ms]]; simpl in *;
      [| |lia]; destruct (check_field f).1; simpl; lia.
  - unfold validateField in Hv. by rewrite Hf in Hv.
Qed.

Lemma validate_each_tidy indices isValid st r :
  tidy st → validate_each indices isValid st = Some r → tidy r.2.
Proof.
  revert isValid st. induction indices as [|i indices IH]; intros isValid st Htidy Hrun.
  - simpl in Hrun. by injection Hrun as <-.
  - simpl in Hrun. destruct (validateField i st) as [[b st1]|] eqn:Hv; [|done].
    simpl in Hrun. eapply IH; [|exact Hrun]. by eapply validateField_tidy.
Qed.

Lemma handleSubmit_errors st st' :
  handleSubmit st = Some st' →
  ∃ isValid st1, validateForm st = Some (isValid, st1) ∧ errors st' = errors st1.
Proof.
  unfold handleSubmit. destruct (validateForm st) as [[isValid st1]|]; [|done].
  simpl. destruct isValid; simpl; intros [= <-]; eauto.
Qed.

Lemma validate_each_marks indices isValid st :
  Forall (λ i, is_Some (fields st !! i)) indices →
  ∃ r, validate_each indices isValid st = Some r
    ∧ ∀ j f, fields st !! j = Some f →
        fields r.2 !! j = Some (if bool_decide (j ∈ indices)
                                then set_input_error (negb (check_field f).1) f else f).
Proof.
  revert isValid st. induction indices as [|i indices IH]; intros isValid st Hall.
  - eexists. split; [done|]. intros j f Hj. done.
  - apply Forall_cons in Hall as [[fi Hfi] Hall].
    destruct (validateField_shows i st fi Hfi) as (st1 & Hv & Hfields & _).
    assert (Hlt : i < length (fields st)) by by eapply lookup_lt_Some.
    destruct (IH (if negb (check_field fi).1 then false else isValid) st1) as (r & Hrun & Hmarks).
    { eapply Forall_impl; [exact Hall|]. intros j [fj Hj]. simpl. rewrite Hfields.
      destruct (decide (i = j)) as [<-|Hne].
      - rewrite list_lookup_insert_eq by done. eauto.
      - rewrite list_lookup_insert_ne by done. eauto. }
    exists r. split; [simpl; by rewrite Hv|].
    intros j f Hj. destruct (decide (i = j)) as [<-|Hne].
    + assert (fi = f) as -> by congruence.
      rewrite (Hmarks i (set_input_error (negb (check_field f).1) f)).
      * rewrite (bool_decide_eq_true_2 (i ∈ i :: indices)) by (apply elem_of_cons; by left).
        by destruct (bool_decide (i ∈ indices)).
      * rewrite Hfields. by apply list_lookup_insert_eq.
    + rewrite (Hmarks j f).
      * f_equal. destruct (decide (j ∈ indices)) as [Hin|Hout].
        -- rewrite !bool_decide_eq_true_2; [done|apply elem_of_cons; by right|done].
        -- rewrite !bool_decide_eq_false_2; [done| |done].
           intros Hin. apply elem_of_cons in Hin as [->|Hin]; done.
      * rewrite Hfields. by rewrite list_lookup_insert_ne.
Qed.

Lemma formData_erased fs : formData (set_input_error false <$> fs) = formData fs.
Proof.
  unfold formData. f_equal. f_equal.
  induction fs as [|f fs IH]; [done|].
  rewrite fmap_cons. cbn [List.filter]. change (name (set_input_error false f)) with (name f).
  destruct (negb (String.eqb (name f) "")); [|exact IH].
  rewrite !fmap_cons. f_equal. exact IH.
Qed.

Lemma formData_same fs fs' : same_inputs fs fs' → formData fs = formData fs'.
Proof. unfold same_inputs. intros Hsame. by rewrite <- formData_erased, Hsame, formData_erased. Qed.

Lemma defaults_same fs fs' :
  same_inputs fs fs' → defaultValue <$> fs = defaultValue <$> fs'.
Proof.
  unfold same_inputs. intros Hsame.
  assert (Herase : ∀ l : list field,
             defaultValue <$> (set_input_error false <$> l) = defaultValue <$> l).
  { intros l. by rewrite <- list_fmap_compose. }
  by rewrite <- Herase, Hsame, Herase.
Qed.
End FormDisplay.

(** X4.  [validateField] sets the error class on its field exactly when it
    turns the field down and touches no other field; it first removes the
    first message under the field's parent and then, if the field is turned
    down, appends one message there: the minimum-length message when the
    value is too short, even if it is also a malformed address, the address
    message otherwise for a malformed address, and the required message for
    a blank required field.  Messages under other parents stay. *)
Theorem validateField_shows_last_failure (st : ContactFormManager.state) (i : nat)
    (f : ContactFormManager.field) :
  ContactFormManager.fields st !! i = Some f →
  ∃ isValid st',
    ContactFormManager.validateField i st = Some (isValid, st')
    ∧ ContactFormManager.fields st'
      = <[i := ContactFormManager.set_input_error (negb isValid) f]>
          (ContactFormManager.fields st)
    ∧ (isValid = true →
       ContactFormManager.messages_of st' f = tail (ContactFormManager.messages_of st f))
    ∧ (ContactFormManager.too_short f →
       ContactFormManager.messages_of st' f
       = (tail (ContactFormManager.messages_of st f)
            ++ ["Minimum " +:+ pretty (ContactFormManager.minLength f)
                +:+ " characters required."])%list)
    ∧ (ContactFormManager.bad_email f → ¬ ContactFormManager.too_short f →
       ContactFormManager.messages_of st' f
       = (tail (ContactFormManager.messages_of st f)
            ++ ["Please enter a valid email address."])%list)
    ∧ (ContactFormManager.required_but_empty f →
       ContactFormManager.messages_of st' f
       = (tail (ContactFormManager.messages_of st f) ++ ["This field is required."])%list)
    ∧ (∀ p, p ≠ ContactFormManager.parent f →
            ContactFormManager.errors st' !! p = ContactFormManager.errors st !! p).
Proof.
  intros Hf. destruct (validateField_shows i st f Hf) as (st' & Hv & Hfields & Herr & _).
  destruct (check_field_message f) as (Hshort & Hemail & Hblank).
  assert (Hmsgs : ContactFormManager.messages_of st' f
                  = (tail (ContactFormManager.messages_of st f)
                       ++ (if (ContactFormManager.check_field f).1 then []
                           else [(ContactFormManager.check_field f).2]))%list).
  { unfold ContactFormManager.messages_of at 1. by rewrite Herr, lookup_insert_eq. }
  assert (Hrej : ContactFormManager.rejected f →
                 ContactFormManager.messages_of st' f
                 = (tail (ContactFormManager.messages_of st f)
                      ++ [(ContactFormManager.check_field f).2])%list).
  { intros Hr. apply check_field_rejected in Hr. by rewrite Hmsgs, Hr. }
  exists (ContactFormManager.check_field f).1, st'. split_and!; try done.
  - intros Hvalid. by rewrite Hmsgs, Hvalid, app_nil_r.
  - intros Hs. rewrite Hrej, (Hshort Hs); [done|]. right. by right.
  - intros He Hs. rewrite Hrej, (Hemail He Hs); [done|]. right. by left.
  - intros Hr. rewrite Hrej, (Hblank Hr); [done|]. by left.
  - intros p Hp. rewrite Herr. by rewrite lookup_insert_ne.
Qed.

(** The message field of the sample form, two characters long where ten are
    asked for. *)
Lemma validateField_shows_last_failure_witness :
  ∃ isValid st',
    ContactFormManager.validateField 2
      (ContactFormManager.sample_form [97; 64; 98]%N [104; 105]%N) = Some (isValid, st')
    ∧ ContactFormManager.errors st' !! 2 = Some ["Minimum 10 characters required."].
Proof.
  destruct (validateField_shows_last_failure
              (ContactFormManager.sample_form [97; 64; 98]%N [104; 105]%N) 2
              (ContactFormManager.sample_field "message" "textarea" 10 [104; 105]%N 2)
              eq_refl)
    as (isValid & st' & Hv & _ & _ & Hshort & _).
  exists isValid, st'. split; [done|].
  assert (Hs : ContactFormManager.too_short
                 (ContactFormManager.sample_field "message" "textarea" 10 [104; 105]%N 2)).
  { split; [done|]. split; [by vm_compute|]. by vm_compute. }
  specialize (Hshort Hs). unfold ContactFormManager.messages_of in Hshort. simpl in Hshort.
  destruct (ContactFormManager.errors st' !! 2) as [l|]; simpl in Hshort; [by rewrite Hshort|].
  discriminate.
Defined.

(** X5.  [validateForm] does not stop at the first failure: afterwards
    every required field carries the error class exactly when it is turned
    down, and the fields that are not required are as they were. *)
Theorem validateForm_marks_every_required_field (st : ContactFormManager.state) :
  ∃ isValid st',
    ContactFormManager.validateForm st = Some (isValid, st')
    ∧ ∀ j f, ContactFormManager.fields st !! j = Some f →
        ∃ f', ContactFormManager.fields st' !! j = Some f'
          ∧ ContactFormManager.value f' = ContactFormManager.value f
          ∧ (ContactFormManager.required f = true →
             (ContactFormManager.input_error f' = true ↔ ContactFormManager.rejected f))
          ∧ (ContactFormManager.required f = false → f' = f).
Proof.
  destruct (validate_each_marks
              (ContactFormManager.required_indices (ContactFormManager.fields st)) true st)
    as ([isValid st'] & Hrun & Hmarks).
  { apply Forall_forall. intros i Hi.
    apply elem_of_required_indices in Hi as (f & Hf & _). eauto. }
  exists isValid, st'. split; [exact Hrun|].
  intros j f Hj. specialize (Hmarks j f Hj). simpl in Hmarks.
  eexists. split; [exact Hmarks|].
  destruct (ContactFormManager.required f) eqn:Hreq.
  - rewrite bool_decide_eq_true_2 by (apply elem_of_required_indices; eauto).
    split_and!; [done| |done]. intros _. simpl.
    rewrite negb_true_iff. apply check_field_rejected.
  - rewrite bool_decide_eq_false_2.
    + split_and!; [done|done|done].
    + intros Hin. apply elem_of_required_indices in Hin as (f0 & Hf0 & Hr0). congruence.
Qed.

(** X6.  Validation never piles messages up: if no parent element holds
    more than one error message, that is still so after [validateField],
    after [validateForm] and after [handleSubmit]. *)
Theorem validation_keeps_one_message (st : ContactFormManager.state) :
  ContactFormManager.tidy st →
  (∀ i isValid st', ContactFormManager.validateField i st = Some (isValid, st') →
                    ContactFormManager.tidy st')
  ∧ (∀ isValid st', ContactFormManager.validateForm st = Some (isValid, st') →
                    ContactFormManager.tidy st')
  ∧ (∀ st', ContactFormManager.handleSubmit st = Some st' → ContactFormManager.tidy st').
Proof.
  intros Htidy. split_and!.
  - intros i isValid st'. by apply validateField_tidy.
  - intros isValid st' Hv.
    apply (validate_each_tidy _ _ _ (isValid, st') Htidy Hv).
  - intros st' Hs. apply handleSubmit_errors in Hs as (isValid & st1 & Hv & Herr).
    unfold ContactFormManager.tidy. rewrite Herr.
    apply (validate_each_tidy _ _ _ (isValid, st1) Htidy Hv).
Qed.

(** The sample form, submitted twice with a malformed address: still one
    message under the address field. *)
Lemma validation_keeps_one_message_witness :
  ∃ st', ContactFormManager.handleSubmit
           (ContactFormManager.sample_form [97; 64; 98]%N [104; 105]%N) = Some st'
         ∧ ContactFormManager.tidy st'.
Proof.
  destruct (ContactFormManager.handleSubmit
              (ContactFormManager.sample_form [97; 64; 98]%N [104; 105]%N))
    as [st'|] eqn:Hsubmit; [|by vm_compute in Hsubmit].
  exists st'. split; [reflexivity|].
  exact (proj2 (proj2 (validation_keeps_one_message
                         (ContactFormManager.sample_form [97; 64; 98]%N [104; 105]%N)
                         (map_Forall_empty _))) st' Hsubmit).
Defined.



(** ** ComponentRenderer: rendering again, and what each section writes *)

Section Rendering.
Import ComponentRenderer.
Implicit Types (cache : gmap string value) (d : document) (projects : list Project).

Lemma mark_missing_images_from (before projects : list Project) :
  mark_missing_images (before ++ projects) (length before) (render_project_card <$> projects)
  = Some (marked_card <$> projects).
Proof.
  revert before. induction projects as [|p projects IH]; intros before; [done|].
  rewrite !fmap_cons. cbn [mark_missing_images].
  rewrite lookup_app_r, Nat.sub_diag by lia. cbn [lookup list_lookup mbind option_bind].
  specialize (IH (before ++ [p])%list). rewrite <- app_assoc, length_app in IH.
  cbn [app length] in IH. rewrite Nat.add_1_r in IH. rewrite IH.
  cbn [mbind option_bind]. unfold marked_card. by destruct (project_image p).
Qed.

Lemma mark_missing_images_render projects :
  mark_missing_images projects 0 (render_project_card <$> projects)
  = Some (marked_card <$> projects).
Proof. apply (mark_missing_images_from [] projects). Qed.

Lemma renderProjectsSection_rendered cache d data projects :
  cache !! "projects" = Some data →
  as_list read_project data = Some projects →
  is_Some (projects_grid d) →
  renderProjectsSection cache d = Some (rendered_projects projects d).
Proof.
  intros Hdata Hread [cards0 Hgrid].
  unfold renderProjectsSection. rewrite Hdata, (as_list_truthy _ _ _ Hread).
  cbn [negb]. rewrite Hgrid, Hread. cbn [mbind option_bind].
  unfold handleProjectImages. cbn [projects_grid set_projects_grid].
  rewrite mark_missing_images_render. cbn [mbind option_bind].
  unfold rendered_projects, generateProjectFilters, initProjectFiltering, filter_buttons,
    project_cards, with_cards.
  destruct (project_filters d) as [buttons0|] eqn:Hfilters.
  - cbn [project_filters set_projects_grid set_project_filters default].
    destruct (imap filter_button (distinct (project_company <$> projects))); done.
  - cbn [project_filters set_projects_grid default]. rewrite Hfilters. done.
Qed.

(** Closes a [same_frame] goal between two pages written out. *)
Ltac frame :=
  split;
  [ intros c; destruct c; simpl;
    repeat match goal with H : ?x = _ |- context [?x] => rewrite H end; done
  | intros c Hc; destruct c; simpl; try done; exfalso; apply Hc; by repeat constructor ].

Lemma present_iff (A : Type) (o o' : option A) :
  bool_decide (is_Some o') = bool_decide (is_Some o) → (is_Some o' ↔ is_Some o).
Proof. intros Hb. destruct o, o'; try done; simpl in Hb; by rewrite ?bool_decide_eq_true_2, ?bool_decide_eq_false_2 in Hb by (rewrite ?is_Some_alt; eauto). Qed.

Lemma same_frame_refl own d : same_frame own d d.
Proof. split; [done|]. by intros []. Qed.

Lemma same_frame_trans own d1 d2 d3 :
  same_frame own d1 d2 → same_frame own d2 d3 → same_frame own d1 d3.
Proof.
  intros [Hp1 Hu1] [Hp2 Hu2]. split.
  - intros c. by rewrite Hp2, Hp1.
  - intros c Hc. specialize (Hu1 c Hc). specialize (Hu2 c Hc).
    destruct c; simpl in *; congruence.
Qed.

Lemma rendered_projects_frame projects d :
  is_Some (projects_grid d) →
  same_frame [ProjectFilters; ProjectsGrid] d (rendered_projects projects d).
Proof.
  intros [cards Hg]. unfold rendered_projects.
  destruct (project_filters d) eqn:Hf;
    [destruct (imap filter_button (distinct (project_company <$> projects)))|];
    frame.
Qed.

Lemma click_filter_frame i d : same_frame [ProjectFilters; ProjectsGrid] d (click_filter i d).
Proof.
  unfold click_filter. destruct (filter_buttons d !! i); [|apply same_frame_refl].
  unfold with_cards, with_buttons.
  destruct (project_filters d) eqn:Hf; cbn [projects_grid set_project_filters];
    destruct (projects_grid d) eqn:Hg; frame.
Qed.

Lemma click_all_frame clicks d : same_frame [ProjectFilters; ProjectsGrid] d (click_all clicks d).
Proof.
  unfold click_all. revert d. induction clicks as [|i clicks IH]; intros d.
  - apply same_frame_refl.
  - cbn [foldl]. eapply same_frame_trans; [apply click_filter_frame|apply IH].
Qed.

Lemma rendered_projects_same projects d d2 :
  (is_Some (project_filters d2) ↔ is_Some (project_filters d)) →
  (∀ c, c ∉ [ProjectFilters; ProjectsGrid] → untouched c d d2) →
  rendered_projects projects d2 = rendered_projects projects d.
Proof.
  intros Hpf Hframe.
  assert (∀ c, c ≠ ProjectFilters → c ≠ ProjectsGrid → untouched c d d2) as Hu.
  { intros c H1 H2. apply Hframe. rewrite !not_elem_of_cons.
    split_and!; [done|done|apply not_elem_of_nil]. }
  pose proof (Hu AboutBio ltac:(done) ltac:(done)).
  pose proof (Hu ExperienceTimeline ltac:(done) ltac:(done)).
  pose proof (Hu SkillsContent ltac:(done) ltac:(done)).
  pose proof (Hu CertificationsGrid ltac:(done) ltac:(done)).
  pose proof (Hu ContactCards ltac:(done) ltac:(done)).
  pose proof (Hu FooterSocial ltac:(done) ltac:(done)).
  clear Hu Hframe.
  destruct d as [bio filters grid timeline skills certifications cards social].
  destruct d2 as [bio2 filters2 grid2 timeline2 skills2 certifications2 cards2 social2].
  simpl in *. subst.
  unfold rendered_projects, set_projects_grid, set_project_filters. simpl.
  destruct filters, filters2.
  - by destruct (imap _ _).
  - exfalso. destruct Hpf as [H1 H2].
    first [by destruct H1 as [? ?]; [eauto|] | by destruct H2 as [? ?]; [eauto|]].
  - exfalso. destruct Hpf as [H1 H2].
    first [by destruct H1 as [? ?]; [eauto|] | by destruct H2 as [? ?]; [eauto|]].
  - done.
Qed.

Lemma rendered_projects_grid projects d : is_Some (projects_grid (rendered_projects projects d)).
Proof.
  unfold rendered_projects. destruct (project_filters d); [destruct (imap _ _)|]; simpl; eauto.
Qed.

Lemma rendered_projects_filters projects d :
  is_Some (project_filters (rendered_projects projects d)) ↔ is_Some (project_filters d).
Proof.
  unfold rendered_projects.
  destruct (project_filters d) eqn:Hf; [destruct (imap _ _)|]; simpl; rewrite ?Hf; split; eauto.
Qed.

Lemma rendered_projects_others projects d c :
  c ∉ [ProjectFilters; ProjectsGrid] → untouched c d (rendered_projects projects d).
Proof.
  intros Hc. unfold rendered_projects.
  destruct (project_filters d) eqn:Hf; [destruct (imap _ _)|];
    destruct c; simpl; try done; exfalso; apply Hc; by repeat constructor.
Qed.

Lemma rendered_projects_again projects d d2 :
  same_frame [ProjectFilters; ProjectsGrid] (rendered_projects projects d) d2 →
  rendered_projects projects d2 = rendered_projects projects d.
Proof.
  intros [Hp Hu]. apply rendered_projects_same.
  - rewrite <- (rendered_projects_filters projects d). apply present_iff, (Hp ProjectFilters).
  - intros c Hc. specialize (Hu c Hc). pose proof (rendered_projects_others projects d c Hc).
    destruct c; simpl in *; congruence.
Qed.

(** X8: refreshing the projects after any clicks on the filter buttons gives
    back the page as it was first rendered: the first company is selected
    again, whatever the visitor had chosen. *)
Theorem refresh_projects_resets_filter cache d data projects :
  cache !! "projects" = Some data →
  as_list read_project data = Some projects →
  is_Some (projects_grid d) →
  ∃ d', renderProjectsSection cache d = Some d'
    ∧ ∀ clicks, refreshComponent "projects" cache (click_all clicks d') = Some d'.
Proof.
  intros Hdata Hread Hgrid. exists (rendered_projects projects d).
  split; [by eapply renderProjectsSection_rendered|].
  intros clicks. change (refreshComponent "projects" cache ?x) with (renderProjectsSection cache x).
  pose proof (click_all_frame clicks (rendered_projects projects d)) as Hframe.
  rewrite (renderProjectsSection_rendered _ _ data projects Hdata Hread).
  - f_equal. by apply rendered_projects_again.
  - destruct Hframe as [Hp _]. apply (present_iff _ _ _ (Hp ProjectsGrid)).
    apply rendered_projects_grid.
Qed.

Lemma components_cases key (render : gmap string value → document → option document) :
  (key, render) ∈ components →
  (key = "about" ∧ render = renderAboutSection)
  ∨ (key = "projects" ∧ render = renderProjectsSection)
  ∨ (key = "experience" ∧ render = renderExperienceSection)
  ∨ (key = "skills" ∧ render = renderSkillsSection)
  ∨ (key = "certifications" ∧ render = renderCertificationsSection)
  ∨ (key = "contact" ∧ render = renderContactSection).
Proof.
  unfold components. rewrite !elem_of_cons, elem_of_nil.
  intros [Hc|[Hc|[Hc|[Hc|[Hc|[Hc|[]]]]]]]; injection Hc as -> ->; tauto.
Qed.

Lemma renderProjectsSection_cases cache d d' :
  renderProjectsSection cache d = Some d' →
  d' = d ∨ ∃ data projects, cache !! "projects" = Some data
             ∧ as_list read_project data = Some projects
             ∧ is_Some (projects_grid d)
             ∧ d' = rendered_projects projects d.
Proof.
  intros Hrender. pose proof Hrender as Hcopy. unfold renderProjectsSection in Hcopy.
  destruct (cache !! "projects") as [data|] eqn:Hdata; [|left; congruence].
  destruct (truthy data); cbn [negb] in Hcopy; [|left; congruence].
  destruct (projects_grid d) eqn:Hgrid; [|left; congruence].
  destruct (as_list read_project data) as [projects|] eqn:Hread; [|done].
  right. exists data, projects. split_and!; [done|done|eauto|].
  rewrite (renderProjectsSection_rendered _ _ data projects) in Hrender by eauto. congruence.
Qed.

(** Splits the run of one of the five sections that write one or two
    containers directly. *)
Ltac section_cases H :=
  repeat match type of H with
         | context [match ?x with _ => _ end] => destruct x eqn:?
         | context [if ?x then _ else _] => destruct x eqn:?
         | context [?x ≫= _] => destruct x eqn:?; cbn [mbind option_bind] in H
         end;
  simplify_eq/=.


Lemma refresh_projects_resets_filter_witness :
  ∃ d', renderProjectsSection SampleHost.sample_cache SampleHost.blank_page = Some d'
    ∧ refreshComponent "projects" SampleHost.sample_cache (click_all [1; 0; 1] d') = Some d'.
Proof.
  assert (SampleHost.sample_cache !! "projects" = Some SampleHost.sample_projects) as Hdata
    by reflexivity.
  assert (as_list read_project SampleHost.sample_projects = Some SampleHost.sample_project_list)
    as Hread by reflexivity.
  assert (is_Some (projects_grid SampleHost.blank_page)) as Hgrid by (by eexists).
  destruct (refresh_projects_resets_filter _ _ _ _ Hdata Hread Hgrid) as (d' & Hrender & Hclicks).
  exists d'. split; [exact Hrender|exact (Hclicks [1; 0; 1]%nat)].
Defined.


(** Rewrites with the equations that a case split left in the context. *)
Ltac with_equations :=
  repeat match goal with H : ?x = _ |- context [?x] => rewrite H end.

(** X10: each of the six render functions gives the same page when it runs
    a second time on its own result. *)
Theorem render_twice_changes_nothing key render cache d d' :
  (key, render) ∈ components →
  render cache d = Some d' →
  render cache d' = Some d'.
Proof.
  intros Hin Hrender.
  destruct (components_cases _ _ Hin) as [[-> ->]|[[-> ->]|[[-> ->]|[[-> ->]|[[-> ->]|[-> ->]]]]]].
  - unfold renderAboutSection in Hrender. section_cases Hrender;
      unfold renderAboutSection; simpl; with_equations; done.
  - destruct (renderProjectsSection_cases _ _ _ Hrender)
      as [->|(data & projects & Hdata & Hread & Hgrid & ->)]; [done|].
    rewrite (renderProjectsSection_rendered _ _ data projects Hdata Hread).
    + f_equal. apply rendered_projects_again, same_frame_refl.
    + apply rendered_projects_grid.
  - unfold renderExperienceSection in Hrender. section_cases Hrender;
      unfold renderExperienceSection; simpl; with_equations; done.
  - unfold renderSkillsSection in Hrender. section_cases Hrender;
      unfold renderSkillsSection; simpl; with_equations; done.
  - unfold renderCertificationsSection in Hrender. section_cases Hrender;
      unfold renderCertificationsSection; simpl; with_equations; done.
  - unfold renderContactSection, renderFooterSocial in Hrender.
    destruct (cache !! "contact") as [data|] eqn:Hdata;
      [|simplify_eq; unfold renderContactSection; by rewrite Hdata].
    destruct (truthy data) eqn:Htruthy; cbn [negb] in Hrender;
      [|simplify_eq; unfold renderContactSection; by rewrite Hdata, Htruthy].
    destruct (as_list read_contact data) as [contacts|] eqn:Hread; [|done].
    cbn [mbind option_bind] in Hrender.
    unfold renderContactSection, renderFooterSocial. rewrite Hdata, Htruthy, Hread.
    cbn [negb mbind option_bind].
    destruct (contact_cards d) eqn:Hcards; cbn [footer_social set_contact_cards] in Hrender;
      destruct (footer_social d) eqn:Hfooter; simplify_eq; simpl; with_equations; done.
Qed.

Lemma render_twice_changes_nothing_witness :
  ∃ d', renderProjectsSection SampleHost.sample_cache SampleHost.blank_page = Some d'
    ∧ renderProjectsSection SampleHost.sample_cache d' = Some d'.
Proof.
  assert (("projects", renderProjectsSection) ∈ components) as Hin
    by (unfold components; by repeat constructor).
  destruct (renderProjectsSection SampleHost.sample_cache SampleHost.blank_page)
    as [d'|] eqn:Hrender; [|by vm_compute in Hrender].
  exists d'. split; [reflexivity|].
  exact (render_twice_changes_nothing "projects" renderProjectsSection _ _ _ Hin Hrender).
Defined.

Lemma rendered_projects_cards projects d :
  project_cards (rendered_projects projects d)
  = match project_filters d, distinct (project_company <$> projects) with
    | Some _, company :: _ => applyProjectFilter (marked_card <$> projects) company
    | _, _ => marked_card <$> projects
    end.
Proof.
  unfold rendered_projects, project_cards.
  destruct (project_filters d); [|done].
  destruct (distinct (project_company <$> projects)); done.
Qed.

Lemma rendered_projects_buttons projects d :
  is_Some (project_filters d) →
  btn_filter <$> filter_buttons (rendered_projects projects d)
  = distinct (project_company <$> projects).
Proof.
  intros [buttons0 Hf]. unfold rendered_projects, filter_buttons. rewrite Hf.
  pose proof (filter_button_filters (distinct (project_company <$> projects))) as Hfb.
  destruct (imap filter_button (distinct (project_company <$> projects))); exact Hfb.
Qed.

Lemma marked_card_spec p :
  card_project (marked_card p) = p
  ∧ card_company (marked_card p) = project_company p
  ∧ card_display (marked_card p) = None
  ∧ (card_no_image (marked_card p) = true ↔ project_image p = None).
Proof. unfold marked_card. destruct (project_image p); simpl; split_and!; done. Qed.

(** X11: let the fields of the projects be plain text, so that the page
    holds the markup as the template wrote it.  Right after the projects are
    rendered there is one card per project, in the order of the data; each
    card carries its project's company, and the no-image class exactly when
    the project names no image.  On a page without the filter container
    every card keeps its default display. *)
Theorem rendered_cards_follow_projects cache d data projects :
  cache !! "projects" = Some data →
  as_list read_project data = Some projects →
  Forall (λ p, plain_project p = true) projects →
  is_Some (projects_grid d) →
  ∃ d', renderProjectsSection cache d = Some d'
    ∧ card_project <$> project_cards d' = projects
    ∧ (∀ c, c ∈ project_cards d' →
         card_company c = project_company (card_project c)
         ∧ (card_no_image c = true ↔ project_image (card_project c) = None))
    ∧ (project_filters d = None → ∀ c, c ∈ project_cards d' → card_display c = None).
Proof.
  intros Hdata Hread _ Hgrid. exists (rendered_projects projects d).
  split; [by eapply renderProjectsSection_rendered|].
  rewrite rendered_projects_cards.
  assert (∀ shown, (shown = marked_card <$> projects
                    ∨ ∃ company, shown = applyProjectFilter (marked_card <$> projects) company) →
            card_project <$> shown = projects
            ∧ ∀ c, c ∈ shown →
                card_company c = project_company (card_project c)
                ∧ (card_no_image c = true ↔ project_image (card_project c) = None))
    as Hshown.
  { intros shown Hcases.
    assert (∃ f : project_card → project_card,
              shown = f <$> (marked_card <$> projects)
              ∧ ∀ c, card_project (f c) = card_project c ∧ card_company (f c) = card_company c
                     ∧ card_no_image (f c) = card_no_image c) as (f & -> & Hf).
    { destruct Hcases as [->|[company ->]].
      - exists id. by rewrite list_fmap_id.
      - by exists (show_if_company company). }
    split.
    - rewrite <- !list_fmap_compose. rewrite <- (list_fmap_id projects) at 2.
      apply list_fmap_ext. intros i p _. simpl.
      destruct (Hf (marked_card p)) as (-> & _). apply marked_card_spec.
    - intros c Hin. apply list_elem_of_fmap in Hin as (c0 & -> & Hin).
      apply list_elem_of_fmap in Hin as (p & -> & _).
      destruct (Hf (marked_card p)) as (-> & -> & ->).
      destruct (marked_card_spec p) as (-> & -> & _ & Himage). done. }
  destruct (project_filters d) as [buttons0|] eqn:Hfilters.
  - destruct (distinct (project_company <$> projects)) as [|company companies].
    + destruct (Hshown (marked_card <$> projects)) as [Ha Hb]; [by left|]. done.
    + destruct (Hshown (applyProjectFilter (marked_card <$> projects) company)) as [Ha Hb];
        [right; by eexists|]. done.
  - destruct (Hshown (marked_card <$> projects)) as [Ha Hb]; [by left|].
    split_and!; [done|done|]. intros _ c Hin.
    apply list_elem_of_fmap in Hin as (p & -> & _). apply marked_card_spec.
Qed.

Lemma rendered_cards_follow_projects_witness :
  ∃ d', renderProjectsSection SampleHost.sample_cache SampleHost.blank_page = Some d'
    ∧ card_project <$> project_cards d' = SampleHost.sample_project_list.
Proof.
  assert (SampleHost.sample_cache !! "projects" = Some SampleHost.sample_projects) as Hdata
    by reflexivity.
  assert (as_list read_project SampleHost.sample_projects = Some SampleHost.sample_project_list)
    as Hread by reflexivity.
  assert (Forall (λ p, plain_project p = true) SampleHost.sample_project_list) as Hplain
    by (repeat constructor).
  assert (is_Some (projects_grid SampleHost.blank_page)) as Hgrid by (by eexists).
  destruct (rendered_cards_follow_projects _ _ _ _ Hdata Hread Hplain Hgrid)
    as (d' & Hrender & Hcards & _).
  exists d'. split; [exact Hrender|exact Hcards].
Defined.

Lemma distinct_from_spec seen xs :
  NoDup seen →
  NoDup (distinct_from seen xs)
  ∧ ∀ x, x ∈ distinct_from seen xs ↔ x ∈ xs ∧ x ∉ seen.
Proof.
  revert seen. induction xs as [|y xs IH]; intros seen Hseen; cbn [distinct_from].
  - split; [constructor|]. intros x. rewrite elem_of_nil. tauto.
  - destruct (bool_decide_reflect (y ∈ seen)) as [Hy|Hy].
    + destruct (IH seen Hseen) as [Hnd Hmem]. split; [done|].
      intros x. rewrite Hmem, elem_of_cons. split; [tauto|].
      intros [[->|Hx] Hnot]; [done|tauto].
    + destruct (IH (y :: seen)) as [Hnd Hmem]; [by constructor|]. split.
      * constructor; [|done]. rewrite Hmem, elem_of_cons. tauto.
      * intros x. rewrite !elem_of_cons, Hmem, elem_of_cons.
        destruct (decide (x = y)) as [->|Hne]; tauto.
Qed.

Lemma distinct_spec xs : NoDup (distinct xs) ∧ ∀ x, x ∈ distinct xs ↔ x ∈ xs.
Proof.
  destruct (distinct_from_spec [] xs) as [Hnd Hmem]; [constructor|].
  split; [done|]. intros x. rewrite Hmem, elem_of_nil. tauto.
Qed.

(** X12: let the fields of the projects be plain text, so that the page
    holds the markup as the templates wrote it.  When the page has both
    project containers, no two filter buttons carry the same company, and a
    company has a button exactly when one of the cards belongs to it; with
    no projects there is no button at all. *)
Theorem filter_buttons_cover_companies cache d data projects :
  cache !! "projects" = Some data →
  as_list read_project data = Some projects →
  Forall (λ p, plain_project p = true) projects →
  is_Some (project_filters d) →
  is_Some (projects_grid d) →
  ∃ d', renderProjectsSection cache d = Some d'
    ∧ NoDup (btn_filter <$> filter_buttons d')
    ∧ (∀ company, company ∈ btn_filter <$> filter_buttons d'
                  ↔ company ∈ card_company <$> project_cards d')
    ∧ (filter_buttons d' = [] ↔ project_cards d' = []).
Proof.
  intros Hdata Hread _ Hfilters Hgrid. exists (rendered_projects projects d).
  split; [by eapply renderProjectsSection_rendered|].
  assert (card_company <$> project_cards (rendered_projects projects d)
          = project_company <$> projects) as Hcompanies.
  { rewrite rendered_projects_cards. destruct (project_filters d);
      [destruct (distinct _)|]; rewrite ?applyProjectFilter_company, <- list_fmap_compose;
      apply list_fmap_ext; intros i p _; apply marked_card_spec. }
  pose proof (rendered_projects_buttons projects d Hfilters) as Hbuttons.
  destruct (distinct_spec (project_company <$> projects)) as [Hnd Hmem].
  rewrite Hbuttons, Hcompanies. split_and!; [done|done|].
  split; intros Hnil.
  - apply (fmap_nil_inv card_company). rewrite Hcompanies.
    apply (f_equal (fmap btn_filter)) in Hnil. rewrite Hbuttons in Hnil.
    destruct projects as [|p projects]; [done|].
    by rewrite fmap_cons, distinct_cons in Hnil.
  - apply (fmap_nil_inv btn_filter). rewrite Hbuttons.
    apply (f_equal (fmap card_company)) in Hnil. rewrite Hcompanies in Hnil.
    by destruct projects.
Qed.

Lemma filter_buttons_cover_companies_witness :
  ∃ d', renderProjectsSection SampleHost.sample_cache SampleHost.blank_page = Some d'
    ∧ NoDup (btn_filter <$> filter_buttons d').
Proof.
  assert (SampleHost.sample_cache !! "projects" = Some SampleHost.sample_projects) as Hdata
    by reflexivity.
  assert (as_list read_project SampleHost.sample_projects = Some SampleHost.sample_project_list)
    as Hread by reflexivity.
  assert (is_Some (project_filters SampleHost.blank_page)) as Hfilters by (by eexists).
  assert (is_Some (projects_grid SampleHost.blank_page)) as Hgrid by (by eexists).
  assert (Forall (λ p, plain_project p = true) SampleHost.sample_project_list) as Hplain
    by (repeat constructor).
  destruct (filter_buttons_cover_companies _ _ _ _ Hdata Hread Hplain Hfilters Hgrid)
    as (d' & Hrender & Hnd & _).
  exists d'. split; [exact Hrender|exact Hnd].
Defined.
End Rendering.

(** ** ComponentRenderer.init without the network *)

Section InitFacts.
Context `{Host}.
Import ComponentRenderer.

Lemma fetchData_failed net file : request_fails net file → Utils.fetchData net file = Ok VNull.
Proof.
  unfold request_fails, Utils.fetchData, try_catch. destruct (net file) as [r|e]; simpl; [|done].
  by intros ->.
Qed.

Lemma load_files_failed net files cache :
  (∀ file, file ∈ files → request_fails net file) → load_files net files cache = Ok cache.
Proof.
  induction files as [|file files IH]; intros Hfail; [done|].
  cbn [load_files]. unfold load_file.
  rewrite (fetchData_failed net file) by (apply Hfail; by left). simpl.
  apply IH. intros file' Hin. apply Hfail. by right.
Qed.

End InitFacts.


(** ** PortfolioApp: waiting for the components *)

Section Waiting.
Import PortfolioApp.
Implicit Types (ready : nat → bool) (fuel check : nat).

(** The counter at the check number [check]. *)
Lemma checkComponents_steps fuel ready check :
  (check ≤ 100)%nat →
  (100 - check < fuel)%nat →
  (∀ m, (m < check)%nat → ready m = false) →
  checkComponents fuel ready (100 * N.of_nat check)%N check
  = match list_find (λ n, ready n = true) (seq check (101 - check)) with
    | Some (_, n) => Some (Resolved n)
    | None => Some (Rejected 100)
    end.
Proof.
  revert check. induction fuel as [|fuel IH]; intros check Hle Hfuel Hbefore; [lia|].
  cbn [checkComponents].
  replace (101 - check)%nat with (S (100 - check)) by lia. cbn [seq list_find].
  destruct (ready check) eqn:Hready.
  - rewrite decide_True by done. done.
  - rewrite decide_False by congruence.
    destruct (decide (check = 100)) as [->|Hne].
    + done.
    + replace (maxWaitTime <=? 100 * N.of_nat check)%N with false
        by (symmetry; apply N.leb_gt; unfold maxWaitTime; lia).
      replace (100 * N.of_nat check + checkInterval)%N with (100 * N.of_nat (S check))%N
        by (unfold checkInterval; lia).
      rewrite IH; [|lia|lia|].
      * replace (101 - S check)%nat with (100 - check)%nat by lia.
        destruct (list_find _ (seq (S check) (100 - check))) as [[i n]|]; done.
      * intros m Hm. destruct (decide (m = check)) as [->|]; [done|]. apply Hbefore. lia.
Qed.

(** X14: with fuel for 101 checks, waitForComponents settles.  It resolves
    at the first check at which both managers exist, if that is one of the
    checks 0 to 100; otherwise it rejects at check 100, when the counter
    has reached 10000, and what becomes ready later goes unnoticed. *)
Theorem waitForComponents_settles fuel ready :
  (101 ≤ fuel)%nat →
  ∃ result, waitForComponents fuel ready = Some result
    ∧ (∀ n, result = Resolved n
            ↔ (n ≤ 100)%nat ∧ ready n = true ∧ ∀ m, (m < n)%nat → ready m = false)
    ∧ (∀ n, result = Rejected n
            ↔ n = 100%nat ∧ ∀ m, (m ≤ 100)%nat → ready m = false).
Proof.
  intros Hfuel. unfold waitForComponents.
  pose proof (checkComponents_steps fuel ready 0) as Hsteps.
  change (100 * N.of_nat 0)%N with 0%N in Hsteps. rewrite Hsteps by lia. clear Hsteps.
  replace (101 - 0)%nat with 101%nat by lia.
  destruct (list_find (λ n, ready n = true) (seq 0 101)) as [[i k]|] eqn:Hfind.
  - apply list_find_Some in Hfind as (Hk & Hready & Hfirst).
    apply lookup_seq in Hk as [-> Hi]. cbn [Nat.add] in *.
    assert (∀ m, (m < i)%nat → ready m = false) as Hbefore.
    { intros m Hm. apply not_true_is_false. apply (Hfirst m m); [|done].
      apply lookup_seq. lia. }
    eexists. split; [done|]. split.
    + intros n. split.
      * intros [= <-]. split_and!; [lia|done|done].
      * intros (Hn & Hrn & Hbn). f_equal.
        destruct (Nat.lt_trichotomy i n) as [Hlt|[->|Hgt]]; [|done|].
        -- specialize (Hbn i Hlt). congruence.
        -- specialize (Hbefore n Hgt). congruence.
    + intros n. split; [done|]. intros [_ Hnone].
      specialize (Hnone i ltac:(lia)). congruence.
  - pose proof (proj1 (list_find_None _ _) Hfind) as Hnone.
    assert (∀ m, (m ≤ 100)%nat → ready m = false) as Hall.
    { intros m Hm. apply not_true_is_false.
      apply (proj1 (Forall_forall _ _) Hnone m). apply elem_of_seq. lia. }
    eexists. split; [done|]. split.
    + intros n. split; [done|]. intros (Hn & Hrn & _). specialize (Hall n Hn). congruence.
    + intros n. split; [by intros [= <-]|]. by intros [-> _].
Qed.

(** Both managers exist from the fourth check on. *)
Lemma waitForComponents_settles_witness :
  waitForComponents 101 (λ n, 3 <=? n)%nat = Some (Resolved 3).
Proof.
  destruct (waitForComponents_settles 101 (λ n, 3 <=? n)%nat (Nat.le_refl 101))
    as (result & Hrun & Hresolved & _).
  rewrite Hrun. f_equal. apply Hresolved. split_and!.
  - lia.
  - reflexivity.
  - intros m Hm. apply Nat.leb_gt. exact Hm.
Defined.
End Waiting.

(** ** ThemeManager: no operation throws *)

Section ThemeSafety.
Context `{Host}.
Import ThemeManager.

(** The root attribute shows the current theme. *)
Lemma applyTheme_frame theme st :
  ∃ st', applyTheme theme st = Ok st'
    ∧ currentTheme st' = theme
    ∧ data_theme st' = Some (ToString theme)
    ∧ prefers_dark st' = prefers_dark st
    ∧ (localStorage st' = localStorage st
       ∨ localStorage st' = <[themeKey := Utils.stringify_item theme]> (localStorage st)).
Proof.
  destruct (applyTheme_returns theme st) as (flag & ls' & Hset & Happly).
  eexists. split; [exact Happly|]. cbn. split_and!; [done|done|done|].
  rewrite storage_set_cases in Hset.
  destruct (storage_accepts _ _ _); injection Hset as <- <-; auto.
Qed.

Lemma perform_frame o st :
  data_theme st = Some (ToString (currentTheme st)) →
  ∃ st', perform o st = Ok st'
    ∧ data_theme st' = Some (ToString (currentTheme st'))
    ∧ ∀ k, k ≠ themeKey → localStorage st' !! k = localStorage st !! k.
Proof.
  intros Hattr.
  assert (∀ theme st0, localStorage st0 = localStorage st →
            ∃ st', applyTheme theme st0 = Ok st'
              ∧ data_theme st' = Some (ToString (currentTheme st'))
              ∧ ∀ k, k ≠ themeKey → localStorage st' !! k = localStorage st !! k) as Happly.
  { intros theme st0 Hls.
    destruct (applyTheme_frame theme st0) as (st' & Hrun & Hcur & Hdata & _ & Hstore).
    exists st'. split; [done|]. split; [by rewrite Hcur|].
    intros k Hk. destruct Hstore as [->| ->]; rewrite <- Hls; [done|].
    by rewrite lookup_insert_ne. }
  destruct o as [theme| |theme|matches]; cbn [perform].
  - by apply Happly.
  - by apply Happly.
  - unfold setTheme. destruct (is_theme theme); [by apply Happly|]. by exists st.
  - unfold onSystemThemeChange.
    set (st0 := {| currentTheme := currentTheme st; data_theme := data_theme st;
                   localStorage := localStorage st; prefers_dark := matches |}).
    unfold getStoredTheme.
    destruct (storage_get_returns (localStorage st0) themeKey) as [stored ->].
    cbn [mbind outcome_bind]. destruct (truthy stored); cbn [negb].
    + by exists st0.
    + by apply Happly.
Qed.

Lemma perform_all_frame ops st :
  data_theme st = Some (ToString (currentTheme st)) →
  ∃ st', perform_all ops st = Ok st'
    ∧ data_theme st' = Some (ToString (currentTheme st'))
    ∧ ∀ k, k ≠ themeKey → localStorage st' !! k = localStorage st !! k.
Proof.
  revert st. induction ops as [|o ops IH]; intros st Hattr.
  - by exists st.
  - destruct (perform_frame o st Hattr) as (st1 & Hrun & Hattr1 & Hkeys1).
    destruct (IH st1 Hattr1) as (st2 & Hrest & Hattr2 & Hkeys2).
    exists st2. cbn [perform_all]. rewrite Hrun. cbn [mbind outcome_bind].
    split; [done|]. split; [done|]. intros k Hk. by rewrite Hkeys2, Hkeys1.
Qed.

(** X15: constructing the manager and any calls on it afterwards never
    throw, whatever the storage holds and whether or not it takes writes;
    the attribute on the root element always names the current theme; and
    no key of localStorage other than the theme's own is ever written. *)
Theorem theme_operations_never_throw (attr : option string) (ls : gmap string string)
    (dark : bool) (ops : list op) :
  ∃ st0 st,
    construct attr ls dark = Ok st0
    ∧ perform_all ops st0 = Ok st
    ∧ data_theme st = Some (ToString (currentTheme st))
    ∧ ∀ k, k ≠ themeKey → localStorage st !! k = ls !! k.
Proof.
  unfold construct.
  set (st00 := {| currentTheme := VUndefined; data_theme := attr;
                  localStorage := ls; prefers_dark := dark |}).
  unfold getStoredTheme.
  destruct (storage_get_returns (localStorage st00) themeKey) as [stored ->].
  cbn [mbind outcome_bind].
  destruct (applyTheme_frame (js_or stored (getSystemTheme st00)) st00)
    as (st0 & Hrun & Hcur & Hdata & _ & Hstore).
  destruct (perform_all_frame ops st0) as (st & Hall & Hattr & Hkeys); [by rewrite Hcur|].
  exists st0, st. split_and!; [done|done|done|].
  intros k Hk. rewrite Hkeys by done.
  destruct Hstore as [->| ->]; [done|]. by rewrite lookup_insert_ne.
Qed.
End ThemeSafety.

(** ** The theme shortcut *)

Section ThemeShortcut.
Context `{Host}.
Variable toLowerCase : string → string.
Import ThemeManager PortfolioApp.

Lemma getShortcutKey_ctrl_shift e :
  ctrlKey e || metaKey e = true → shiftKey e = true → altKey e = false →
  getShortcutKey toLowerCase e = "ctrl+shift+" +:+ toLowerCase (key e).
Proof. intros Hc Hs Ha. unfold getShortcutKey. rewrite Hc, Hs, Ha. reflexivity. Qed.

Lemma toggleTheme_flips st name :
  currentTheme st = VStr name → name = "light" ∨ name = "dark" →
  ∃ st' other,
    toggleTheme st = Ok st'
    ∧ currentTheme st' = VStr other
    ∧ data_theme st' = Some (ToString (VStr other))
    ∧ (name = "light" → other = "dark") ∧ (name = "dark" → other = "light").
Proof.
  intros Hcur Hname. unfold toggleTheme. rewrite Hcur.
  destruct Hname as [-> | ->]; cbn [is_str String.eqb Ascii.eqb Bool.eqb].
  - destruct (applyTheme_returns (VStr "dark") st) as (flag & ls' & _ & ->).
    eexists _, "dark". split_and!; done.
  - destruct (applyTheme_returns (VStr "light") st) as (flag & ls' & _ & ->).
    eexists _, "light". split_and!; done.
Qed.

(** X16: Ctrl+Shift+T (or Cmd+Shift+T) reaches two keydown listeners, the
    one ThemeManager binds and the one PortfolioApp binds.  With no input
    focused both toggle, so the theme ends as it began; with an input
    focused only the first does, and the theme changes. *)
Theorem theme_shortcut_toggles_twice (e : key_event) (st : ThemeManager.state)
    (name : string) :
  toLowerCase "T" = "t" →
  key e = "T" → ctrlKey e || metaKey e = true → shiftKey e = true → altKey e = false →
  currentTheme st = VStr name → name = "light" ∨ name = "dark" →
  (∃ st', keydown toLowerCase false e st = Ok st'
          ∧ currentTheme st' = currentTheme st
          ∧ data_theme st' = Some (ToString (currentTheme st)))
  ∧ (∃ st', keydown toLowerCase true e st = Ok st'
            ∧ currentTheme st' ≠ currentTheme st
            ∧ light_or_dark (currentTheme st')).
Proof.
  intros Hlower Hkey Hctrl Hshift Halt Hcur Hname.
  assert (theme_shortcut e = true) as Hfirst.
  { unfold theme_shortcut. by rewrite Hctrl, Hshift, Hkey. }
  assert (shortcuts (getShortcutKey toLowerCase e) = Some ToggleTheme) as Hsecond.
  { by rewrite getShortcutKey_ctrl_shift, Hkey, Hlower. }
  destruct (toggleTheme_flips st name Hcur Hname)
    as (st1 & other & Hrun1 & Hcur1 & Hattr1 & Hlight & Hdark).
  assert (other = "light" ∨ other = "dark") as Hother.
  { destruct Hname as [Hn|Hn]; [right; auto|left; auto]. }
  destruct (toggleTheme_flips st1 other Hcur1 Hother)
    as (st2 & back & Hrun2 & Hcur2 & Hattr2 & Hlight2 & Hdark2).
  assert (back = name) as ->.
  { destruct Hname as [-> | ->].
    - rewrite (Hlight eq_refl) in Hdark2. by apply Hdark2.
    - rewrite (Hdark eq_refl) in Hlight2. by apply Hlight2. }
  unfold keydown, shortcut_action. rewrite Hfirst, Hsecond, Hrun1.
  cbn [mbind outcome_bind negb]. split.
  - exists st2. rewrite Hcur. split_and!; done.
  - exists st1. rewrite Hcur, Hcur1. split_and!; [done| |].
    + intros [= ->]. destruct Hname as [Hn|Hn].
      * specialize (Hlight Hn). congruence.
      * specialize (Hdark Hn). congruence.
    + destruct Hother as [-> | ->]; [by left|by right].
Qed.
End ThemeShortcut.

(** On a light page: the shortcut leaves the page light, unless an input
    has the focus. *)
Lemma theme_shortcut_toggles_twice_witness :
  ∃ st',
    @PortfolioApp.keydown SampleHost.to_lower SampleHost.browser false SampleHost.ctrl_shift_T
      {| ThemeManager.currentTheme := VStr "light"; ThemeManager.data_theme := Some "light";
         ThemeManager.localStorage := ∅; ThemeManager.prefers_dark := false |} = Ok st'
    ∧ ThemeManager.currentTheme st' = VStr "light".
Proof.
  destruct (@theme_shortcut_toggles_twice SampleHost.browser SampleHost.to_lower
              SampleHost.ctrl_shift_T
              {| ThemeManager.currentTheme := VStr "light";
                 ThemeManager.data_theme := Some "light";
                 ThemeManager.localStorage := ∅; ThemeManager.prefers_dark := false |}
              "light" eq_refl eq_refl eq_refl eq_refl eq_refl eq_refl (or_introl eq_refl))
    as [(st' & Hrun & Hcur & _) _].
  exists st'. split; [exact Hrun|exact Hcur].
Defined.

(** ** NavigationManager: the mobile menu *)

Section MobileMenu.
Import NavigationManager.
Implicit Types (m : menu) (e : menu_event) (events : list menu_event).

Lemma removeEventListener_fresh f listeners :
  Forall (λ g, (g < f)%nat) listeners → removeEventListener f listeners = listeners.
Proof.
  intros Hold. unfold removeEventListener. induction Hold as [|g listeners Hg _ IH]; [done|].
  cbn [List.filter]. replace (g =? f)%nat with false by (symmetry; apply Nat.eqb_neq; lia).
  cbn [negb]. by rewrite IH.
Qed.

Lemma addEventListener_fresh f listeners :
  Forall (λ g, (g < f)%nat) listeners → addEventListener f listeners = (listeners ++ [f])%list.
Proof.
  intros Hold. unfold addEventListener. rewrite bool_decide_eq_false_2; [done|].
  intros Hin. rewrite Forall_forall in Hold. specialize (Hold f Hin). lia.
Qed.

Lemma menu_step_listeners m e :
  listeners_known m →
  listeners_known (menu_step m e)
  ∧ ∃ added, click_listeners (menu_step m e) = (click_listeners m ++ added)%list
             ∧ length added = openings m [e].
Proof.
  unfold listeners_known. intros Hknown.
  assert (Forall (λ f, (f < S (next_function m))%nat) (click_listeners m)) as Hnext.
  { eapply Forall_impl; [exact Hknown|]. simpl. lia. }
  assert (∀ m', click_listeners m' = click_listeners m → next_function m' = S (next_function m) →
                Forall (λ f, (f < next_function m')%nat) (click_listeners m')
                ∧ ∃ added, click_listeners m' = (click_listeners m ++ added)%list
                           ∧ length added = 0%nat) as Hsame.
  { intros m' -> ->. split; [done|]. exists []. by rewrite app_nil_r. }
  destruct e as [| |outside]; cbn [menu_step openings Nat.add].
  - unfold toggleMobileMenu. destruct (default false (navMenu m)); cbn [negb].
    + apply Hsame; cbn; [by apply removeEventListener_fresh|done].
    + cbn. rewrite addEventListener_fresh by done. split.
      * apply Forall_app. split; [done|]. apply Forall_singleton. lia.
      * by exists [next_function m].
  - apply Hsame; cbn; [by apply removeEventListener_fresh|done].
  - destruct outside; cbn [handleClickOutside].
    + apply Hsame; cbn; [by apply removeEventListener_fresh|done].
    + split; [done|]. exists []. by rewrite app_nil_r.
Qed.

(** X17: the click listeners that toggleMobileMenu puts on the document are
    never removed: each removal is asked for with a function object made on
    the spot, which is none of the registered ones.  After any presses,
    closings and clicks the listeners present before are all still there,
    followed by one more for every press that opened the menu. *)
Theorem click_outside_listeners_accumulate m events :
  listeners_known m →
  ∃ added,
    click_listeners (menu_run m events) = (click_listeners m ++ added)%list
    ∧ length added = openings m events
    ∧ listeners_known (menu_run m events).
Proof.
  revert m. induction events as [|e events IH]; intros m Hknown.
  - exists []. by rewrite app_nil_r.
  - destruct (menu_step_listeners m e Hknown) as (Hknown1 & added1 & Hl1 & Hn1).
    destruct (IH (menu_step m e) Hknown1) as (added & Hl & Hn & Hk).
    exists (added1 ++ added)%list. unfold menu_run in *. cbn [foldl].
    rewrite Hl, Hl1, <- app_assoc, length_app, Hn, Hn1. split_and!; [done| |done].
    cbn [openings]. lia.
Qed.

(** Opened and closed three times: three listeners are left. *)
Lemma click_outside_listeners_accumulate_witness :
  length (click_listeners
            (menu_run closed_menu
               [PressToggle; PressToggle; PressToggle; CloseMenu; PressToggle;
                ClickSeen true])) = 3%nat.
Proof.
  destruct (click_outside_listeners_accumulate closed_menu
              [PressToggle; PressToggle; PressToggle; CloseMenu; PressToggle; ClickSeen true]
              (Forall_nil_2 _))
    as (added & Hl & Hn & _).
  rewrite Hl, length_app, Hn. reflexivity.
Defined.

(** The scroll lock follows the menu. *)
Lemma menu_step_lock m e :
  (∀ active, navMenu m = Some active → (body_overflow m = "hidden" ↔ active = true)) →
  (∀ active, navMenu (menu_step m e) = Some active →
             (body_overflow (menu_step m e) = "hidden" ↔ active = true))
  ∧ (is_Some (navMenu (menu_step m e)) ↔ is_Some (navMenu m)).
Proof.
  intros Hlock. destruct e as [| |[|]]; cbn [menu_step handleClickOutside];
    unfold toggleMobileMenu, closeMobileMenu; cbn;
    destruct (navMenu m) as [[|]|] eqn:Hmenu; cbn;
    (split; [intros active; try (intros [= <-]); try done; try (by apply Hlock)
            |split; intros [? ?]; by eauto]).
Qed.

(** X18: on a page with a menu, after any presses, closings and clicks the
    body is locked against scrolling exactly when the menu is open, if that
    was so to begin with; and it is so after every press and every closing,
    whatever came before.  On a page without a menu every press locks the
    body all the same. *)
Theorem scroll_lock_follows_menu m events :
  (∀ active, navMenu m = Some active → (body_overflow m = "hidden" ↔ active = true)) →
  (∀ active, navMenu (menu_run m events) = Some active →
             (body_overflow (menu_run m events) = "hidden" ↔ active = true))
  ∧ (∀ m0 active, navMenu (toggleMobileMenu m0) = Some active →
                  (body_overflow (toggleMobileMenu m0) = "hidden" ↔ active = true))
  ∧ (∀ m0 active, navMenu (closeMobileMenu m0) = Some active →
                  body_overflow (closeMobileMenu m0) = "" ∧ active = false)
  ∧ (navMenu m = None →
     body_overflow (menu_run m (events ++ [PressToggle])) = "hidden").
Proof.
  intros Hlock. split_and!.
  - revert m Hlock. induction events as [|e events IH]; intros m Hlock; [done|].
    unfold menu_run in *. cbn [foldl]. apply IH. by apply menu_step_lock.
  - intros m0 active. unfold toggleMobileMenu. cbn.
    destruct (navMenu m0) as [[|]|]; cbn; [| |done]; intros [= <-]; done.
  - intros m0 active. unfold closeMobileMenu. cbn.
    destruct (navMenu m0) as [[|]|]; cbn; [| |done]; intros [= <-]; done.
  - intros Hnone.
    assert (navMenu (menu_run m events) = None) as Hstill.
    { clear Hlock. revert m Hnone. induction events as [|e events IH]; intros m Hnone; [done|].
      unfold menu_run in *. cbn [foldl]. apply IH.
      destruct e as [| |[|]]; cbn; by rewrite ?Hnone. }
    unfold menu_run in *. rewrite foldl_app. cbn [foldl menu_step].
    unfold toggleMobileMenu. cbn. by rewrite Hstill.
Qed.

Lemma scroll_lock_follows_menu_witness :
  body_overflow (menu_run closed_menu [PressToggle; ClickSeen false]) = "hidden"
  ∧ body_overflow (menu_run closed_menu [PressToggle; ClickSeen true]) = "".
Proof.
  assert (∀ active, navMenu closed_menu = Some active →
                    (body_overflow closed_menu = "hidden" ↔ active = true)) as Hclosed.
  { intros active [= <-]. split; intros Hx; discriminate Hx. }
  split.
  - apply (proj1 (scroll_lock_follows_menu closed_menu [PressToggle; ClickSeen false] Hclosed)
             true eq_refl). reflexivity.
  - destruct (body_overflow (menu_run closed_menu [PressToggle; ClickSeen true]) =? "hidden")
      eqn:Hhidden; [|reflexivity].
    apply String.eqb_eq in Hhidden.
    apply (proj1 (scroll_lock_follows_menu closed_menu [PressToggle; ClickSeen true] Hclosed)
             false eq_refl) in Hhidden. discriminate Hhidden.
Defined.
End MobileMenu.

(** ** NavigationManager: a click on a link *)

Section LinkClick.
Import NavigationManager.
Variable querySelector : string → outcome (option Z).
Implicit Types (st : state) (s : section) (secs before after : list section).

Lemma find_active_after pos active after :
  Forall (λ s', ¬ (offsetTop s' ≤ pos < offsetTop s' + offsetHeight s')%Z) after →
  foldl (next_active pos) active after = active.
Proof.
  intros Hnone. revert active. induction Hnone as [|s' after Hout _ IH]; intros active; [done|].
  cbn [foldl]. rewrite IH. unfold next_active.
  destruct (contains pos s') eqn:Hc; [|done]. by apply contains_spec in Hc.
Qed.

Lemma substring_all (s : string) : String.substring 0 (String.length s) s = s.
Proof. induction s as [|c s IH]; [done|]. cbn. by rewrite IH. Qed.

Lemma section_by_id secs s s' :
  NoDup (section_id <$> secs) → s ∈ secs → s' ∈ secs → section_id s' = section_id s → s' = s.
Proof.
  intros Hnd Hs Hs' Hid.
  apply list_elem_of_lookup in Hs as [i Hi]. apply list_elem_of_lookup in Hs' as [j Hj].
  assert (i = j) as ->.
  { apply (NoDup_lookup _ i j (section_id s) Hnd).
    - by rewrite list_lookup_fmap, Hi.
    - by rewrite list_lookup_fmap, Hj, <- Hid. }
  congruence.
Qed.

(** The listener hands the text after the number sign to scrollToSection,
    which puts the sign back. *)
Lemma click_link_fragment (l : nav_link) st id :
  href l = "#" +:+ id →
  click_link querySelector l st = scrollToSection querySelector id st.
Proof.
  intros Hhref. unfold click_link. rewrite Hhref.
  change ("#" +:+ id) with (String "#" id). cbn [String.prefix].
  destruct (Ascii.ascii_dec "#" "#") as [_|Hne]; [|done].
  assert (String.prefix "" id = true) as -> by (by destruct id).
  cbn [String.length String.substring Nat.sub]. by rewrite Nat.sub_0_r, substring_all.
Qed.

(** X19: a click on the link to a section makes the selector from the
    link's fragment.  When the browser finds that section with it, the
    click asks for the scroll position [offsetTop - navbarHeight]; when the
    scroll listener runs with the window there, it looks at the point 100
    pixels below the top of that section.  So the clicked section becomes
    the current one if it is taller than 100 pixels and no later section
    holds that point, and a section of at most 100 pixels is never the
    current one then.  When the browser throws at the selector, so does the
    click, and when it finds nothing the click does not scroll. *)
Theorem link_click_highlights_target st before s after (l : nav_link) :
  sections st = (before ++ s :: after)%list →
  href l = "#" +:+ section_id s →
  (querySelector ("#" +:+ section_id s) = Ok (Some (offsetTop s)) →
   ∃ y, click_link querySelector l st = Ok (Some y)
     ∧ y = (offsetTop s - navbarHeight st)%Z
     ∧ scrollPosition (scroll_to st y) = (offsetTop s + 100)%Z
     ∧ last_containing (offsetTop s + 100) (sections st) (currentSection (scroll_to st y))
     ∧ ((100 < offsetHeight s)%Z →
        Forall (λ s', ¬ (offsetTop s' ≤ offsetTop s + 100 < offsetTop s' + offsetHeight s')%Z)
          after →
        currentSection (scroll_to st y) = section_id s)
     ∧ ((offsetHeight s ≤ 100)%Z →
        NoDup (section_id <$> sections st) → section_id s ≠ "" →
        currentSection (scroll_to st y) ≠ section_id s))
  ∧ (∀ e, querySelector ("#" +:+ section_id s) = Raise e →
          click_link querySelector l st = Raise e)
  ∧ (querySelector ("#" +:+ section_id s) = Ok None →
     click_link querySelector l st = Ok None).
Proof.
  intros Hsecs Hhref. rewrite (click_link_fragment l st (section_id s) Hhref).
  unfold scrollToSection. split_and!; [|by intros e ->|by intros ->].
  intros Hfound. rewrite Hfound. cbn [mbind outcome_bind].
  exists (offsetTop s - navbarHeight st)%Z.
  set (y := (offsetTop s - navbarHeight st)%Z) in *.
  set (st1 := {| navbar := navbar st; navLinks := navLinks st; sections := sections st;
                 currentSection := currentSection st; scrollY := y |}).
  assert (scrollPosition st1 = (offsetTop s + 100)%Z) as Hpos.
  { unfold scrollPosition, navbarHeight, st1, y, navbarHeight. cbn. lia. }
  assert (currentSection (scroll_to st y)
          = find_active (offsetTop s + 100) (sections st)) as Hcur.
  { unfold scroll_to. fold st1. by rewrite updateActiveNavLink_section, Hpos. }
  assert (scrollPosition (scroll_to st y) = (offsetTop s + 100)%Z) as Hpos'.
  { unfold scroll_to. fold st1. rewrite <- Hpos. unfold scrollPosition, navbarHeight.
    destruct (updateActiveNavLink_frame st1) as (_ & _ & ->).
    unfold updateActiveNavLink. by destruct (negb _). }
  split_and!; [done|done|done| | |].
  - rewrite Hcur. apply find_active_last.
  - intros Htall Hafter. rewrite Hcur, Hsecs. unfold find_active.
    rewrite foldl_app. cbn [foldl]. rewrite find_active_after by done.
    unfold next_active. replace (contains (offsetTop s + 100) s) with true; [done|].
    symmetry. apply contains_spec. lia.
  - intros Hshort Hnd Hid. rewrite Hcur.
    destruct (find_active_last (offsetTop s + 100) (sections st))
      as [(before' & s0 & after' & Hsplit & Hin & _ & ->)|[_ ->]]; [|done].
    intros Hsame. assert (s0 = s) as ->.
    { apply (section_by_id (sections st)); [done| | |done].
      - rewrite Hsecs. apply elem_of_app. right. by left.
      - rewrite Hsplit. apply elem_of_app. right. by left. }
    lia.
Qed.
End LinkClick.

(** The link to the second sample section, under a navbar of 70 pixels. *)
Lemma link_click_highlights_target_witness :
  ∃ y, NavigationManager.click_link NavigationManager.sample_querySelector
         {| NavigationManager.href := "#about"; NavigationManager.link_active := false |}
         {| NavigationManager.navbar := Some 70%Z;
            NavigationManager.navLinks := NavigationManager.sample_links;
            NavigationManager.sections := NavigationManager.sample_sections;
            NavigationManager.currentSection := "home";
            NavigationManager.scrollY := 0 |} = Ok (Some y)
    ∧ y = 530%Z
    ∧ NavigationManager.currentSection
        (NavigationManager.scroll_to
           {| NavigationManager.navbar := Some 70%Z;
              NavigationManager.navLinks := NavigationManager.sample_links;
              NavigationManager.sections := NavigationManager.sample_sections;
              NavigationManager.currentSection := "home";
              NavigationManager.scrollY := 0 |} y)
      = "about".
Proof.
  destruct (link_click_highlights_target NavigationManager.sample_querySelector
              {| NavigationManager.navbar := Some 70%Z;
                 NavigationManager.navLinks := NavigationManager.sample_links;
                 NavigationManager.sections := NavigationManager.sample_sections;
                 NavigationManager.currentSection := "home";
                 NavigationManager.scrollY := 0 |}
              [ {| NavigationManager.section_id := "home"; NavigationManager.offsetTop := 0;
                   NavigationManager.offsetHeight := 600 |} ]
              {| NavigationManager.section_id := "about"; NavigationManager.offsetTop := 600;
                 NavigationManager.offsetHeight := 800 |}
              []
              {| NavigationManager.href := "#about"; NavigationManager.link_active := false |}
              eq_refl eq_refl)
    as (Hfound & _ & _).
  destruct (Hfound eq_refl) as (y & Hclick & Hy & _ & _ & Htall & _).
  exists y. split_and!; [exact Hclick|exact Hy|].
  apply Htall; [cbn; lia|constructor].
Defined.

(** ** Utils.isValidEmail: what an accepted address looks like *)

Section EmailFacts.
Import Utils.
Implicit Types (s : text) (c : N).

Lemma not_space_at_spec c : not_space_at c = true ↔ is_space c = false ∧ c ≠ 64%N.
Proof.
  unfold not_space_at. rewrite negb_true_iff, orb_false_iff, N.eqb_neq. done.
Qed.

Lemma email_part_plain s :
  email_part s →
  (0 < length s)%nat
  ∧ Forall (λ c, is_space c = false) s
  ∧ List.filter (N.eqb 64) s = [].
Proof.
  intros [Hne Hall]. split_and!.
  - destruct s; [done|]. cbn. lia.
  - eapply Forall_impl; [exact Hall|]. intros c Hc. cbn in Hc. by apply not_space_at_spec in Hc as [Hc _].
  - clear Hne. induction Hall as [|c s Hc _ IH]; [done|].
    apply not_space_at_spec in Hc as [_ Hc]. cbn [List.filter].
    replace (64 =? c)%N with false by (symmetry; apply N.eqb_neq; congruence). done.
Qed.

Lemma trim_plain s :
  Forall (λ c, is_space c = false) s → trim s = s.
Proof.
  intros Hall. unfold trim.
  assert (∀ t, Forall (λ c, is_space c = false) t → trimStart t = t) as Hstart.
  { intros t Ht. destruct Ht as [|c t Hc _]; [done|]. cbn. by rewrite Hc. }
  rewrite (Hstart s Hall), Hstart, rev_involutive; [done|].
  by apply Forall_rev.
Qed.

(** X20: an address that isValidEmail accepts holds exactly one at sign and
    no white space, has a dot after the at sign with something on both
    sides of it, is at least five code units long, and is left as it is by
    [trim]. *)
Theorem isValidEmail_accepts_only (s : text) :
  isValidEmail s = true →
  length (List.filter (N.eqb 64) s) = 1%nat
  ∧ Forall (λ c, is_space c = false) s
  ∧ (5 ≤ length s)%nat
  ∧ trim s = s
  ∧ ∃ before after, s = (before ++ 46%N :: after)%list
                    ∧ 64%N ∈ before ∧ last before ≠ Some 64%N ∧ after ≠ [].
Proof.
  intros Hvalid. apply isValidEmail_shape in Hvalid
    as (local & domain & tld & -> & Hlocal & Hdomain & Htld).
  pose proof Hdomain as [Hdomain_ne _]. pose proof Htld as [Htld_ne _].
  apply email_part_plain in Hlocal as (Hl1 & Hl2 & Hl3).
  apply email_part_plain in Hdomain as (Hd1 & Hd2 & Hd3).
  apply email_part_plain in Htld as (Ht1 & Ht2 & Ht3).
  assert (Forall (λ c, is_space c = false) (local ++ 64%N :: domain ++ 46%N :: tld)) as Hplain.
  { apply Forall_app. split; [done|]. apply Forall_cons. split; [done|].
    apply Forall_app. split; [done|]. apply Forall_cons. split; done. }
  split_and!.
  - rewrite List.filter_app. cbn [List.filter N.eqb Pos.eqb]. rewrite List.filter_app.
    cbn [List.filter N.eqb Pos.eqb]. rewrite Hl3, Hd3, Ht3. done.
  - done.
  - rewrite length_app. cbn [length]. rewrite length_app. cbn [length]. lia.
  - by apply trim_plain.
  - exists (local ++ 64%N :: domain)%list, tld. split_and!.
    + by rewrite <- app_assoc.
    + apply elem_of_app. right. by left.
    + rewrite last_app. destruct domain as [|c domain] using rev_ind; [done|].
      rewrite app_comm_cons, last_snoc.
      intros [= ->]. rewrite List.filter_app in Hd3.
      cbn [List.filter N.eqb Pos.eqb] in Hd3. apply app_eq_nil in Hd3 as [_ Hd3].
      discriminate Hd3.
    + done.
Qed.

(** a@b.c *)
Lemma isValidEmail_accepts_only_witness :
  length (List.filter (N.eqb 64) [97; 64; 98; 46; 99]%N) = 1%nat
  ∧ trim [97; 64; 98; 46; 99]%N = [97; 64; 98; 46; 99]%N.
Proof.
  destruct (isValidEmail_accepts_only [97; 64; 98; 46; 99]%N eq_refl)
    as (Hone & _ & _ & Htrim & _).
  split; [exact Hone|exact Htrim].
Defined.
End EmailFacts.

(** ** ThemeManager when the storage takes no writes *)

Section NoStorage.
Context `{Host}.
Import ThemeManager.
Hypothesis writes_refused : ∀ ls k s, storage_accepts ls k s = false.

Lemma applyTheme_unstored theme st :
  applyTheme theme st
  = Ok {| currentTheme := theme; data_theme := Some (ToString theme);
          localStorage := localStorage st; prefers_dark := prefers_dark st |}.
Proof.
  destruct (applyTheme_returns theme st) as (flag & ls' & Hset & ->).
  rewrite storage_set_cases, writes_refused in Hset. by injection Hset as <- <-.
Qed.

Lemma perform_unstored o st :
  ∃ st', perform o st = Ok st' ∧ localStorage st' = localStorage st.
Proof.
  destruct o as [theme| |theme|matches]; cbn [perform].
  - rewrite applyTheme_unstored. by eexists.
  - unfold toggleTheme. rewrite applyTheme_unstored. by eexists.
  - unfold setTheme. destruct (is_theme theme); [|by eexists].
    rewrite applyTheme_unstored. by eexists.
  - unfold onSystemThemeChange, getStoredTheme. cbn [localStorage].
    destruct (storage_get_returns (localStorage st) themeKey) as [stored ->].
    cbn [mbind outcome_bind]. destruct (truthy stored); cbn [negb]; [by eexists|].
    rewrite applyTheme_unstored. by eexists.
Qed.

Lemma perform_all_unstored ops st :
  ∃ st', perform_all ops st = Ok st' ∧ localStorage st' = localStorage st.
Proof.
  revert st. induction ops as [|o ops IH]; intros st; [by eexists|].
  destruct (perform_unstored o st) as (st1 & Hrun & Hls).
  destruct (IH st1) as (st2 & Hrest & Hls2).
  exists st2. cbn [perform_all]. rewrite Hrun. cbn [mbind outcome_bind].
  split; [done|]. by rewrite Hls2.
Qed.

(** X21: in a browser whose storage takes no writes and holds no theme,
    nothing is ever stored, so the manager keeps following the system: the
    first theme is the system's, and after any calls a change of the system
    preference sets the theme it names. *)
Theorem unstored_theme_follows_system (attr : option string) (ls : gmap string string)
    (dark : bool) (ops : list op) (matches : bool) :
  ls !! themeKey = None →
  JSON_parse "null" = Ok VNull →
  ∃ st0 st st',
    construct attr ls dark = Ok st0
    ∧ currentTheme st0 = VStr (if dark then "dark" else "light")
    ∧ perform_all ops st0 = Ok st
    ∧ localStorage st = ls
    ∧ onSystemThemeChange matches st = Ok st'
    ∧ currentTheme st' = VStr (if matches then "dark" else "light")
    ∧ data_theme st' = Some (ToString (currentTheme st')).
Proof.
  intros Hnone Hnull.
  assert (∀ st, localStorage st = ls → getStoredTheme st = Ok VNull) as Hstored.
  { intros st Hls. unfold getStoredTheme, Utils.storage_get, Utils.parse_item,
      Utils.localStorage_getItem. rewrite Hls, Hnone. cbn [default]. by rewrite Hnull. }
  unfold construct. rewrite Hstored by done. cbn [mbind outcome_bind].
  rewrite applyTheme_unstored. cbn [localStorage prefers_dark].
  set (st0 := {| currentTheme := _; data_theme := _; localStorage := ls;
                 prefers_dark := dark |}).
  destruct (perform_all_unstored ops st0) as (st & Hrun & Hls).
  assert (onSystemThemeChange matches st
          = Ok {| currentTheme := VStr (if matches then "dark" else "light");
                  data_theme := Some (ToString (VStr (if matches then "dark" else "light")));
                  localStorage := localStorage st; prefers_dark := matches |}) as Hchange.
  { unfold onSystemThemeChange. rewrite Hstored by (cbn; by rewrite Hls).
    cbn [mbind outcome_bind truthy negb]. rewrite applyTheme_unstored.
    by destruct matches. }
  exists st0, st. eexists. split_and!; [done| |done|done|exact Hchange|done|done].
  unfold st0, js_or, getSystemTheme. cbn. by destruct dark.
Qed.
End NoStorage.

(** The sample browser with its storage full, first on a dark system, then
    the system turns light. *)
Lemma unstored_theme_follows_system_witness :
  ∃ st0 st st',
    @ThemeManager.construct SampleHost.full_browser None ∅ true = Ok st0
    ∧ @ThemeManager.perform_all SampleHost.full_browser [ThemeManager.ToggleTheme] st0 = Ok st
    ∧ @ThemeManager.onSystemThemeChange SampleHost.full_browser false st = Ok st'
    ∧ ThemeManager.currentTheme st' = VStr "light".
Proof.
  destruct (@unstored_theme_follows_system SampleHost.full_browser (λ _ _ _, eq_refl)
              None ∅ true [ThemeManager.ToggleTheme] false (lookup_empty _) eq_refl)
    as (st0 & st & st' & Hconstruct & _ & Hrun & _ & Hchange & Hcur & _).
  exists st0, st, st'. split_and!; [exact Hconstruct|exact Hrun|exact Hchange|exact Hcur].
Defined.
